(** * Conflict extraction, resolution orchestration and safe substitution

    A shallow embedding of [scripts/resolve-conflicts-with-gemini.js].

    - JavaScript strings are sequences of UTF-16 code units; a code unit is
      an [N] and a string a [list N].
    - The regular expression [conflictRegex] is kept as a syntax tree and
      run by a backtracking matcher written in continuation style, with
      greedy and lazy quantifiers tried in the order JavaScript tries them.
    - The file system, the HTTP service, the shell and the timer are an
      explicit world threaded through a small state-and-exception monad;
      every collaborator call is recorded in a trace.  [console] output is
      not modelled, except the submodule warning.
    - A request is answered, fails, or is never settled; in the last case
      the script stays on its [await] and the process ends with status 0.
    - A plain file is the text that reading it as UTF-8 gives; a write
      stores the text as UTF-8 keeps it, or fails.
    - The files of the world are the working tree as the [fs] calls of the
      script see it: what the [git] commands do to the repository is not
      part of the world. *)

From Stdlib Require Import ZArith QArith Ascii String.
From stdpp Require Import base option list strings gmap sorting.

Set Default Proof Using "Type".
Set Warnings "-register-all".
Local Open Scope nat_scope.

(** ** Strings *)

Definition NL : N := 10%N.
Definition BACKSLASH : N := 92%N.
Definition LOWER_N : N := 110%N.
Definition DQUOTE : N := 34%N.

(** Code units of a literal; the two characters backslash-n stand for a
    line feed, as in the JavaScript source. *)
Fixpoint unescape (l : list N) : list N :=
  match l with
  | a :: ((b :: l') as t) =>
      if (N.eqb a BACKSLASH && N.eqb b LOWER_N)%bool
      then NL :: unescape l'
      else a :: unescape t
  | _ => l
  end.

Definition js (s : string) : list N :=
  unescape (N_of_ascii <$> list_ascii_of_string s).

(** [content.substring(a)] and [content.substring(0, b)] are [drop a] and
    [take b]; both clamp at the length like JavaScript does. *)

(** ** Regular expressions *)

Module Regex.

(** The fragment of the regular-expression syntax the script uses:
    literals, a quantified character class ([c*] greedy, [c*?] lazy),
    numbered capture groups and concatenation. *)
Inductive regex :=
| Lit (s : list N)
| Star (lazy : bool) (cls : N → bool)
| Group (n : nat) (r : regex)
| Seq (r1 r2 : regex).

Definition not_newline (c : N) : bool := negb (N.eqb c NL).  (* [^\n] *)
Definition any_char (c : N) : bool := true.                   (* [\s\S] *)

Fixpoint ncaptures (r : regex) : nat :=
  match r with
  | Lit _ | Star _ _ => 0
  | Group n r => n `max` ncaptures r
  | Seq r1 r2 => ncaptures r1 `max` ncaptures r2
  end.

(** A match result as JavaScript presents it: [m.index] and the array
    [m[0]], [m[1]], ... of captures ([None] is [undefined]). *)
Record Match := { index : nat; captures : list (option (list N)) }.

Definition capture (m : Match) (n : nat) : list N :=
  default [] (mjoin (captures m !! n)).

Section Matcher.
Context {R : Type}.

Fixpoint lit_m (p s : list N) : option (list N) :=
  match p, s with
  | [], _ => Some s
  | c :: p', d :: s' => if N.eqb c d then lit_m p' s' else None
  | _ :: _, [] => None
  end.

(** Greedy: consume first, fall back to the continuation. *)
Fixpoint star_greedy (cls : N → bool) (s : list N)
    (k : list N → option R) : option R :=
  match s with
  | c :: s' =>
      if cls c then
        match star_greedy cls s' k with
        | Some r => Some r
        | None => k s
        end
      else k s
  | [] => k []
  end.

(** Lazy: try the continuation first, consume one more on failure. *)
Fixpoint star_lazy (cls : N → bool) (s : list N)
    (k : list N → option R) : option R :=
  match k s with
  | Some r => Some r
  | None =>
      match s with
      | c :: s' => if cls c then star_lazy cls s' k else None
      | [] => None
      end
  end.

(** [match_re r s caps k]: match [r] at the head of the remaining input [s],
    then continue with [k] on what is left; [None] is failure and makes
    the caller backtrack. *)
Fixpoint match_re (r : regex) (s : list N) (caps : list (option (list N)))
    (k : list N → list (option (list N)) → option R) : option R :=
  match r with
  | Lit p =>
      match lit_m p s with
      | Some s' => k s' caps
      | None => None
      end
  | Star lazy cls =>
      (if lazy then star_lazy else star_greedy) cls s (λ s', k s' caps)
  | Group n r' =>
      match_re r' s caps
        (λ s' caps', k s' (<[n := Some (take (length s - length s') s)]> caps'))
  | Seq r1 r2 =>
      match_re r1 s caps (λ s' caps', match_re r2 s' caps' k)
  end.
End Matcher.

(** One attempt of the pattern at the head of [s]. *)
Definition match_here (r : regex) (s : list N) : option (list (option (list N))) :=
  match_re r s (replicate (S (ncaptures r)) None)
    (λ s' caps, Some (<[0 := Some (take (length s - length s') s)]> caps)).

(** [RegExpBuiltinExec] of a global, non-sticky expression: try at
    [lastIndex], then at every later index up to the end of the input.
    [s] is the input from index [i] on. *)
Fixpoint exec_scan (r : regex) (s : list N) (i : nat) : option Match :=
  match match_here r s with
  | Some caps => Some {| index := i; captures := caps |}
  | None =>
      match s with
      | [] => None
      | _ :: s' => exec_scan r s' (S i)
      end
  end.

Definition exec (r : regex) (input : list N) (lastIndex : nat) : option Match :=
  if decide (lastIndex ≤ length input)
  then exec_scan r (drop lastIndex input) lastIndex
  else None.

(** [String.prototype.matchAll]: repeat [exec], moving [lastIndex] to the
    end of each match (one further after an empty match).  [lastIndex]
    grows with every match; the fuel bounds the number of rounds. *)
Fixpoint matchAll_loop (fuel : nat) (r : regex) (input : list N)
    (lastIndex : nat) : list Match :=
  match fuel with
  | 0 => []
  | S fuel' =>
      match exec r input lastIndex with
      | None => []
      | Some m =>
          let e := index m + length (capture m 0) in
          m :: matchAll_loop fuel' r input
                 (if decide (capture m 0 = []) then S e else e)
      end
  end.

Definition matchAll (r : regex) (input : list N) : list Match :=
  matchAll_loop (length input + 2) r input 0.

End Regex.
Import Regex.

Declare Scope regex_scope.
Delimit Scope regex_scope with re.
Infix "⋅" := Seq (at level 60, right associativity) : regex_scope.

(** ** The script *)

Definition MAX_RETRIES : nat := 3.

(** [/<<<<<<<[^\n]*\n([\s\S]*?)\n=======\n([\s\S]*?)\n>>>>>>>[^\n]*/g] *)
Definition conflictRegex : regex :=
  (Lit (js "<<<<<<<") ⋅ Star false not_newline ⋅ Lit (js "\n") ⋅
   Group 1 (Star true any_char) ⋅ Lit (js "\n=======\n") ⋅
   Group 2 (Star true any_char) ⋅ Lit (js "\n>>>>>>>") ⋅
   Star false not_newline)%re.

(** [content.substring(0, match.index) + resolvedCode +
     content.substring(match.index + fullConflictBlock.length)] *)
Definition splice (content : list N) (m : Match) (resolvedCode : list N) : list N :=
  take (index m) content ++ resolvedCode
    ++ drop (index m + length (capture m 0)) content.

(** *** Values exchanged with the service *)

(** What [JSON.parse] returns, plus [undefined] for absent properties. *)
Inductive value :=
| VUndefined
| VNull
| VBool (b : bool)
| VNumber (q : Q)
| VString (s : list N)
| VArray (items : list value)
| VObject (fields : list (list N * value)).

(** Own property of an object built by [JSON.parse]: the last binding of a
    duplicated key wins. *)
Fixpoint own_property (fields : list (list N * value)) (key : list N) : value :=
  match fields with
  | [] => VUndefined
  | (k, v) :: rest =>
      match own_property rest key with
      | VUndefined => if decide (k = key) then v else VUndefined
      | later => later
      end
  end.

(** Property read [v[key]] for the keys the script uses ([candidates],
    [content], [parts], [text] and the index [0]), none of which is found on
    a prototype.  [None] is the [TypeError] raised on [undefined] and
    [null]. *)
Definition member (v : value) (key : list N) : option value :=
  match v with
  | VUndefined | VNull => None
  | VBool _ | VNumber _ => Some VUndefined
  | VString s =>
      Some (if decide (key = js "0")
            then match s with c :: _ => VString [c] | [] => VUndefined end
            else VUndefined)
  | VArray items =>
      Some (if decide (key = js "0") then default VUndefined (items !! 0)
            else VUndefined)
  | VObject fields => Some (own_property fields key)
  end.

(** White space and line terminators stripped by [String.prototype.trim]. *)
Definition is_space (c : N) : bool :=
  bool_decide (c ∈ [9; 10; 11; 12; 13; 32; 160; 5760; 8232; 8233; 8239;
                    8287; 12288; 65279]%N)
  || (N.leb 8192 c && N.leb c 8202).

Fixpoint trim_start (s : list N) : list N :=
  match s with
  | c :: s' => if is_space c then trim_start s' else s
  | [] => []
  end.

Definition trim (s : list N) : list N :=
  reverse (trim_start (reverse (trim_start s))).

Arguments is_space : simpl never.

(** [v.trim()]: only a string has the method; on [undefined] and [null] the
    property read throws, on anything else the call of a non-function
    throws. *)
Definition call_trim (v : value) : option (list N) :=
  match v with
  | VString s => Some (trim s)
  | _ => None
  end.

(** [response.candidates[0].content.parts[0].text]; [None] when a step
    throws. *)
Definition text_field (response : value) : option value :=
  c ← member response (js "candidates");
  c0 ← member c (js "0");
  ct ← member c0 (js "content");
  ps ← member ct (js "parts");
  p0 ← member ps (js "0");
  member p0 (js "text").

(** [response.candidates[0].content.parts[0].text.trim()] *)
Definition extract_text (response : value) : option (list N) :=
  t ← text_field response;
  call_trim t.

(** *** The world *)

Inductive node :=
| File (content : list N)
| Dir.

(** What the service does with a request.  A response that breaks off
    after its head gives neither event: the promise of the request is
    never settled. *)
Inductive http_outcome :=
| TransportError (msg : list N)                 (* the ['error'] event *)
| Response (statusCode : Z) (data : list N)     (* the ['end'] event *)
| Unsettled.                                    (* neither event *)

(** What [fs.writeFile] does: the whole text is stored, or the call fails
    and the path holds what the system left there ([None]: the path is as
    it was). *)
Inductive write_outcome :=
| Written
| WriteFailed (remains : option (list N)).

Inductive error :=
| ErrTransport (msg : list N)
| ErrStatus (statusCode : Z) (data : list N)
    (* [API request failed with status ...] *)
| ErrExtract
    (* [Could not extract resolved code from Gemini's response.] *)
| ErrSyntax (data : list N)                     (* thrown by [JSON.parse] *)
| ErrNoEnt (path : list N)
| ErrIsDir (path : list N)
| ErrWrite (path : list N)
| ErrCommand (command : list N).

Inductive event :=
| EvStat (path : list N)
| EvRead (path : list N)
| EvWrite (path content : list N)
| EvRequest (payload : value)
| EvDelay (ms : Z)
| EvExec (command : list N)
| EvWarnSubmodule (path : list N).

Record World := {
  files : gmap (list N) node;
  requests : nat;               (* HTTP requests sent so far *)
  trace : list event            (* collaborator calls, oldest first *)
}.

(** What the script cannot decide by itself. *)
Record Env := {
  https_request : nat → value → http_outcome;   (* answer to the n-th request *)
  JSON_parse : list N → option value;           (* [None]: [SyntaxError] *)
  execSync : list N → option (list N);          (* [None]: non-zero exit *)
  fs_writeFile : list event → list N → list N → write_outcome
    (* the calls so far, the path, the text *)
}.

(** A computation returns, throws an exception a [try] can catch, raises
    one outside every promise chain, which ends the process, or awaits a
    promise that is never settled: nothing is left to run then, and the
    process ends with status 0. *)
Inductive outcome (A : Type) :=
| Return (a : A)
| Throw (e : error)
| Fatal (e : error)
| Pending.
Arguments Return {A} a.
Arguments Throw {A} e.
Arguments Fatal {A} e.
Arguments Pending {A}.

Definition M (A : Type) : Type := World → outcome A * World.

#[global] Instance M_ret : MRet M := λ A a w, (Return a, w).
#[global] Instance M_bind : MBind M := λ A B f c w,
  match c w with
  | (Return a, w') => f a w'
  | (Throw e, w') => (Throw e, w')
  | (Fatal e, w') => (Fatal e, w')
  | (Pending, w') => (Pending, w')
  end.

Definition throw {A} (e : error) : M A := λ w, (Throw e, w).
Definition fatal {A} (e : error) : M A := λ w, (Fatal e, w).

Definition try_catch {A} (c : M A) (handler : error → M A) : M A := λ w,
  match c w with
  | (Throw e, w') => handler e w'
  | r => r
  end.

Definition log (e : event) (w : World) : World :=
  {| files := files w; requests := requests w; trace := trace w ++ [e] |}.

Definition emit (e : event) : M () := λ w, (Return (), log e w).

(** [fs.stat(path)] followed by [stats.isDirectory()]. *)
Definition stat_isDirectory (path : list N) : M bool :=
  emit (EvStat path);;
  ((λ w, match files w !! path with
         | None => (Throw (ErrNoEnt path), w)
         | Some Dir => (Return true, w)
         | Some (File _) => (Return false, w)
         end) : M bool).

Definition readFile (path : list N) : M (list N) :=
  emit (EvRead path);;
  ((λ w, match files w !! path with
         | None => (Throw (ErrNoEnt path), w)
         | Some Dir => (Throw (ErrIsDir path), w)
         | Some (File content) => (Return content, w)
         end) : M (list N)).

(** A plain file is held as the text that [fs.readFile(path, 'utf-8')]
    returns for it.  Written as UTF-8, a surrogate without its partner
    becomes U+FFFD: the file then reads as [toWellFormed] of the text. *)
Definition is_lead (c : N) : bool := N.leb 55296 c && N.leb c 56319.
Definition is_trail (c : N) : bool := N.leb 56320 c && N.leb c 57343.

Fixpoint toWellFormed (s : list N) : list N :=
  match s with
  | [] => []
  | c :: s' =>
      if is_lead c then
        match s' with
        | d :: s'' =>
            if is_trail d then c :: d :: toWellFormed s''
            else 65533%N :: toWellFormed s'
        | [] => [65533%N]
        end
      else if is_trail c then 65533%N :: toWellFormed s'
      else c :: toWellFormed s'
  end.

Definition set_file (path content : list N) (w : World) : World :=
  {| files := <[path := File content]> (files w);
     requests := requests w; trace := trace w |}.

(** [setTimeout] awaited. *)
Definition sleep (ms : Z) : M () := emit (EvDelay ms).

Section Script.
Variable env : Env.

(** [fs.writeFile(path, content, 'utf-8')] *)
Definition writeFile (path content : list N) : M () :=
  emit (EvWrite path content);;
  ((λ w, match files w !! path with
         | Some Dir => (Throw (ErrIsDir path), w)
         | _ =>
             match fs_writeFile env (trace w) path content with
             | Written => (Return (), set_file path (toWellFormed content) w)
             | WriteFailed (Some remains) =>
                 (Throw (ErrWrite path), set_file path remains w)
             | WriteFailed None => (Throw (ErrWrite path), w)
             end
         end) : M ()).

(** The files of the world are the working tree as the [fs] calls of the
    script see it; a command gives its output or fails, and what it does
    to the repository is outside the world. *)
Definition runCommand (command : list N) : M (list N) :=
  emit (EvExec command);;
  match execSync env command with
  | Some out => mret (trim out)
  | None => throw (ErrCommand command)
  end.

(** One [https.request]: the promise resolves with the parsed body on a
    2xx status, rejects otherwise; a body that does not parse throws from
    the ['end'] listener, outside the promise. *)
Definition https_post (payload : value) : M value := λ w,
  let w' := {| files := files w; requests := S (requests w);
               trace := trace w ++ [EvRequest payload] |} in
  match https_request env (requests w) payload with
  | TransportError msg => (Throw (ErrTransport msg), w')
  | Response statusCode data =>
      if decide (200 ≤ statusCode ∧ statusCode < 300)%Z then
        match JSON_parse env data with
        | Some v => (Return v, w')
        | None => (Fatal (ErrSyntax data), w')
        end
      else (Throw (ErrStatus statusCode data), w')
  | Unsettled => (Pending, w')
  end.

(** The [for] loop of [callGeminiAPI], [left = MAX_RETRIES - i]. *)
Fixpoint callGeminiAPI_loop (left i : nat) (payload : value) : M value :=
  match left with
  | 0 => mret VUndefined
  | S left' =>
      try_catch (https_post payload)
        (λ error,
           if decide (i = MAX_RETRIES - 1) then throw error
           else sleep (1000 * 2 ^ Z.of_nat i);;
                callGeminiAPI_loop left' (S i) payload)
  end.

Definition callGeminiAPI (payload : value) : M value :=
  callGeminiAPI_loop MAX_RETRIES 0 payload.

Definition prompt (ourCode theirCode filePath : list N) : list N :=
  js "\nYou are an expert software developer specializing in resolving Git conflicts.\nAnalyze the two conflicting code blocks below from the file "
  ++ [DQUOTE] ++ filePath ++ [DQUOTE]
  ++ js " and provide a clean, resolved version that logically merges the changes.\n\n- IMPORTANT: Do NOT include the git conflict markers (<<<<<<<, =======, >>>>>>>) in your response.\n- Only output the final, resolved code block. Do not add explanations, apologies, or any other text. Just the code.\n\n--- INCOMING CHANGE ---\n"
  ++ theirCode
  ++ js "\n---\n\n--- CURRENT CHANGE ---\n"
  ++ ourCode
  ++ js "\n---\n\n--- RESOLVED CODE ---\n".

Definition request_payload (text : list N) : value :=
  VObject
    [(js "contents", VArray [VObject [(js "parts",
        VArray [VObject [(js "text", VString text)]])]]);
     (js "generationConfig", VObject
        [(js "temperature", VNumber (2 # 10));
         (js "maxOutputTokens", VNumber (2048 # 1))])].

Definition getGeminiResolution (ourCode theirCode filePath : list N)
    : M (list N) :=
  response ← callGeminiAPI (request_payload (prompt ourCode theirCode filePath));
  match extract_text response with
  | Some resolved => mret resolved
  | None => throw ErrExtract
  end.

(** The [for (const match of matches.reverse())] loop, [matches] already
    reversed. *)
Fixpoint resolve_loop (filePath : list N) (matches : list Match)
    (content : list N) : M (list N) :=
  match matches with
  | [] => mret content
  | m :: rest =>
      resolvedCode ← getGeminiResolution (capture m 1) (capture m 2) filePath;
      resolve_loop filePath rest (splice content m resolvedCode)
  end.

Definition resolveConflictsInFile (filePath : list N) : M () :=
  content ← readFile filePath;
  let matches := matchAll conflictRegex content in
  if decide (length matches = 0) then mret ()
  else
    content' ← resolve_loop filePath (reverse matches) content;
    writeFile filePath content'.

(** The [for (const file of conflictedFiles)] loop inside [try]; returns
    the final [unresolvedSubmodules]. *)
Fixpoint main_loop (conflictedFiles : list (list N))
    (unresolvedSubmodules : bool) : M bool :=
  match conflictedFiles with
  | [] => mret unresolvedSubmodules
  | file :: rest =>
      isDirectory ← stat_isDirectory file;
      if isDirectory : bool then
        emit (EvWarnSubmodule file);;
        main_loop rest true
      else
        resolveConflictsInFile file;;
        runCommand (js "git add " ++ file);;
        main_loop rest unresolvedSubmodules
  end.

(** The status the process ends with. *)
Inductive exit_signal := ExitSuccess | ExitFailure.

(** [main] from the point where [conflictedFiles] is known and not
    empty. *)
Definition run (conflictedFiles : list (list N)) (w : World)
    : exit_signal * World :=
  match main_loop conflictedFiles false w with
  | (Return false, w') => (ExitSuccess, w')
  | (Return true, w') => (ExitFailure, w')    (* [process.exit(1)], line 204 *)
  | (Throw _, w') => (ExitFailure, w')        (* [catch]: [process.exit(1)] *)
  | (Fatal _, w') => (ExitFailure, w')
  | (Pending, w') => (ExitSuccess, w')        (* nothing left to run *)
  end.

(** [s.split('\n')] *)
Fixpoint split_lines (s : list N) : list (list N) :=
  match s with
  | [] => [[]]
  | c :: s' =>
      match split_lines s' with
      | l :: ls => if N.eqb c NL then [] :: l :: ls else (c :: l) :: ls
      | [] => [[c]]
      end
  end.

(** [GEMINI_API_KEY] is [None] when the variable is unset.  A failing
    [git diff] rejects the promise of [main] with nothing to handle it,
    which ends the process with a failure status. *)
Definition main (GEMINI_API_KEY : option (list N)) (w : World)
    : exit_signal * World :=
  match GEMINI_API_KEY with
  | None | Some [] => (ExitFailure, w)
  | Some _ =>
      match runCommand (js "git diff --name-only --diff-filter=U") w with
      | (Return out, w') =>
          let conflictedFiles :=
            filter (λ l, l ≠ []) (split_lines out) in
          if decide (length conflictedFiles = 0) then (ExitSuccess, w')
          else run conflictedFiles w'
      | (_, w') => (ExitFailure, w')
      end
  end.

End Script.

(** ** Scenario data *)

Definition scenario_text : list N :=
  js "a\n<<<<<<< HEAD\nfoo\n=======\nbar\n>>>>>>> branch\nb\n".

(** A well-formed answer of the service carrying [text]. *)
Definition answer (text : list N) : value :=
  VObject [(js "candidates", VArray [VObject [(js "content",
    VObject [(js "parts", VArray [VObject [(js "text", VString text)]])])]])].

(** The delays a trace contains, oldest first. *)
Definition delays_of (t : list event) : list Z :=
  omap (λ e, match e with EvDelay ms => Some ms | _ => None end) t.

(** Events of the resolver client only. *)
Definition net_event (e : event) : bool :=
  match e with
  | EvRequest _ | EvDelay _ => true
  | _ => false
  end.

(** The error a response makes the request promise reject with. *)
Definition rejection (o : http_outcome) : option error :=
  match o with
  | TransportError msg => Some (ErrTransport msg)
  | Response statusCode data =>
      if decide (200 ≤ statusCode ∧ statusCode < 300)%Z then None
      else Some (ErrStatus statusCode data)
  | Unsettled => None
  end.

(** The failure kind [NETWORK]: a transport error or a non-2xx status. *)
Definition is_network (e : error) : bool :=
  match e with
  | ErrTransport _ | ErrStatus _ _ => true
  | _ => false
  end.

(** The failure kind [MALFORMED_RESPONSE]. *)
Definition is_malformed_response (e : error) : bool :=
  match e with
  | ErrExtract => true
  | _ => false
  end.

(** ** Definitions for the statements and the proofs *)

(** [w'] differs from [w] by requests and delays only. *)
Definition net_only (w w' : World) : Prop :=
  files w' = files w
  ∧ ∃ t, trace w' = trace w ++ t ∧ Forall (λ ev, net_event ev = true) t.

(** The result of the loop of [main] when the flag was set before. *)
Definition raise_flag (r : outcome bool * World) : outcome bool * World :=
  match r with
  | (Return _, w) => (Return true, w)
  | r => r
  end.

Definition dirs_kept (w w' : World) : Prop :=
  ∀ d, files w !! d = Some Dir → files w' !! d = Some Dir.

Definition OPEN : list N := js "<<<<<<<".
Definition SEP : list N := js "\n=======\n".
Definition CLOSE : list N := js "\n>>>>>>>".

Arguments OPEN : simpl never.
Arguments SEP : simpl never.
Arguments CLOSE : simpl never.

(** First occurrence of [pat] in [s]: what precedes it and what follows. *)
Fixpoint split_at (pat s : list N) : option (list N * list N) :=
  match lit_m pat s with
  | Some rest => Some ([], rest)
  | None =>
      match s with
      | [] => None
      | c :: s' => prod_map (cons c) id <$> split_at pat s'
      end
  end.

(** The rest of the current line, and the input from its line feed on. *)
Fixpoint line_rest (s : list N) : list N * list N :=
  match s with
  | c :: s' =>
      if not_newline c then prod_map (cons c) id (line_rest s') else ([], s)
  | [] => ([], [])
  end.

(** A conflict block read from the head of the input: the two labels, the
    two variants and the input left after the block. *)
Record Conflict := {
  c_label : list N;
  c_ours : list N;
  c_theirs : list N;
  c_label2 : list N;
  c_rest : list N
}.

(** The text of the block. *)
Definition c_block (c : Conflict) : list N :=
  OPEN ++ c_label c ++ [NL] ++ c_ours c ++ SEP ++ c_theirs c ++ CLOSE
    ++ c_label2 c.

(** The pattern read from left to right without backtracking. *)
Definition find_conflict (s : list N) : option Conflict :=
  s1 ← lit_m OPEN s;
  s3 ← lit_m [NL] (line_rest s1).2;
  os ← split_at SEP s3;
  ts ← split_at CLOSE os.2;
  Some {| c_label := (line_rest s1).1; c_ours := os.1; c_theirs := ts.1;
          c_label2 := (line_rest ts.2).1; c_rest := (line_rest ts.2).2 |}.

(** The array of captures of a match of the pattern at the head of [s]. *)
Definition conflict_captures (s : list N) (c : Conflict)
    : list (option (list N)) :=
  [Some (take (length s - length (c_rest c)) s); Some (c_ours c);
   Some (c_theirs c)].

Ltac osimpl :=
  cbn [mbind option_bind fmap option_fmap option_map mret option_ret fst snd
       c_rest c_ours c_theirs c_label c_label2].

(** [Scan s off ms]: [ms] are the successive matches found in the input
    [s], which starts at index [off] of the whole text. *)
Inductive Scan : list N → nat → list Match → Prop :=
| Scan_nil s off :
    (∀ j, find_conflict (drop j s) = None) → Scan s off []
| Scan_cons s off k c ms :
    (∀ j, j < k → find_conflict (drop j s) = None) →
    find_conflict (drop k s) = Some c →
    Scan (c_rest c) (off + k + length (c_block c)) ms →
    Scan s off
      ({| index := off + k;
          captures := [Some (c_block c); Some (c_ours c); Some (c_theirs c)] |}
       :: ms).

Definition LESS : N := 60%N.

(** [content] with the [len] code units at index [p] replaced by [r]. *)
Definition splice_at (content : list N) (p len : nat) (r : list N) : list N :=
  take p content ++ r ++ drop (p + len) content.

(** A resolved text that holds no ours marker. *)
Definition inert (r : list N) : Prop :=
  split_at OPEN r = None.

(** The loop of [resolveConflictsInFile] with the resolved texts given:
    [matches] are the regions in processing order, [resolved] the text for
    each. *)
Fixpoint splice_all (matches : list Match) (resolved : list (list N))
    (content : list N) : list N :=
  match matches, resolved with
  | m :: matches', r :: resolved' =>
      splice_all matches' resolved' (splice content m r)
  | _, _ => content
  end.

(** What the script writes back for [content] when the resolver answers
    [resolved], the text for the last region first. *)
Definition resolve_descending (content : list N) (resolved : list (list N))
    : list N :=
  splice_all (reverse (matchAll conflictRegex content)) resolved content.

(** The oracle of the specification: after every single splice the buffer
    is parsed again and the region that is now the last one is spliced. *)
Fixpoint reparse_oracle (resolved : list (list N)) (buffer : list N) : list N :=
  match resolved with
  | [] => buffer
  | r :: resolved' =>
      match last (matchAll conflictRegex buffer) with
      | Some m => reparse_oracle resolved' (splice buffer m r)
      | None => buffer
      end
  end.

(** The text contains the pattern somewhere. *)
Definition has_triple (text : list N) : Prop :=
  ∃ pre label ours theirs post,
    (NL ∉ label)
    ∧ text = pre ++ OPEN ++ label ++ [NL] ++ ours ++ SEP ++ theirs ++ CLOSE ++ post.

(** A conflict-marker triple, in the words of the specification: a line
    that starts with the ours marker, later a line that is the separator,
    later a line that starts with the theirs marker. *)
Definition marker_triple (text : list N) : Prop :=
  ∃ i j k l1 l3,
    i < j ∧ j < k
    ∧ split_lines text !! i = Some l1 ∧ js "<<<<<<<" `prefix_of` l1
    ∧ split_lines text !! j = Some (js "=======")
    ∧ split_lines text !! k = Some l3 ∧ js ">>>>>>>" `prefix_of` l3.

(** The ours marker occurs at the start of lines only. *)
Definition markers_at_line_start (text : list N) : Prop :=
  ∀ l a b, l ∈ split_lines text → l = a ++ js "<<<<<<<" ++ b →
           js "<<<<<<<" `prefix_of` l.

(** A block that was cut before its theirs marker. *)
Definition truncated_text : list N :=
  js "<<<<<<< HEAD\nfoo\n=======\nbar\n".

(** The body of a well-formed answer, as sent on the wire. *)
Definition json_answer (text : list N) : list N :=
  js "{" ++ [DQUOTE] ++ js "candidates" ++ [DQUOTE] ++ js ":[{"
  ++ [DQUOTE] ++ js "content" ++ [DQUOTE] ++ js ":{"
  ++ [DQUOTE] ++ js "parts" ++ [DQUOTE] ++ js ":[{"
  ++ [DQUOTE] ++ js "text" ++ [DQUOTE] ++ js ":"
  ++ [DQUOTE] ++ text ++ [DQUOTE] ++ js "}]}}]}".

(** [JSON.parse] on the bodies the scenarios use. *)
Definition parse_demo (data : list N) : option value :=
  if decide (data = json_answer (js "baz")) then Some (answer (js "baz"))
  else if decide (data = js "{}") then Some (VObject [])
  else None.

(** The service answers every request with the text [baz]. *)
Definition env_ok : Env :=
  {| https_request := λ _ _, Response 200 (json_answer (js "baz"));
     JSON_parse := parse_demo;
     execSync := λ _, Some [];
     fs_writeFile := λ _ _ _, Written |}.

(** The service is busy twice, then answers. *)
Definition env_retry : Env :=
  {| https_request := λ n _,
       if decide (n < 2) then Response 503 (js "busy")
       else Response 200 (json_answer (js "baz"));
     JSON_parse := parse_demo;
     execSync := λ _, Some [];
     fs_writeFile := λ _ _ _, Written |}.

(** The service is always busy. *)
Definition env_down : Env :=
  {| https_request := λ _ _, Response 503 (js "busy");
     JSON_parse := parse_demo;
     execSync := λ _, Some [];
     fs_writeFile := λ _ _ _, Written |}.

(** No request is ever answered. *)
Definition env_stalled : Env :=
  {| https_request := λ _ _, Unsettled;
     JSON_parse := parse_demo;
     execSync := λ _, Some [];
     fs_writeFile := λ _ _ _, Written |}.

(** The answer is a surrogate without its partner. *)
Definition env_surrogate : Env :=
  {| https_request := λ _ _, Response 200 (json_answer [55357%N]);
     JSON_parse := λ data,
       if decide (data = json_answer [55357%N]) then Some (answer [55357%N])
       else None;
     execSync := λ _, Some [];
     fs_writeFile := λ _ _ _, Written |}.

(** The file system refuses every write and leaves the files alone. *)
Definition env_readonly : Env :=
  {| https_request := λ _ _, Response 200 (json_answer (js "baz"));
     JSON_parse := parse_demo;
     execSync := λ _, Some [];
     fs_writeFile := λ _ _ _, WriteFailed None |}.

(** The first answer is well formed, the following ones are not. *)
Definition env_partial : Env :=
  {| https_request := λ n _,
       if decide (n = 0) then Response 200 (json_answer (js "baz"))
       else Response 200 (js "{}");
     JSON_parse := parse_demo;
     execSync := λ _, Some [];
     fs_writeFile := λ _ _ _, Written |}.

Definition two_regions : list N :=
  js "<<<<<<< A\none\n=======\nuno\n>>>>>>> B\nmid\n<<<<<<< A\ntwo\n=======\ndos\n>>>>>>> B\n".

(** The [i]-th region of [content]. *)
Definition region (content : list N) (i : nat) : Match :=
  default {| index := 0; captures := [] |} (matchAll conflictRegex content !! i).

Definition world_of (fs : gmap (list N) node) : World :=
  {| files := fs; requests := 0; trace := [] |}.

Definition demo_files : gmap (list N) node :=
  {[ js "file.txt" := File scenario_text;
     js "two.txt" := File two_regions;
     js "plain.txt" := File (js "hello\n");
     js "dirA" := Dir ]}.

(** A block as the version-control tool writes it: a marker line with a
    label, the lines of ours, the separator line, the lines of theirs, a
    marker line with a label. *)
Definition marker_block (label : list N) (ours theirs : list (list N))
    (label2 : list N) : list N :=
  js "<<<<<<<" ++ label ++ [NL]
  ++ concat ((λ l, l ++ [NL]) <$> ours)
  ++ js "=======" ++ [NL]
  ++ concat ((λ l, l ++ [NL]) <$> theirs)
  ++ js ">>>>>>>" ++ label2 ++ [NL].

(** ** Definitions for the further properties *)

(** The lines [ps] joined by line feeds, as [git diff --name-only] prints
    them before the final line feed. *)
Fixpoint join_lines (ps : list (list N)) : list N :=
  match ps with
  | [] => []
  | [p] => p
  | p :: ps' => p ++ NL :: join_lines ps'
  end.

(** The world after [k] rejected attempts, the first of them with loop
    index [i]: every attempt sent a request and was followed by its
    delay. *)
Fixpoint after_rejections (payload : value) (i k : nat) (w : World) : World :=
  match k with
  | 0 => w
  | S k' =>
      after_rejections payload (S i) k'
        (log (EvDelay (1000 * 2 ^ Z.of_nat i))
           {| files := files w; requests := S (requests w);
              trace := trace w ++ [EvRequest payload] |})
  end.

(** The requests of a trace. *)
Definition requests_of (t : list event) : list value :=
  omap (λ e, match e with EvRequest p => Some p | _ => None end) t.

(** [s], the text from index [off] on, with each region of [ms] (in
    ascending order) replaced by the text of [rs] at the same place,
    reading from left to right. *)
Fixpoint substitute (off : nat) (ms : list Match) (rs : list (list N))
    (s : list N) : list N :=
  match ms, rs with
  | m :: ms', r :: rs' =>
      take (index m - off) s ++ r
      ++ substitute (index m + length (capture m 0)) ms' rs'
           (drop (index m - off + length (capture m 0)) s)
  | _, _ => s
  end.

(** [splice_all] on the text from index [off] on. *)
Fixpoint splice_all_from (off : nat) (ms : list Match) (rs : list (list N))
    (s : list N) : list N :=
  match ms, rs with
  | m :: ms', r :: rs' =>
      splice_all_from off ms' rs'
        (splice_at s (index m - off) (length (capture m 0)) r)
  | _, _ => s
  end.

Definition is_dir (w : World) (path : list N) : bool :=
  match files w !! path with
  | Some Dir => true
  | _ => false
  end.

Definition is_plain (w : World) (path : list N) : bool :=
  match files w !! path with
  | Some (File _) => true
  | _ => false
  end.

(** Commands run and warnings given in a trace, oldest first. *)
Definition execs_of (t : list event) : list (list N) :=
  omap (λ e, match e with EvExec c => Some c | _ => None end) t.

Definition warnings_of (t : list event) : list (list N) :=
  omap (λ e, match e with EvWarnSubmodule p => Some p | _ => None end) t.

(** Every path is of the same kind in both worlds: missing, directory or
    plain file. *)
Definition same_kinds (w w' : World) : Prop :=
  ∀ p, is_dir w' p = is_dir w p ∧ is_plain w' p = is_plain w p.

(** [git diff] lists two paths. *)
Definition env_listing : Env :=
  {| https_request := λ _ _, Response 200 (json_answer (js "baz"));
     JSON_parse := parse_demo;
     execSync := λ c,
       if decide (c = js "git diff --name-only --diff-filter=U")
       then Some (js "file.txt\nplain.txt\n") else Some [];
     fs_writeFile := λ _ _ _, Written |}.

(** The service answers with a page that is no JSON. *)
Definition env_garbled : Env :=
  {| https_request := λ _ _, Response 200 (js "<html>");
     JSON_parse := parse_demo;
     execSync := λ _, Some [];
     fs_writeFile := λ _ _ _, Written |}.

(** The service answers with a blank text. *)
Definition env_blank : Env :=
  {| https_request := λ _ _, Response 200 (json_answer (js "  "));
     JSON_parse := λ data,
       if decide (data = json_answer (js "  ")) then Some (answer (js "  "))
       else None;
     execSync := λ _, Some [];
     fs_writeFile := λ _ _ _, Written |}.

(** ** [cgroup::switch_cgroup] (src/manager/src/main/jni/cgroup.cpp)

    A C string is the list of its bytes before the terminator.  The
    system calls are answered by a kernel that sees the calls made so far;
    every call and its result is recorded. *)
Module cgroup.

Inductive syscall :=
| SysAccess (path : list N) (ret : Z)
| SysOpen (path : list N) (ret : Z)
| SysWrite (fd : Z) (buf : list N) (ret : Z)
| SysClose (fd : Z).

Record Kernel := {
  sys_access : list syscall → list N → Z;
  sys_open : list syscall → list N → Z;
  sys_write : list syscall → Z → list N → Z;
}.

(** [snprintf(dst, size, ...)] keeps the first [size - 1] bytes of the
    formatted text. *)
Definition snprintf (size : nat) (text : list N) : list N :=
  take (size - 1) text.

(** The decimal digits of a number that is not negative, most significant
    first; ten digits are enough for an [int]. *)
Fixpoint digits (fuel : nat) (n : Z) : list N :=
  match fuel with
  | 0 => []
  | S fuel' =>
      if (n <? 10)%Z then [Z.to_N (48 + n)]
      else digits fuel' (n / 10) ++ [Z.to_N (48 + n mod 10)]
  end.

(** The conversion [%d]. *)
Definition format_d (n : Z) : list N :=
  if (n <? 0)%Z then 45%N :: digits 10 (- n) else digits 10 n.

(** Lines 17 to 26: open, write, close. *)
Definition write_procs (k : Kernel) (path buf : list N) (t : list syscall)
    : bool * list syscall :=
  let fd := sys_open k t path in
  let t := t ++ [SysOpen path fd] in
  if (fd <? 0)%Z then (false, t)
  else
    let r := sys_write k t fd buf in
    let t := t ++ [SysWrite fd buf r] in
    if (r =? -1)%Z then (false, t ++ [SysClose fd])
    else (true, t ++ [SysClose fd]).

Definition switch_cgroup (k : Kernel) (cgroup : list N) (pid : Z)
    (t : list syscall) : bool * list syscall :=
  let buf := snprintf 8 (format_d pid ++ js "\n") in
  let path := snprintf 1024 (cgroup ++ js "/uid_0/cgroup.procs") in
  let r := sys_access k t path in
  let t := t ++ [SysAccess path r] in
  if negb (r =? 0)%Z then
    let r := sys_access k t path in
    let t := t ++ [SysAccess path r] in
    if negb (r =? 0)%Z then
      (* path := snprintf 1024 (cgroup ++ js "/cgroup.procs"), not used *)
      (false, t)
    else write_procs k path buf t
  else write_procs k path buf t.

(** The calls that one run adds to the record. *)
Definition calls (k : Kernel) (cgroup : list N) (pid : Z)
    (t : list syscall) : list syscall :=
  drop (length t) (switch_cgroup k cgroup pid t).2.

(** The descriptors that [open] gave, the descriptors closed, the
    descriptors written to, the paths named and the buffers written. *)
Definition opened (t : list syscall) : list Z :=
  omap (λ e, match e with
             | SysOpen _ fd => if (fd <? 0)%Z then None else Some fd
             | _ => None
             end) t.

Definition closed (t : list syscall) : list Z :=
  omap (λ e, match e with SysClose fd => Some fd | _ => None end) t.

Definition written (t : list syscall) : list (Z * list N * Z) :=
  omap (λ e, match e with
             | SysWrite fd buf r => Some (fd, buf, r)
             | _ => None
             end) t.

Definition paths (t : list syscall) : list (list N) :=
  omap (λ e, match e with
             | SysAccess p _ | SysOpen p _ => Some p
             | _ => None
             end) t.

Definition is_digit (c : N) : Prop := (48 ≤ c < 58)%N.

(** The number a string of decimal digits denotes. *)
Definition decimal_value (s : list N) : Z :=
  foldl (λ acc c, 10 * acc + (Z.of_N c - 48))%Z 0%Z s.

(** A kernel in which the file exists and every call succeeds, one in
    which the file appears between the two checks, and one without it. *)
Definition kernel_ok : Kernel :=
  {| sys_access := λ _ _, 0%Z; sys_open := λ _ _, 5%Z;
     sys_write := λ _ _ buf, Z.of_nat (length buf) |}.

Definition kernel_late : Kernel :=
  {| sys_access := λ t _, match t with [] => (-1)%Z | _ => 0%Z end;
     sys_open := λ _ _, 5%Z;
     sys_write := λ _ _ _, (-1)%Z |}.

End cgroup.

(** ** The monad *)

Lemma bind_run {A B} (c : M A) (f : A → M B) (w : World) :
  (c ≫= f) w =
  match c w with
  | (Return a, w') => f a w'
  | (Throw e, w') => (Throw e, w')
  | (Fatal e, w') => (Fatal e, w')
  | (Pending, w') => (Pending, w')
  end.
Proof. reflexivity. Qed.

Lemma bind_return {A B} (c : M A) (f : A → M B) w a w' :
  c w = (Return a, w') → (c ≫= f) w = f a w'.
Proof. intros H. by rewrite bind_run, H. Qed.

Lemma bind_throw {A B} (c : M A) (f : A → M B) w e w' :
  c w = (Throw e, w') → (c ≫= f) w = (Throw e, w').
Proof. intros H. by rewrite bind_run, H. Qed.

Lemma bind_fatal {A B} (c : M A) (f : A → M B) w e w' :
  c w = (Fatal e, w') → (c ≫= f) w = (Fatal e, w').
Proof. intros H. by rewrite bind_run, H. Qed.

(** ** Retry and backoff *)

Section Client.
Variable env : Env.

Lemma https_post_reject payload w e :
  rejection (https_request env (requests w) payload) = Some e →
  https_post env payload w =
    (Throw e, {| files := files w; requests := S (requests w);
                 trace := trace w ++ [EvRequest payload] |}).
Proof.
  unfold https_post, rejection.
  destruct (https_request env (requests w) payload) as [msg|sc data|].
  - by intros [= <-].
  - case_decide; [done|]. by intros [= <-].
  - done.
Qed.

Lemma https_post_resolve payload w sc data v :
  https_request env (requests w) payload = Response sc data →
  (200 ≤ sc ∧ sc < 300)%Z →
  JSON_parse env data = Some v →
  https_post env payload w =
    (Return v, {| files := files w; requests := S (requests w);
                  trace := trace w ++ [EvRequest payload] |}).
Proof.
  intros Ho Hsc Hp. unfold https_post. rewrite Ho.
  case_decide; [|done]. by rewrite Hp.
Qed.

Lemma rejection_is_network o e : rejection o = Some e → is_network e = true.
Proof.
  destruct o as [msg|sc data|]; simpl.
  - by intros [= <-].
  - case_decide; [done|]. by intros [= <-].
  - done.
Qed.

End Client.

Section Retry.
Variable env : Env.

Lemma try_catch_throw {A} (c : M A) h w e w' :
  c w = (Throw e, w') → try_catch c h w = h e w'.
Proof. intros H. unfold try_catch. by rewrite H. Qed.

Lemma try_catch_return {A} (c : M A) h w a w' :
  c w = (Return a, w') → try_catch c h w = (Return a, w').
Proof. intros H. unfold try_catch. by rewrite H. Qed.

Lemma callGeminiAPI_loop_requests left i payload w :
  requests (callGeminiAPI_loop env left i payload w).2 ≤ requests w + left.
Proof.
  revert i w. induction left as [|left IH]; intros i w; simpl; [lia|].
  unfold try_catch, https_post.
  destruct (https_request env (requests w) payload) as [msg|sc data|].
  - case_decide; simpl; [lia|].
    rewrite bind_run. unfold sleep, emit, log; simpl.
    etrans; [apply IH|]. simpl. lia.
  - case_decide.
    + destruct (JSON_parse env data); simpl; lia.
    + case_decide; simpl; [lia|].
      rewrite bind_run. unfold sleep, emit, log; simpl.
      etrans; [apply IH|]. simpl. lia.
  - simpl. lia.
Qed.

(** C3. A call sends at most [MAX_RETRIES] = 3 requests.  After two
    rejected attempts, a third attempt that resolves is returned and a
    third attempt that is rejected is thrown as a network failure; either
    way exactly three requests were sent and exactly the two delays
    [1000 * 2^0] and [1000 * 2^1] milliseconds were waited, the second
    longer than the first. *)
Theorem callGeminiAPI_retry_law payload w :
  requests (callGeminiAPI env payload w).2 ≤ requests w + 3
  ∧ ∀ e1 e2,
    rejection (https_request env (requests w) payload) = Some e1 →
    rejection (https_request env (S (requests w)) payload) = Some e2 →
    let o3 := https_request env (S (S (requests w))) payload in
    let t3 := [EvRequest payload; EvDelay (1000 * 2 ^ 0); EvRequest payload;
               EvDelay (1000 * 2 ^ 1); EvRequest payload] in
    let w3 := {| files := files w; requests := 3 + requests w;
                 trace := trace w ++ t3 |} in
    (∀ sc data v,
       o3 = Response sc data → (200 ≤ sc ∧ sc < 300)%Z →
       JSON_parse env data = Some v →
       callGeminiAPI env payload w = (Return v, w3))
    ∧ (∀ e3,
         rejection o3 = Some e3 →
         callGeminiAPI env payload w = (Throw e3, w3) ∧ is_network e3 = true)
    ∧ delays_of t3 = [1000; 2000]%Z
    ∧ StronglySorted Z.lt (delays_of t3).
Proof.
  split; [apply callGeminiAPI_loop_requests|].
  intros e1 e2 H1 H2 o3 t3 w3.
  assert (Hpre : ∀ r,
    https_post env payload
      {| files := files w; requests := S (S (requests w));
         trace := (((trace w ++ [EvRequest payload]) ++ [EvDelay (1000 * 2 ^ 0)])
                   ++ [EvRequest payload]) ++ [EvDelay (1000 * 2 ^ 1)] |} = r →
    callGeminiAPI env payload w =
      match r with
      | (Throw e, w') => (Throw e, w')
      | r => r
      end).
  { intros r <-. unfold callGeminiAPI; simpl.
    erewrite try_catch_throw by (by apply https_post_reject).
    simpl. rewrite bind_run. unfold sleep, emit, log; simpl.
    erewrite try_catch_throw by (by apply https_post_reject).
    simpl. rewrite bind_run. unfold sleep, emit, log; simpl.
    unfold try_catch. by destruct (https_post _ _ _) as [[?|?|?|] ?]. }
  assert (Hw3 : w3 =
    {| files := files w; requests := S (S (S (requests w)));
       trace := ((((trace w ++ [EvRequest payload]) ++ [EvDelay (1000 * 2 ^ 0)])
                   ++ [EvRequest payload]) ++ [EvDelay (1000 * 2 ^ 1)])
                ++ [EvRequest payload] |}).
  { unfold w3, t3. f_equal. by rewrite <- !app_assoc. }
  split; [|split; [|split]].
  - intros sc data v Ho Hsc Hp. rewrite Hw3.
    erewrite Hpre; [|by eapply https_post_resolve]. done.
  - intros e3 He3. split; [|by eapply rejection_is_network].
    rewrite Hw3. erewrite Hpre; [|by eapply https_post_reject]. done.
  - reflexivity.
  - simpl. repeat constructor; lia.
Qed.

End Retry.

(** ** Trimming *)

Lemma trim_start_spec s :
  ∃ pre, s = pre ++ trim_start s
         ∧ Forall (λ c, is_space c = true) pre
         ∧ ∀ c, head (trim_start s) = Some c → is_space c = false.
Proof.
  induction s as [|c s (pre & Hs & Hpre & Hhd)]; simpl.
  - exists []. by split; [|split].
  - destruct (is_space c) eqn:Hc.
    + exists (c :: pre). split; [|split]; [by simpl; f_equal|by constructor|done].
    + exists []. split; [|split]; [done..|]. by intros c' [= <-].
Qed.

Lemma trim_spec s :
  ∃ pre post,
    s = pre ++ trim s ++ post
    ∧ Forall (λ c, is_space c = true) pre
    ∧ Forall (λ c, is_space c = true) post
    ∧ (∀ c, head (trim s) = Some c → is_space c = false)
    ∧ (∀ c, last (trim s) = Some c → is_space c = false).
Proof.
  unfold trim.
  destruct (trim_start_spec s) as (pre & Hs & Hpre & Hhd).
  destruct (trim_start_spec (reverse (trim_start s))) as (pre2 & Hr & Hpre2 & Hhd2).
  set (t2 := trim_start (reverse (trim_start s))) in *.
  assert (Ht1 : trim_start s = reverse t2 ++ reverse pre2).
  { rewrite <- reverse_app, <- Hr. by rewrite reverse_involutive. }
  exists pre, (reverse pre2). split; [|split; [|split; [|split]]].
  - by rewrite <- Ht1.
  - done.
  - by apply Forall_reverse.
  - intros c Hc. apply Hhd. rewrite Ht1.
    destruct (reverse t2); [done|]. done.
  - intros c Hc. apply Hhd2. by rewrite last_reverse in Hc.
Qed.

(** ** The resolver client *)

Section Resolution.
Variable env : Env.

Lemma callGeminiAPI_loop_return left i payload w v w' :
  i + left = MAX_RETRIES → 0 < left →
  callGeminiAPI_loop env left i payload w = (Return v, w') →
  ∃ k sc data,
    k < left
    ∧ https_request env (requests w + k) payload = Response sc data
    ∧ (200 ≤ sc ∧ sc < 300)%Z
    ∧ JSON_parse env data = Some v
    ∧ requests w' = requests w + k + 1
    ∧ files w' = files w.
Proof.
  revert i w. induction left as [|left IH]; intros i w Hi Hpos; [lia|].
  simpl. unfold try_catch at 1, https_post at 1.
  destruct (https_request env (requests w) payload) as [msg|sc data|] eqn:Ho.
  - case_decide as Hlast; [done|].
    rewrite bind_run. unfold sleep, emit, log; simpl. intros Hrec.
    apply IH in Hrec as (k & sc & data & Hk & Hreq & Hsc & Hp & Hn & Hf);
      [|lia|unfold MAX_RETRIES in *; lia].
    simpl in *. exists (S k), sc, data.
    repeat split; try done; try lia.
    by replace (requests w + S k) with (S (requests w + k)) by lia.
  - case_decide as Hsc.
    + destruct (JSON_parse env data) as [v0|] eqn:Hp; [|done].
      intros [= <- <-]. exists 0, sc, data. simpl.
      repeat split; try done; try lia. by rewrite Nat.add_0_r.
    + case_decide as Hlast; [done|].
      rewrite bind_run. unfold sleep, emit, log; simpl. intros Hrec.
      apply IH in Hrec as (k & sc' & data' & Hk & Hreq & Hsc' & Hp & Hn & Hf);
        [|lia|unfold MAX_RETRIES in *; lia].
      simpl in *. exists (S k), sc', data'.
      repeat split; try done; try lia.
      by replace (requests w + S k) with (S (requests w + k)) by lia.
  - done.
Qed.

(** When [callGeminiAPI] returns a response, it came from a request
    answered with a 2xx status, and that request is the last one sent:
    a response whose text field is not there makes [getGeminiResolution]
    throw the extraction error in the very world the call returned in;
    a response whose text field is the string [s] makes it return [s]
    without its leading and trailing white space. *)
Lemma getGeminiResolution_response ourCode theirCode filePath w response w' :
  callGeminiAPI env (request_payload (prompt ourCode theirCode filePath)) w
    = (Return response, w') →
  (∃ k sc data,
     k < MAX_RETRIES
     ∧ https_request env (requests w + k)
         (request_payload (prompt ourCode theirCode filePath)) = Response sc data
     ∧ (200 ≤ sc ∧ sc < 300)%Z
     ∧ JSON_parse env data = Some response
     ∧ requests w' = requests w + k + 1)
  ∧ ((∀ s, text_field response ≠ Some (VString s)) →
     getGeminiResolution env ourCode theirCode filePath w = (Throw ErrExtract, w')
     ∧ is_malformed_response ErrExtract = true)
  ∧ (∀ s, text_field response = Some (VString s) →
     getGeminiResolution env ourCode theirCode filePath w = (Return (trim s), w')
     ∧ ∃ pre post,
         s = pre ++ trim s ++ post
         ∧ Forall (λ c, is_space c = true) pre
         ∧ Forall (λ c, is_space c = true) post
         ∧ (∀ c, head (trim s) = Some c → is_space c = false)
         ∧ (∀ c, last (trim s) = Some c → is_space c = false)).
Proof.
  intros Hcall. split; [|split].
  - apply callGeminiAPI_loop_return in Hcall
      as (k & sc & data & ? & ? & ? & ? & ? & ?); [|done|unfold MAX_RETRIES; lia].
    by exists k, sc, data.
  - intros Hno. split; [|done].
    unfold getGeminiResolution. erewrite bind_return by done.
    unfold extract_text.
    destruct (text_field response) as [[]|]; simpl; try done.
    by destruct (Hno s).
  - intros s Hs. split; [|apply trim_spec].
    unfold getGeminiResolution. erewrite bind_return by done.
    unfold extract_text. by rewrite Hs.
Qed.

(** C8. A 2xx answer whose body is not JSON holds no text field, and yet
    [getGeminiResolution] does not throw the extraction error:
    [JSON.parse] throws inside the ['end'] listener, where no promise and
    no [try] of the script sees the exception, and the process ends with
    the [SyntaxError], after that one request. *)
Theorem unparsable_answer_escapes ourCode theirCode filePath w sc data :
  let payload := request_payload (prompt ourCode theirCode filePath) in
  let w' := {| files := files w; requests := S (requests w);
               trace := trace w ++ [EvRequest payload] |} in
  https_request env (requests w) payload = Response sc data →
  (200 ≤ sc ∧ sc < 300)%Z →
  JSON_parse env data = None →
  getGeminiResolution env ourCode theirCode filePath w
    = (Fatal (ErrSyntax data), w')
  ∧ is_malformed_response (ErrSyntax data) = false
  ∧ ∀ handler,
      try_catch (getGeminiResolution env ourCode theirCode filePath) handler w
      = (Fatal (ErrSyntax data), w').
Proof.
  intros payload w' Ho Hsc Hp.
  assert (callGeminiAPI env payload w = (Fatal (ErrSyntax data), w')) as Hcall.
  { unfold callGeminiAPI, MAX_RETRIES. cbn [callGeminiAPI_loop].
    unfold try_catch, https_post. rewrite Ho.
    case_decide; [|done]. by rewrite Hp. }
  assert (getGeminiResolution env ourCode theirCode filePath w
          = (Fatal (ErrSyntax data), w')) as Hres.
  { unfold getGeminiResolution. by erewrite bind_fatal by exact Hcall. }
  split; [done|]. split; [done|].
  intros handler. unfold try_catch. by rewrite Hres.
Qed.

End Resolution.

(** ** What the resolver client can change *)

Lemma net_only_refl w : net_only w w.
Proof. split; [done|]. exists []. by rewrite app_nil_r. Qed.

Lemma net_only_trans w1 w2 w3 : net_only w1 w2 → net_only w2 w3 → net_only w1 w3.
Proof.
  intros [Hf1 (t1 & Ht1 & HF1)] [Hf2 (t2 & Ht2 & HF2)]. split; [congruence|].
  exists (t1 ++ t2). split; [|by apply Forall_app].
  by rewrite Ht2, Ht1, app_assoc.
Qed.

Section Frame.
Variable env : Env.

Lemma https_post_net_only payload w :
  net_only w (https_post env payload w).2.
Proof.
  assert (net_only w {| files := files w; requests := S (requests w);
                        trace := trace w ++ [EvRequest payload] |}) as Hn.
  { split; [done|]. exists [EvRequest payload]. split; [done|]. by repeat constructor. }
  unfold https_post.
  destruct (https_request _ _ _); [done| |done].
  case_decide; [|done]. by destruct (JSON_parse _ _).
Qed.

Lemma callGeminiAPI_loop_net_only left i payload w :
  net_only w (callGeminiAPI_loop env left i payload w).2.
Proof.
  revert i w. induction left as [|left IH]; intros i w; simpl.
  - apply net_only_refl.
  - unfold try_catch. pose proof (https_post_net_only payload w) as Hp.
    destruct (https_post env payload w) as [[v|e|e|] w1]; simpl in *; try done.
    case_decide; [done|].
    rewrite bind_run. unfold sleep, emit; simpl.
    eapply net_only_trans; [exact Hp|].
    eapply net_only_trans; [|apply IH].
    split; [done|]. exists [EvDelay (1000 * 2 ^ Z.of_nat i)].
    split; [done|]. by repeat constructor.
Qed.

Lemma getGeminiResolution_net_only ourCode theirCode filePath w :
  net_only w (getGeminiResolution env ourCode theirCode filePath w).2.
Proof.
  unfold getGeminiResolution. rewrite bind_run.
  pose proof (callGeminiAPI_loop_net_only MAX_RETRIES 0
    (request_payload (prompt ourCode theirCode filePath)) w) as Hc.
  fold (callGeminiAPI env (request_payload (prompt ourCode theirCode filePath))) in Hc.
  destruct (callGeminiAPI env _ w) as [[v|e|e|] w1]; simpl in *; try done.
  by destruct (extract_text v).
Qed.

Lemma resolve_loop_net_only filePath matches content w :
  net_only w (resolve_loop env filePath matches content w).2.
Proof.
  revert content w. induction matches as [|m rest IH]; intros content w; simpl.
  - apply net_only_refl.
  - rewrite bind_run.
    pose proof (getGeminiResolution_net_only (capture m 1) (capture m 2) filePath w) as Hg.
    destruct (getGeminiResolution env _ _ _ w) as [[v|e|e|] w1]; simpl in *; try done.
    eapply net_only_trans; [exact Hg|apply IH].
Qed.

Lemma resolve_loop_app filePath l1 l2 content w :
  resolve_loop env filePath (l1 ++ l2) content w =
  match resolve_loop env filePath l1 content w with
  | (Return content', w') => resolve_loop env filePath l2 content' w'
  | (Throw e, w') => (Throw e, w')
  | (Fatal e, w') => (Fatal e, w')
  | (Pending, w') => (Pending, w')
  end.
Proof.
  revert content w. induction l1 as [|m l1 IH]; intros content w; simpl; [done|].
  rewrite !bind_run.
  destruct (getGeminiResolution env _ _ _ w) as [[v|e|e|] w1]; [|done..].
  apply IH.
Qed.

Lemma main_loop_app l1 l2 flag w :
  main_loop env (l1 ++ l2) flag w =
  match main_loop env l1 flag w with
  | (Return flag', w') => main_loop env l2 flag' w'
  | (Throw e, w') => (Throw e, w')
  | (Fatal e, w') => (Fatal e, w')
  | (Pending, w') => (Pending, w')
  end.
Proof.
  revert flag w. induction l1 as [|file l1 IH]; intros flag w; simpl; [done|].
  rewrite !bind_run.
  destruct (stat_isDirectory file w) as [[[]|e|e|] w1]; [| |done..].
  - rewrite !bind_run. destruct (emit _ w1) as [[[]|e|e|] w2]; [|done..]. apply IH.
  - rewrite !bind_run.
    destruct (resolveConflictsInFile env file w1) as [[[]|e|e|] w2]; [|done..].
    rewrite !bind_run.
    destruct (runCommand env _ w2) as [[?|e|e|] w3]; [|done..]. apply IH.
Qed.

Lemma stat_file path content w :
  files w !! path = Some (File content) →
  stat_isDirectory path w = (Return false, log (EvStat path) w).
Proof. intros H. unfold stat_isDirectory. rewrite bind_run. simpl. by rewrite H. Qed.


Lemma stat_missing path w :
  files w !! path = None →
  stat_isDirectory path w = (Throw (ErrNoEnt path), log (EvStat path) w).
Proof. intros H. unfold stat_isDirectory. rewrite bind_run. simpl. by rewrite H. Qed.

Lemma readFile_file path content w :
  files w !! path = Some (File content) →
  readFile path w = (Return content, log (EvRead path) w).
Proof. intros H. unfold readFile. rewrite bind_run. simpl. by rewrite H. Qed.

End Frame.

(** ** The orchestrator *)

Section Orchestrator.
Variable env : Env.

(** C5. Paths [pre] were processed; [file] is a plain file whose regions,
    last first, are [done ++ m :: todo]; the regions [done] resolve and
    the resolution of [m] throws.  Then [resolveConflictsInFile] throws
    that error, the run ends with the failure signal in the world the
    failing call left, whatever paths [post] follow; that world has the
    files of before and, after the [stat] and the read of [file], only
    requests and delays in its trace: no write, no staging, no later
    path. *)
Theorem region_failure_aborts pre file post content done m todo
    w0 flag w content1 w1 e w2 :
  main_loop env pre false w0 = (Return flag, w) →
  files w !! file = Some (File content) →
  reverse (matchAll conflictRegex content) = done ++ m :: todo →
  resolve_loop env file done content (log (EvRead file) (log (EvStat file) w))
    = (Return content1, w1) →
  getGeminiResolution env (capture m 1) (capture m 2) file w1 = (Throw e, w2) →
  resolveConflictsInFile env file (log (EvStat file) w) = (Throw e, w2)
  ∧ run env (pre ++ file :: post) w0 = (ExitFailure, w2)
  ∧ files w2 = files w
  ∧ ∃ t, trace w2 = trace w ++ [EvStat file; EvRead file] ++ t
         ∧ Forall (λ ev, net_event ev = true) t.
Proof.
  intros Hpre Hfile Hms Hdone Hfail.
  assert (Hres : resolveConflictsInFile env file (log (EvStat file) w) = (Throw e, w2)).
  { unfold resolveConflictsInFile.
    erewrite bind_return by (by apply readFile_file).
    case_decide as Hlen.
    { apply (f_equal length) in Hms.
      rewrite length_reverse, length_app in Hms. simpl in Hms. lia. }
    rewrite Hms. apply bind_throw.
    rewrite resolve_loop_app, Hdone. simpl. by apply bind_throw. }
  split; [done|]. split; [|split].
  - unfold run. rewrite main_loop_app, Hpre. simpl.
    erewrite bind_return by (by eapply stat_file). simpl.
    erewrite bind_throw by done. done.
  - pose proof (resolve_loop_net_only env file done content
      (log (EvRead file) (log (EvStat file) w))) as [Hf1 _].
    pose proof (getGeminiResolution_net_only env (capture m 1) (capture m 2) file w1)
      as [Hf2 _].
    rewrite Hdone in Hf1. rewrite Hfail in Hf2. simpl in *. congruence.
  - pose proof (resolve_loop_net_only env file done content
      (log (EvRead file) (log (EvStat file) w))) as Hn1.
    pose proof (getGeminiResolution_net_only env (capture m 1) (capture m 2) file w1)
      as Hn2.
    rewrite Hdone in Hn1. rewrite Hfail in Hn2. simpl in *.
    destruct (net_only_trans _ _ _ Hn1 Hn2) as [_ (t & Ht & HF)].
    exists t. split; [|done]. rewrite Ht. simpl. by rewrite <- !app_assoc.
Qed.

(** C10. Paths [pre] were processed and [p] does not exist: [fs.stat]
    throws, the loop is left, and the run ends with the failure signal
    in a world that differs only by the [stat] of [p] (no submodule
    warning, no read, nothing of the paths [post]). *)
Theorem missing_path_aborts pre p post w0 flag w :
  main_loop env pre false w0 = (Return flag, w) →
  files w !! p = None →
  main_loop env (p :: post) flag w = (Throw (ErrNoEnt p), log (EvStat p) w)
  ∧ run env (pre ++ p :: post) w0 = (ExitFailure, log (EvStat p) w).
Proof.
  intros Hpre Hp.
  assert (main_loop env (p :: post) flag w = (Throw (ErrNoEnt p), log (EvStat p) w)) as H.
  { simpl. by erewrite bind_throw by (by apply stat_missing). }
  split; [done|].
  unfold run. by rewrite main_loop_app, Hpre, H.
Qed.

End Orchestrator.

(** ** Directories *)

Section Submodules.
Variable env : Env.

Lemma writeFile_dirs_kept path content w :
  dirs_kept w (writeFile env path content w).2.
Proof.
  intros d Hd. unfold writeFile. rewrite bind_run. simpl.
  destruct (files w !! path) as [[c|]|] eqn:Hp; simpl; try done;
    destruct (fs_writeFile env _ path content) as [|[l|]]; simpl; try done;
    (rewrite lookup_insert_ne; [done|congruence]).
Qed.

Lemma resolveConflictsInFile_dirs_kept file w :
  dirs_kept w (resolveConflictsInFile env file w).2.
Proof.
  intros d Hd. unfold resolveConflictsInFile. rewrite bind_run.
  replace (readFile file w) with
    (match files w !! file with
     | None => (Throw (ErrNoEnt file), log (EvRead file) w)
     | Some Dir => (Throw (ErrIsDir file), log (EvRead file) w)
     | Some (File content) => (Return content, log (EvRead file) w)
     end) by done.
  destruct (files w !! file) as [[content|]|] eqn:Hf; simpl; try done.
  case_decide; [done|]. rewrite bind_run.
  pose proof (resolve_loop_net_only env file
    (reverse (matchAll conflictRegex content)) content (log (EvRead file) w))
    as [Hn _].
  destruct (resolve_loop env file _ content _) as [[c|e|e|] w1]; simpl in *;
    try (by rewrite Hn).
  apply writeFile_dirs_kept. by rewrite Hn.
Qed.

Lemma runCommand_files command w :
  files (runCommand env command w).2 = files w.
Proof.
  unfold runCommand. rewrite bind_run. simpl.
  by destruct (execSync env command).
Qed.

Lemma main_loop_flag l flag w b w' :
  main_loop env l flag w = (Return b, w') →
  flag = true ∨ (∃ d, d ∈ l ∧ files w !! d = Some Dir) →
  b = true.
Proof.
  revert flag w. induction l as [|file rest IH]; intros flag w; simpl.
  - intros [= <- <-] [?|(d & Hd & _)]; [done|]. by apply elem_of_nil in Hd.
  - rewrite bind_run. unfold stat_isDirectory. rewrite bind_run. simpl.
    destruct (files w !! file) as [[content|]|] eqn:Hf; simpl; [| |done].
    + rewrite bind_run.
      pose proof (resolveConflictsInFile_dirs_kept file (log (EvStat file) w)) as Hk.
      destruct (resolveConflictsInFile env file _) as [[[]|e|e|] w1]; [|done..].
      rewrite bind_run.
      pose proof (runCommand_files (js "git add " ++ file) w1) as Hr.
      destruct (runCommand env _ w1) as [[out|e|e|] w2]; [|done..].
      simpl in *. intros Hrest Hor. eapply IH; [exact Hrest|].
      destruct Hor as [?|(d & Hd & Hdir)]; [by left|right].
      apply elem_of_cons in Hd as [->|Hd]; [congruence|].
      exists d. split; [done|]. rewrite Hr. by apply Hk.
    + rewrite bind_run. simpl. intros Hrest _. eapply IH; [exact Hrest|by left].
Qed.

Lemma main_loop_raise l flag w :
  main_loop env l true w = raise_flag (main_loop env l flag w).
Proof.
  revert flag w. induction l as [|file rest IH]; intros flag w; simpl; [done|].
  rewrite !bind_run.
  destruct (stat_isDirectory file w) as [[[]|e|e|] w1]; [| |done..].
  - rewrite !bind_run. destruct (emit _ w1) as [[[]|e|e|] w2]; [|done..].
    rewrite (IH true). by destruct (main_loop env rest true w2) as [[b|e|e|] w3].
  - rewrite !bind_run.
    destruct (resolveConflictsInFile env file w1) as [[[]|e|e|] w2]; [|done..].
    rewrite !bind_run.
    destruct (runCommand env _ w2) as [[?|e|e|] w3]; [|done..]. apply IH.
Qed.







End Submodules.

(** ** The conflict pattern, scanned directly *)

Section ScanFacts.

Lemma lit_m_Some p s s' : lit_m p s = Some s' ↔ s = p ++ s'.
Proof.
  revert s. induction p as [|c p IH]; intros s; simpl.
  - split; [by intros [= ->]|by intros ->].
  - destruct s as [|d s]; [by split|].
    destruct (N.eqb_spec c d) as [->|Hne].
    + rewrite IH. split; [by intros ->|by intros [= ->]].
    + split; [done|]. intros [= ? ?]. done.
Qed.

Lemma lit_m_app p s : lit_m p (p ++ s) = Some s.
Proof. by apply lit_m_Some. Qed.

Lemma lit_m_None p s : lit_m p s = None ↔ ∀ s', s ≠ p ++ s'.
Proof.
  split.
  - intros Hn s' ->. by rewrite lit_m_app in Hn.
  - intros Hn. destruct (lit_m p s) as [s'|] eqn:H; [|done].
    apply lit_m_Some in H. by destruct (Hn s').
Qed.

Lemma split_at_Some pat s a b :
  split_at pat s = Some (a, b) → s = a ++ pat ++ b.
Proof.
  revert a. induction s as [|c s IH]; intros a; simpl.
  - destruct (lit_m pat []) as [r|] eqn:Hl; [|done].
    intros [= <- <-]. by apply lit_m_Some in Hl.
  - destruct (lit_m pat (c :: s)) as [r|] eqn:Hl.
    + intros [= <- <-]. by apply lit_m_Some in Hl.
    + destruct (split_at pat s) as [[a' b']|]; [|done].
      simpl. intros [= <- <-]. simpl. f_equal. by apply IH.
Qed.

(** The occurrence found is the first one. *)
Lemma split_at_first pat s a b a' b' :
  split_at pat s = Some (a, b) → s = a' ++ pat ++ b' → length a ≤ length a'.
Proof.
  revert a a'. induction s as [|c s IH]; intros a a'; simpl.
  - destruct (lit_m pat []); [|done]. intros [= <- <-] _. simpl. lia.
  - destruct (lit_m pat (c :: s)) as [r|] eqn:Hl.
    + intros [= <- <-] _. simpl. lia.
    + destruct (split_at pat s) as [[a0 b0]|] eqn:Hs; [|done].
      simpl. intros [= <- <-] Heq.
      destruct a' as [|c' a'].
      * simpl in Heq. rewrite Heq, lit_m_app in Hl. done.
      * simpl in *. injection Heq as -> ->.
        specialize (IH a0 a' eq_refl eq_refl). lia.
Qed.

Lemma split_at_None pat s :
  split_at pat s = None ↔ ∀ a b, s ≠ a ++ pat ++ b.
Proof.
  split.
  - induction s as [|c s IH]; simpl.
    + destruct (lit_m pat []) eqn:Hl; [done|]. intros _ a b Heq.
      symmetry in Heq. apply app_eq_nil in Heq as [-> Heq].
      rewrite <- Heq, (lit_m_app pat b) in Hl. done.
    + destruct (lit_m pat (c :: s)) eqn:Hl; [done|].
      destruct (split_at pat s) as [[a0 b0]|]; [done|].
      intros _ [|c' a] b; simpl.
      * intros Heq. rewrite Heq, lit_m_app in Hl. done.
      * intros [= -> Heq]. by eapply IH.
  - intros Hn. destruct (split_at pat s) as [[a b]|] eqn:Hs; [|done].
    apply split_at_Some in Hs. by destruct (Hn a b).
Qed.

Lemma split_at_is_Some pat a b : is_Some (split_at pat (a ++ pat ++ b)).
Proof.
  destruct (split_at pat (a ++ pat ++ b)) eqn:Hs; [done|].
  exfalso. eapply split_at_None; [exact Hs|done].
Qed.

Lemma split_at_None_suffix pat s s' :
  split_at pat s = None → (s' `suffix_of` s) → split_at pat s' = None.
Proof.
  rewrite !split_at_None. intros Hn [k ->] a b ->.
  eapply (Hn (k ++ a) b). by rewrite <- app_assoc.
Qed.

Lemma line_rest_spec s :
  s = (line_rest s).1 ++ (line_rest s).2
  ∧ (NL ∉ (line_rest s).1)
  ∧ ((line_rest s).2 = [] ∨ ∃ s', (line_rest s).2 = NL :: s').
Proof.
  induction s as [|c s (IH1 & IH2 & IH3)]; simpl.
  - split; [done|]. split; [apply not_elem_of_nil|by left].
  - unfold not_newline. destruct (N.eqb_spec c NL) as [->|Hne]; simpl.
    + split; [done|]. split; [apply not_elem_of_nil|right; by eexists].
    + split; [by f_equal|]. split; [|done].
      rewrite not_elem_of_cons. split; [congruence|done].
Qed.

(** Up to the first line feed. *)
Lemma line_rest_app l s :
  NL ∉ l → line_rest (l ++ NL :: s) = (l, NL :: s).
Proof.
  induction l as [|c l IH]; simpl; intros Hl.
  - done.
  - apply not_elem_of_cons in Hl as [Hc Hl]. unfold not_newline.
    destruct (N.eqb_spec c NL); [congruence|]. simpl. by rewrite IH.
Qed.

Lemma line_rest_nil l : NL ∉ l → line_rest l = (l, []).
Proof.
  induction l as [|c l IH]; simpl; intros Hl; [done|].
  apply not_elem_of_cons in Hl as [Hc Hl]. unfold not_newline.
  destruct (N.eqb_spec c NL); [congruence|]. simpl. by rewrite IH.
Qed.

End ScanFacts.

(** ** The backtracking matcher on the conflict pattern *)

Section MatcherFacts.
Context {R : Type}.

(** A greedy [[^\n]*] whose continuation needs a line feed next ends at
    the end of the line. *)
Lemma star_greedy_line (k : list N → option R) s :
  (∀ c s', not_newline c = true → k (c :: s') = None) →
  star_greedy not_newline s k = k (line_rest s).2.
Proof.
  intros Hk. induction s as [|c s IH]; simpl; [done|].
  destruct (not_newline c) eqn:Hc; simpl; [|done].
  rewrite IH. destruct (k (line_rest s).2) eqn:Hr; [done|].
  by apply Hk.
Qed.

(** A greedy [[^\n]*] whose continuation accepts anything also does. *)
Lemma star_greedy_total (k : list N → option R) s :
  (∀ s', is_Some (k s')) →
  star_greedy not_newline s k = k (line_rest s).2.
Proof.
  intros Hk. induction s as [|c s IH]; simpl; [done|].
  destruct (not_newline c) eqn:Hc; simpl; [|done].
  rewrite IH. by destruct (Hk (line_rest s).2) as [r ->].
Qed.

Lemma star_lazy_None (F : list N → option R) s :
  (∀ s', s' `suffix_of` s → F s' = None) →
  star_lazy any_char s F = None.
Proof.
  induction s as [|c s IH]; simpl; intros HF.
  - by rewrite HF.
  - rewrite HF by done. apply IH. intros s' Hs'. apply HF.
    by apply suffix_cons_r.
Qed.

(** A lazy [[\s\S]*?] followed by the literal [pat] stops at the first
    occurrence of [pat] after which the continuation succeeds. *)
Lemma star_lazy_first pat (F : list N → option R)
    (G : list N → list N → option R) s :
  (∀ s', F s' = match lit_m pat s' with
                | Some s'' => G s' s''
                | None => None
                end) →
  star_lazy any_char s F =
  match split_at pat s with
  | None => None
  | Some (a, b) =>
      match G (drop (length a) s) b with
      | Some r => Some r
      | None => star_lazy any_char (drop (S (length a)) s) F
      end
  end.
Proof.
  intros HF. induction s as [|c s IH]; simpl.
  - rewrite HF. destruct (lit_m pat []) as [r|] eqn:Hl; simpl; [|done].
    by destruct (G [] r) eqn:HG.
  - rewrite HF. destruct (lit_m pat (c :: s)) as [r|] eqn:Hl; simpl.
    + destruct (G (c :: s) r); [done|]. by rewrite drop_0.
    + rewrite IH. by destruct (split_at pat s) as [[a b]|].
Qed.

End MatcherFacts.

Lemma match_here_unfold s :
  match_here conflictRegex s =
  match lit_m OPEN s with
  | None => None
  | Some s1 =>
    star_greedy not_newline s1 (λ s2,
      match lit_m [NL] s2 with
      | None => None
      | Some s3 =>
        star_lazy any_char s3 (λ s4,
          match lit_m SEP s4 with
          | None => None
          | Some s5 =>
            star_lazy any_char s5 (λ s6,
              match lit_m CLOSE s6 with
              | None => None
              | Some s7 =>
                star_greedy not_newline s7 (λ s8,
                  Some [Some (take (length s - length s8) s);
                        Some (take (length s3 - length s4) s3);
                        Some (take (length s5 - length s6) s5)])
              end)
          end)
      end)
  end.
Proof. reflexivity. Qed.

Lemma suffix_app_short (l k b : list N) :
  l `suffix_of` (k ++ b) → length l ≤ length b → l `suffix_of` b.
Proof.
  intros [x Hx] Hlen.
  assert (length k ≤ length x).
  { apply (f_equal length) in Hx. rewrite !length_app in Hx. lia. }
  exists (drop (length k) x).
  apply (f_equal (drop (length k))) in Hx.
  rewrite drop_app_length in Hx. rewrite Hx.
  rewrite drop_app_le by done. done.
Qed.

Lemma take_consumed (a t : list N) :
  take (length (a ++ t) - length (drop (length a) (a ++ t))) (a ++ t) = a.
Proof.
  rewrite drop_app_length, length_app.
  replace (length a + length t - length t) with (length a) by lia.
  by rewrite take_app_length.
Qed.

Lemma match_here_conflict s :
  match_here conflictRegex s = conflict_captures s <$> find_conflict s.
Proof.
  rewrite match_here_unfold. unfold find_conflict.
  destruct (lit_m OPEN s) as [s1|]; osimpl; [|done].
  rewrite star_greedy_line.
  2:{ intros c s' Hc. cbn [lit_m]. unfold not_newline in Hc.
      rewrite N.eqb_sym. by destruct (N.eqb c NL). }
  destruct (lit_m [NL] (line_rest s1).2) as [s3|]; osimpl; [|done].
  set (tail (s4 s5 : list N) := λ s6 : list N,
         match lit_m CLOSE s6 with
         | Some s7 =>
             star_greedy not_newline s7 (λ s8,
               Some [Some (take (length s - length s8) s);
                     Some (take (length s3 - length s4) s3);
                     Some (take (length s5 - length s6) s5)])
         | None => None
         end).
  rewrite (star_lazy_first SEP _ (λ s4 s5, star_lazy any_char s5 (tail s4 s5)))
    by done.
  destruct (split_at SEP s3) as [[a b]|] eqn:Hs; osimpl; [|done].
  pose proof (split_at_Some _ _ _ _ Hs) as Hs3.
  rewrite (star_lazy_first CLOSE _ (λ s6 s7,
    star_greedy not_newline s7 (λ s8,
      Some [Some (take (length s - length s8) s);
            Some (take (length s3 - length (drop (length a) s3)) s3);
            Some (take (length b - length s6) b)]))) by done.
  destruct (split_at CLOSE b) as [[a2 b2]|] eqn:Hs2; osimpl.
  - pose proof (split_at_Some _ _ _ _ Hs2) as Hb.
    rewrite star_greedy_total by (intros; by eexists).
    unfold conflict_captures; osimpl.
    rewrite Hs3 at 1 2 3. rewrite take_consumed.
    rewrite Hb at 1 2 3. by rewrite take_consumed.
  - apply star_lazy_None. intros s' Hs'.
    destruct (lit_m SEP s') as [s5'|] eqn:Hl; [|done].
    apply lit_m_Some in Hl. apply star_lazy_None. intros s6 Hs6.
    unfold tail. destruct (lit_m CLOSE s6) as [s7|] eqn:Hl6; [|done].
    exfalso. apply lit_m_Some in Hl6.
    assert (s5' `suffix_of` b) as Hsuf.
    { rewrite Hs3 in Hs'. rewrite <- Nat.add_1_r, <- drop_drop in Hs'.
      rewrite drop_app_length in Hs'.
      change (drop 1 (SEP ++ b)) with (drop 1 SEP ++ b) in Hs'.
      apply (suffix_app_short _ (drop 1 SEP)).
      - etrans; [|exact Hs']. exists SEP. by rewrite Hl.
      - apply suffix_length in Hs'. rewrite Hl, !length_app in Hs'.
        change (length SEP) with 9 in Hs'.
        change (length (drop 1 SEP)) with 8 in Hs'. lia. }
    assert (s6 `suffix_of` b) as [k Hk] by (by etrans).
    eapply (proj1 (split_at_None CLOSE b) Hs2 k s7). by rewrite Hk, Hl6.
Qed.

(** ** Conflict blocks *)

Lemma find_conflict_Some s c :
  find_conflict s = Some c →
  s = c_block c ++ c_rest c
  ∧ (NL ∉ c_label c)
  ∧ (NL ∉ c_label2 c)
  ∧ (c_rest c = [] ∨ ∃ r, c_rest c = NL :: r)
  ∧ split_at SEP (c_ours c ++ SEP ++ c_theirs c ++ CLOSE ++ c_label2 c ++ c_rest c)
      = Some (c_ours c, c_theirs c ++ CLOSE ++ c_label2 c ++ c_rest c)
  ∧ split_at CLOSE (c_theirs c ++ CLOSE ++ c_label2 c ++ c_rest c)
      = Some (c_theirs c, c_label2 c ++ c_rest c).
Proof.
  unfold find_conflict.
  destruct (lit_m OPEN s) as [s1|] eqn:H1; osimpl; [|done].
  destruct (lit_m [NL] (line_rest s1).2) as [s3|] eqn:H2; osimpl; [|done].
  destruct (split_at SEP s3) as [[o b]|] eqn:H3; osimpl; [|done].
  destruct (split_at CLOSE b) as [[t b2]|] eqn:H4; osimpl; [|done].
  intros [= <-]. unfold c_block; osimpl.
  apply lit_m_Some in H1. apply lit_m_Some in H2.
  pose proof (split_at_Some _ _ _ _ H3) as E3.
  pose proof (split_at_Some _ _ _ _ H4) as E4.
  destruct (line_rest_spec s1) as (L1 & L2 & _).
  destruct (line_rest_spec b2) as (L3 & L4 & L5).
  assert (E : b = t ++ CLOSE ++ (line_rest b2).1 ++ (line_rest b2).2).
  { by rewrite <- L3. }
  split; [|split; [|split; [|split; [|split]]]]; try done.
  - rewrite H1, L1 at 1. rewrite H2, E3, E. by rewrite <- !app_assoc.
  - by rewrite <- E, <- E3.
  - by rewrite <- L3, <- E4.
Qed.

Lemma c_block_length c : 0 < length (c_block c).
Proof. unfold c_block. rewrite length_app. change (length OPEN) with 7. lia. Qed.

Lemma conflict_captures_block s c :
  find_conflict s = Some c →
  conflict_captures s c = [Some (c_block c); Some (c_ours c); Some (c_theirs c)].
Proof.
  intros (Hs & _)%find_conflict_Some. unfold conflict_captures.
  rewrite Hs at 1 2. rewrite length_app.
  replace (length (c_block c) + length (c_rest c) - length (c_rest c))
    with (length (c_block c)) by lia.
  by rewrite take_app_length.
Qed.

(** ** [exec] on the conflict pattern *)

Lemma exec_scan_Some s i m :
  exec_scan conflictRegex s i = Some m →
  ∃ k c,
    index m = i + k
    ∧ find_conflict (drop k s) = Some c
    ∧ captures m = [Some (c_block c); Some (c_ours c); Some (c_theirs c)]
    ∧ ∀ j, j < k → find_conflict (drop j s) = None.
Proof.
  revert i. induction s as [|x s IH]; intros i; cbn [exec_scan].
  - rewrite match_here_conflict.
    destruct (find_conflict []) as [c|] eqn:Hc; osimpl; [|done].
    intros [= <-]. exists 0, c. simpl. rewrite Nat.add_0_r.
    split; [done|]. split; [done|]. split; [by apply conflict_captures_block|].
    intros j Hj. lia.
  - rewrite match_here_conflict.
    destruct (find_conflict (x :: s)) as [c|] eqn:Hc; osimpl.
    + intros [= <-]. exists 0, c. simpl. rewrite Nat.add_0_r.
      split; [done|]. split; [done|]. split; [by apply conflict_captures_block|].
      intros j Hj. lia.
    + intros (k & c & Hi & Hf & Hcap & Hlt)%IH.
      exists (S k), c. simpl. split; [lia|]. split; [done|]. split; [done|].
      intros [|j] Hj; simpl; [done|]. apply Hlt. lia.
Qed.

Lemma exec_scan_None s i :
  exec_scan conflictRegex s i = None → ∀ j, find_conflict (drop j s) = None.
Proof.
  revert i. induction s as [|x s IH]; intros i; cbn [exec_scan].
  - rewrite match_here_conflict.
    destruct (find_conflict []) as [c|] eqn:Hc; osimpl; [done|].
    intros _ j. by rewrite drop_nil.
  - rewrite match_here_conflict.
    destruct (find_conflict (x :: s)) as [c|] eqn:Hc; osimpl; [done|].
    intros H [|j]; simpl; [done|]. by eapply IH.
Qed.

(** ** All matches *)

Lemma Scan_det s off ms1 ms2 : Scan s off ms1 → Scan s off ms2 → ms1 = ms2.
Proof.
  intros H1. revert ms2.
  induction H1 as [s off Hn|s off k c ms Hlt Hc Hrest IH]; intros ms2 H2.
  - inversion H2 as [|? ? k' c' ms' Hlt' Hc' Hrest']; subst; [done|].
    rewrite Hn in Hc'. done.
  - inversion H2 as [? ? Hn'|? ? k' c' ms' Hlt' Hc' Hrest']; subst.
    + rewrite Hn' in Hc. done.
    + assert (k = k') as <-.
      { destruct (Nat.lt_total k k') as [Hk|[Hk|Hk]]; [|done|].
        - rewrite (Hlt' _ Hk) in Hc. done.
        - rewrite (Hlt _ Hk) in Hc'. done. }
      assert (c = c') as <- by congruence.
      f_equal. by apply IH.
Qed.

Lemma matchAll_loop_Scan fuel input lastIndex :
  lastIndex ≤ length input →
  length input - lastIndex < fuel →
  Scan (drop lastIndex input) lastIndex
    (matchAll_loop fuel conflictRegex input lastIndex).
Proof.
  revert lastIndex. induction fuel as [|fuel IH]; intros L HL Hfuel; [lia|].
  cbn [matchAll_loop]. unfold exec. case_decide; [|lia].
  destruct (exec_scan conflictRegex (drop L input) L) as [m|] eqn:He.
  - apply exec_scan_Some in He as (k & c & Hi & Hf & Hcap & Hlt).
    destruct m as [i caps]. simpl in *. subst i caps.
    assert (Hcap0 : capture {| index := L + k; captures :=
              [Some (c_block c); Some (c_ours c); Some (c_theirs c)] |} 0
            = c_block c) by done.
    rewrite Hcap0. pose proof (c_block_length c) as Hpos.
    case_decide as Hnil; [rewrite Hnil in Hpos; simpl in Hpos; lia|].
    pose proof (find_conflict_Some _ _ Hf) as (Hs & _).
    assert (Hlen : L + k + length (c_block c) + length (c_rest c) = length input).
    { pose proof (f_equal length Hs) as Hl.
      rewrite !length_drop, length_app in Hl. lia. }
    assert (Hrest : c_rest c = drop (L + k + length (c_block c)) input).
    { rewrite <- !drop_drop. rewrite Hs. by rewrite drop_app_length. }
    apply Scan_cons; [done..|].
    rewrite Hrest. apply IH; lia.
  - apply Scan_nil. by eapply exec_scan_None.
Qed.

Lemma matchAll_Scan input : Scan input 0 (matchAll conflictRegex input).
Proof.
  unfold matchAll.
  rewrite <- (drop_0 input) at 1. apply matchAll_loop_Scan; lia.
Qed.

(** The fuel of [matchAll] is never used up: more of it changes nothing. *)
Lemma matchAll_fuel fuel input :
  length input < fuel →
  matchAll_loop fuel conflictRegex input 0 = matchAll conflictRegex input.
Proof.
  intros Hfuel. eapply Scan_det; [|apply matchAll_Scan].
  rewrite <- (drop_0 input) at 1. apply matchAll_loop_Scan; lia.
Qed.

(** ** Where a block is found *)

Lemma split_at_unfold pat s :
  split_at pat s =
  match lit_m pat s with
  | Some rest => Some ([], rest)
  | None =>
      match s with
      | [] => None
      | c :: s' => prod_map (cons c) id <$> split_at pat s'
      end
  end.
Proof. by destruct s. Qed.

Lemma app_eq_len_le {A} (x y p q : list A) :
  x ++ y = p ++ q → length p ≤ length x → ∃ k, x = p ++ k ∧ q = k ++ y.
Proof.
  intros [(k & -> & ->)|(k & -> & ->)]%app_eq_inv Hlen; [by exists k|].
  rewrite length_app in Hlen. destruct k; [|simpl in Hlen; lia].
  exists []. by rewrite !app_nil_r.
Qed.

Lemma lit_m_is_Some_prefix pat x y y' :
  length pat ≤ length x →
  is_Some (lit_m pat (x ++ y)) → is_Some (lit_m pat (x ++ y')).
Proof.
  intros Hlen [q Hq]. apply lit_m_Some in Hq.
  apply app_eq_len_le in Hq as (k & -> & ->); [|done].
  exists (k ++ y'). apply lit_m_Some. by rewrite <- app_assoc.
Qed.

Lemma lit_m_None_prefix pat x y y' :
  length pat ≤ length x →
  lit_m pat (x ++ y) = None → lit_m pat (x ++ y') = None.
Proof.
  intros Hlen Hn. destruct (lit_m pat (x ++ y')) eqn:H; [|done].
  destruct (lit_m_is_Some_prefix pat x y' y Hlen) as [q Hq]; [by eexists|].
  congruence.
Qed.

(** The first occurrence of [pat] stays the first whatever follows it. *)
Lemma split_at_stable pat a b b' :
  split_at pat (a ++ pat ++ b) = Some (a, b) →
  split_at pat (a ++ pat ++ b') = Some (a, b').
Proof.
  induction a as [|c a IH]; rewrite !split_at_unfold; simpl.
  - by rewrite !lit_m_app.
  - destruct (lit_m pat (c :: a ++ pat ++ b)) as [q|] eqn:Hl; [done|].
    assert (lit_m pat (c :: a ++ pat ++ b') = None) as ->.
    { rewrite app_assoc, app_comm_cons.
      eapply (lit_m_None_prefix _ _ b).
      - simpl. rewrite length_app. lia.
      - by rewrite <- app_comm_cons, <- app_assoc. }
    destruct (split_at pat (a ++ pat ++ b)) as [[a0 b0]|] eqn:Hs; [|done].
    simpl. intros [= -> ->]. by rewrite IH.
Qed.

(** Every occurrence of [pat] ends at or after the end of the first. *)
Lemma split_at_occ pat u z :
  ∃ a b, split_at pat (u ++ pat ++ z) = Some (a, b) ∧ z `suffix_of` b.
Proof.
  destruct (split_at_is_Some pat u z) as [[a b] Hs].
  exists a, b. split; [done|].
  pose proof (split_at_first _ _ _ _ u z Hs eq_refl) as Hlen.
  apply split_at_Some in Hs.
  apply app_eq_len_le in Hs as (k & -> & Hs); [|done].
  rewrite app_assoc in Hs. symmetry in Hs.
  apply app_eq_len_le in Hs as (k' & _ & ->); [|rewrite length_app; lia].
  by exists k'.
Qed.

Lemma line_rest_has_nl u z :
  ∃ l s3, line_rest (u ++ NL :: z) = (l, NL :: s3) ∧ z `suffix_of` s3.
Proof.
  induction u as [|c u (l & s3 & IH & Hsuf)]; simpl.
  - exists [], z. done.
  - unfold not_newline. destruct (N.eqb_spec c NL) as [->|Hne]; simpl.
    + exists [], (u ++ NL :: z). split; [done|].
      apply suffix_app_r, suffix_cons_r. done.
    + exists (c :: l), s3. by rewrite IH.
Qed.

(** An ours marker followed, in this order, by a line feed, a separator
    line and a theirs marker at the start of a line begins a block. *)
Lemma find_conflict_complete Y Z1 Z2 Z3 :
  is_Some (find_conflict (OPEN ++ Y ++ NL :: Z1 ++ SEP ++ Z2 ++ CLOSE ++ Z3)).
Proof.
  unfold find_conflict. rewrite lit_m_app. osimpl.
  destruct (line_rest_has_nl Y (Z1 ++ SEP ++ Z2 ++ CLOSE ++ Z3))
    as (l & s3 & -> & [x ->]). osimpl.
  change (NL :: ?t) with ([NL] ++ t). rewrite lit_m_app. osimpl.
  rewrite (app_assoc x Z1).
  destruct (split_at_occ SEP (x ++ Z1) (Z2 ++ CLOSE ++ Z3))
    as (a & b & -> & [y ->]). osimpl.
  rewrite (app_assoc y Z2).
  destruct (split_at_occ CLOSE (y ++ Z2) Z3) as (a2 & b2 & -> & _). osimpl.
  by eexists.
Qed.

(** If a block starts at index [k], every ours marker before [k] starts a
    block too. *)
Lemma find_conflict_earlier s j k c q :
  lit_m OPEN (drop j s) = Some q → j ≤ k →
  find_conflict (drop k s) = Some c →
  is_Some (find_conflict (drop j s)).
Proof.
  intros Hq%lit_m_Some Hjk (Hk & _)%find_conflict_Some.
  assert (drop (k - j) q = drop (length OPEN) (drop k s)) as Hd.
  { replace q with (drop (length OPEN) (drop j s))
      by (by rewrite Hq, drop_app_length).
    rewrite !drop_drop. f_equal. lia. }
  rewrite Hk in Hd. unfold c_block in Hd.
  rewrite <- !app_assoc, drop_app_length in Hd.
  rewrite Hq, <- (take_drop (k - j) q), Hd.
  rewrite (app_assoc (take (k - j) q)).
  change ([NL] ++ ?t) with (NL :: t).
  apply find_conflict_complete.
Qed.

(** A block is read the same way whatever follows it, as long as its last
    line ends where it ended. *)
Lemma find_conflict_stable s c rest' :
  find_conflict s = Some c →
  rest' = [] ∨ (∃ r, rest' = NL :: r) →
  find_conflict (c_block c ++ rest') =
    Some {| c_label := c_label c; c_ours := c_ours c; c_theirs := c_theirs c;
            c_label2 := c_label2 c; c_rest := rest' |}.
Proof.
  intros (_ & Hl & Hl2 & _ & Hsep & Hclose)%find_conflict_Some Hrest.
  unfold find_conflict, c_block. rewrite <- !app_assoc, lit_m_app. osimpl.
  change ([NL] ++ ?t) with (NL :: t).
  rewrite line_rest_app by done. osimpl.
  change (NL :: ?t) with ([NL] ++ t). rewrite lit_m_app. osimpl.
  rewrite (split_at_stable SEP _ _ (c_theirs c ++ CLOSE ++ c_label2 c ++ rest') Hsep).
  osimpl.
  rewrite (split_at_stable CLOSE _ _ (c_label2 c ++ rest') Hclose). osimpl.
  destruct Hrest as [->|[r ->]].
  - rewrite app_nil_r, line_rest_nil by done. done.
  - rewrite line_rest_app by done. done.
Qed.

(** ** Splicing the last region and parsing again *)

Lemma splice_splice_at content m r :
  splice content m r = splice_at content (index m) (length (capture m 0)) r.
Proof. done. Qed.

Lemma splice_at_app x y p len r :
  length x ≤ p →
  splice_at (x ++ y) p len r = x ++ splice_at y (p - length x) len r.
Proof.
  intros Hp. unfold splice_at.
  rewrite take_app_ge, drop_app_ge by lia. rewrite <- app_assoc.
  do 4 f_equal. lia.
Qed.

Lemma OPEN_lookup i : i < 7 → OPEN !! i = Some LESS.
Proof. intros Hi. do 7 (destruct i as [|i]; [done|]). lia. Qed.

Lemma lit_m_OPEN_short x y q :
  lit_m OPEN (x ++ y) = Some q → length x < 7 → ∃ y', y = LESS :: y'.
Proof.
  intros Hq%lit_m_Some Hlen.
  pose proof (f_equal (λ l, l !! length x) Hq) as Hl. cbv beta in Hl.
  rewrite lookup_app_r, Nat.sub_diag in Hl by done.
  rewrite lookup_app_l, OPEN_lookup in Hl by done.
  destruct y as [|c y]; [done|]. injection Hl as ->. by eexists.
Qed.

(** An ours marker that begins less than seven code units before another
    one: every code unit in between is [<], and the marker can begin
    there whatever follows the second one. *)
Lemma lit_m_OPEN_slide x y q z :
  lit_m OPEN (x ++ y) = Some q → length x < 7 →
  is_Some (lit_m OPEN (x ++ OPEN ++ z)).
Proof.
  intros Hq%lit_m_Some Hlen.
  assert (replicate (length x) LESS = x) as Hx.
  { apply replicate_as_Forall. split; [done|].
    apply Forall_lookup. intros i c Hi.
    pose proof (lookup_lt_Some _ _ _ Hi) as Hlt.
    pose proof (f_equal (λ l, l !! i) Hq) as Hl. cbv beta in Hl.
    rewrite lookup_app_l, Hi in Hl by done.
    rewrite lookup_app_l in Hl by (change (length OPEN) with 7; lia).
    rewrite OPEN_lookup in Hl by lia. congruence. }
  assert (x ++ OPEN = OPEN ++ x) as Hcomm.
  { rewrite <- Hx. change OPEN with (replicate 7 LESS).
    rewrite <- !replicate_add. f_equal. lia. }
  rewrite app_assoc, Hcomm, <- app_assoc, lit_m_app. by eexists.
Qed.

Lemma lit_m_OPEN_long x y q :
  lit_m OPEN (x ++ y) = Some q → 7 ≤ length x → ∃ x', x = OPEN ++ x'.
Proof.
  intros Hq%lit_m_Some Hlen.
  apply app_eq_len_le in Hq as (k & -> & _); [|done]. by eexists.
Qed.

Lemma find_conflict_no_OPEN s : lit_m OPEN s = None → find_conflict s = None.
Proof. intros H. unfold find_conflict. by rewrite H. Qed.

Lemma find_conflict_length s c :
  find_conflict s = Some c → length s = length (c_block c) + length (c_rest c).
Proof. intros (Hs & _)%find_conflict_Some. by rewrite Hs at 1; rewrite length_app. Qed.

(** Where the matches of a scan lie. *)
Lemma Scan_index s off ms m :
  Scan s off ms → m ∈ ms →
  ∃ j c, index m = off + j
         ∧ find_conflict (drop j s) = Some c
         ∧ captures m = [Some (c_block c); Some (c_ours c); Some (c_theirs c)].
Proof.
  intros HS. revert m.
  induction HS as [s off Hn|s off k c ms Hlt Hc Hrest IH]; intros m Hm.
  - by apply elem_of_nil in Hm.
  - apply elem_of_cons in Hm as [->|Hm].
    + exists k, c. done.
    + destruct (IH m Hm) as (j & c' & Hi & Hf & Hcap).
      exists (k + length (c_block c) + j), c'.
      split; [lia|]. split; [|done].
      pose proof (find_conflict_Some _ _ Hc) as (Hs & _).
      rewrite <- Hf. rewrite <- !drop_drop, Hs, drop_app_length. done.
Qed.

(** After the only region was replaced by an inert text, nothing matches. *)
Lemma splice_no_conflict s k c r :
  (∀ j, j < k → find_conflict (drop j s) = None) →
  find_conflict (drop k s) = Some c →
  (∀ j, find_conflict (drop j (c_rest c)) = None) →
  inert r →
  ∀ j, find_conflict (drop j (take k s ++ r ++ c_rest c)) = None.
Proof.
  intros Hlt Hc Hrest Hno j.
  pose proof (find_conflict_Some _ _ Hc) as (Hs & _ & _ & Hshape & _).
  pose proof (find_conflict_length _ _ Hc) as Hlen.
  pose proof (c_block_length c) as Hpos.
  rewrite length_drop in Hlen.
  assert (Hk : length (take k s) = k) by (rewrite length_take; lia).
  destruct (decide (j < k)) as [Hj|Hj].
  - apply find_conflict_no_OPEN.
    rewrite drop_app_le by lia.
    destruct (lit_m OPEN (drop j (take k s) ++ r ++ c_rest c)) as [q|] eqn:Hq;
      [exfalso|done].
    destruct (decide (7 ≤ length (drop j (take k s)))) as [Hx|Hx].
    + destruct (lit_m_is_Some_prefix OPEN (drop j (take k s))
                  (r ++ c_rest c) (drop k s)) as [q' Hq']; [done|by eexists|].
      assert (drop j (take k s) ++ drop k s = drop j s) as Heq.
      { rewrite <- (take_drop k s) at 3. by rewrite drop_app_le by lia. }
      rewrite Heq in Hq'.
      destruct (find_conflict_earlier s j k c q' Hq') as [c' Hc']; [lia|done|].
      rewrite Hlt in Hc' by done. done.
    + destruct (lit_m_OPEN_slide _ _ _ (drop (length OPEN) (drop k s)) Hq)
        as [q' Hq']; [lia|].
      assert (drop j (take k s) ++ OPEN ++ drop (length OPEN) (drop k s)
              = drop j s) as Heq.
      { assert (drop k s = OPEN ++ drop (length OPEN) (drop k s)) as Hd.
        { rewrite Hs. unfold c_block. by rewrite <- !app_assoc, drop_app_length. }
        rewrite <- Hd.
        rewrite <- (drop_app_le (take k s) (drop k s)) by lia.
        by rewrite take_drop. }
      rewrite Heq in Hq'.
      destruct (find_conflict_earlier s j k c q' Hq') as [c' Hc']; [lia|done|].
      rewrite Hlt in Hc' by done. done.
  - destruct (decide (j < k + length r)) as [Hj2|Hj2].
    + apply find_conflict_no_OPEN.
      rewrite drop_app_ge, Hk by lia. rewrite drop_app_le by lia.
      destruct (lit_m OPEN (drop (j - k) r ++ c_rest c)) as [q|] eqn:Hq;
        [exfalso|done].
      destruct (decide (7 ≤ length (drop (j - k) r))) as [Hx|Hx].
      * apply lit_m_OPEN_long in Hq as [x' Hx']; [|done].
        eapply (proj1 (split_at_None OPEN r) Hno (take (j - k) r) x').
        by rewrite <- Hx', take_drop.
      * apply lit_m_OPEN_short in Hq as [y' Hy]; [|lia].
        destruct Hshape as [E|[r' E]]; rewrite E in Hy; done.
    + rewrite drop_app_ge, Hk by lia. rewrite drop_app_ge by lia.
      apply Hrest.
Qed.

Lemma Scan_splice_last s off ms m r :
  Scan s off (ms ++ [m]) → inert r →
  Scan (splice_at s (index m - off) (length (capture m 0)) r) off ms.
Proof.
  intros HS Hr. revert s off HS.
  induction ms as [|m1 ms IH]; intros s off HS; simpl in HS.
  - inversion HS as [|? ? k c ms' Hlt Hc Hrest]; subst.
    inversion Hrest as [? ? Hn|]; subst.
    apply Scan_nil. unfold splice_at.
    change (capture _ 0) with (c_block c). cbn [index].
    replace (off + k - off) with k by lia.
    pose proof (find_conflict_Some _ _ Hc) as (Hs & _).
    replace (drop (k + length (c_block c)) s) with (c_rest c).
    2:{ rewrite <- drop_drop, Hs. by rewrite drop_app_length. }
    by apply splice_no_conflict.
  - inversion HS as [|? ? k c ms' Hlt Hc Hrest]; subst.
    pose proof (find_conflict_Some _ _ Hc) as (Hs & _ & _ & Hshape & _).
    pose proof (find_conflict_length _ _ Hc) as Hlen.
    pose proof (c_block_length c) as Hpos.
    rewrite length_drop in Hlen.
    assert (Hk : length (take k s) = k) by (rewrite length_take; lia).
    (* the last region lies in what follows the first block *)
    destruct (Scan_index _ _ _ m Hrest) as (j & cm & Hi & Hfm & Hcm).
    { apply elem_of_app. right. by apply list_elem_of_singleton. }
    assert (Hcap : capture m 0 = c_block cm) by (unfold capture; by rewrite Hcm).
    destruct Hshape as [E|[rr E]].
    { rewrite E, drop_nil in Hfm. done. }
    destruct j as [|j].
    { rewrite drop_0, E in Hfm. done. }
    set (rest' := splice_at (c_rest c) (S j) (length (capture m 0)) r).
    assert (Hsplice : splice_at s (index m - off) (length (capture m 0)) r
                      = take k s ++ c_block c ++ rest').
    { rewrite <- (take_drop k s) at 1. rewrite Hs.
      rewrite splice_at_app by (rewrite Hk; lia).
      f_equal. rewrite splice_at_app by (rewrite Hk; lia).
      f_equal. unfold rest'. f_equal. rewrite Hk. lia. }
    assert (Hrest' : ∃ r', rest' = NL :: r').
    { unfold rest', splice_at. rewrite E. simpl. by eexists. }
    rewrite Hsplice.
    assert (Hdk : drop k (take k s ++ c_block c ++ rest') = c_block c ++ rest').
    { by rewrite drop_app_length' by done. }
    pose proof (find_conflict_stable _ _ rest' Hc (or_intror Hrest')) as Hc'.
    rewrite <- Hdk in Hc'.
    eapply (Scan_cons _ off k _ ms) in Hc'; [exact Hc'| |].
    + intros i Hi'. apply find_conflict_no_OPEN.
      rewrite drop_app_le by lia.
      destruct (lit_m OPEN (drop i (take k s) ++ c_block c ++ rest')) as [q|] eqn:Hq;
        [exfalso|done].
      unfold c_block in Hq. rewrite <- !app_assoc in Hq.
      rewrite (app_assoc (drop i (take k s))) in Hq.
      destruct (lit_m_is_Some_prefix OPEN (drop i (take k s) ++ OPEN) _
        (drop (length OPEN) (drop k s))
        ltac:(rewrite length_app; lia) (ex_intro _ _ Hq)) as [q' Hq'].
      assert ((drop i (take k s) ++ OPEN) ++ drop (length OPEN) (drop k s)
              = drop i s) as Heq.
      { assert (drop k s = OPEN ++ drop (length OPEN) (drop k s)) as Hd.
        { rewrite Hs. unfold c_block. by rewrite <- !app_assoc, drop_app_length. }
        rewrite <- app_assoc, <- Hd.
        rewrite <- (drop_app_le (take k s) (drop k s)) by lia.
        by rewrite take_drop. }
      rewrite Heq in Hq'.
      destruct (find_conflict_earlier s i k c q' Hq') as [c' Hc'']; [lia|done|].
      rewrite Hlt in Hc'' by done. done.
    + cbn [c_rest].
      change (c_block {| c_label := c_label c; c_ours := c_ours c;
                         c_theirs := c_theirs c; c_label2 := c_label2 c;
                         c_rest := rest' |}) with (c_block c).
      unfold rest'.
      replace (S j) with (index m - (off + k + length (c_block c))) by lia.
      by apply IH.
Qed.

(** ** Splicing in descending order *)

Section Descending.
Variable env : Env.

(** The loop of the script is [splice_all] on the texts the resolver
    returned. *)
Lemma resolve_loop_splice_all filePath matches content w content' w' :
  resolve_loop env filePath matches content w = (Return content', w') →
  ∃ resolved,
    length resolved = length matches
    ∧ content' = splice_all matches resolved content.
Proof.
  revert content w. induction matches as [|m ms IH]; intros content w; simpl.
  - intros [= <- <-]. by exists [].
  - rewrite bind_run.
    destruct (getGeminiResolution env _ _ filePath w) as [[r|e|e|] w1]; [|done..].
    intros (rs & Hlen & ->)%IH. exists (r :: rs). simpl. by rewrite Hlen.
Qed.
End Descending.

Lemma Scan_after s off ms1 ms2 m m' :
  Scan s off (ms1 ++ ms2) → m ∈ ms1 → m' ∈ ms2 →
  index m + length (capture m 0) ≤ index m'.
Proof.
  revert s off. induction ms1 as [|m1 ms1 IH]; intros s off HS Hm Hm'.
  - by apply elem_of_nil in Hm.
  - simpl in HS. inversion HS as [|? ? k c ms' Hlt Hc Hrest]; subst.
    apply elem_of_cons in Hm as [->|Hm].
    + destruct (Scan_index _ _ _ m' Hrest) as (j & c' & Hi & _).
      { apply elem_of_app. by right. }
      change (capture _ 0) with (c_block c). cbn [index]. lia.
    + by eapply IH.
Qed.

(** The regions the parser returns lie one after the other: their spans
    are pairwise disjoint. *)
Lemma matchAll_disjoint content ms1 ms2 m m' :
  matchAll conflictRegex content = ms1 ++ ms2 → m ∈ ms1 → m' ∈ ms2 →
  index m + length (capture m 0) ≤ index m'.
Proof.
  intros Hms. eapply Scan_after. rewrite <- Hms. apply matchAll_Scan.
Qed.

Lemma Scan_block_at s ms m :
  Scan s 0 ms → m ∈ ms →
  take (length (capture m 0)) (drop (index m) s) = capture m 0
  ∧ index m + length (capture m 0) ≤ length s.
Proof.
  intros HS Hm. destruct (Scan_index _ _ _ m HS Hm) as (j & c & Hi & Hf & Hcap).
  simpl in Hi. subst j.
  assert (capture m 0 = c_block c) as -> by (unfold capture; by rewrite Hcap).
  pose proof (find_conflict_Some _ _ Hf) as (Hs & _).
  pose proof (find_conflict_length _ _ Hf) as Hlen.
  pose proof (c_block_length c). rewrite length_drop in Hlen.
  split; [|lia]. by rewrite Hs, take_app_length.
Qed.

Lemma splice_all_take ms rs content e :
  (∀ m, m ∈ ms → e ≤ index m) → e ≤ length content →
  take e (splice_all ms rs content) = take e content.
Proof.
  revert rs content. induction ms as [|m ms IH]; intros rs content Hms He; [done|].
  destruct rs as [|r rs]; [done|]. simpl.
  assert (e ≤ index m) by (apply Hms; by left).
  assert (e ≤ length (take (index m) content)) by (rewrite length_take; lia).
  rewrite IH.
  - unfold splice. rewrite take_app_le by done.
    rewrite take_take. f_equal. lia.
  - intros m' Hm'. apply Hms. by right.
  - unfold splice. rewrite length_app. lia.
Qed.

(** Parsing again after the last region was replaced by an inert text
    finds the other regions, where they were. *)
Lemma matchAll_splice_last content ms m r :
  matchAll conflictRegex content = ms ++ [m] → inert r →
  matchAll conflictRegex (splice content m r) = ms.
Proof.
  intros Hms Hr. eapply Scan_det; [apply matchAll_Scan|].
  rewrite splice_splice_at. rewrite <- (Nat.sub_0_r (index m)).
  apply Scan_splice_last; [|done]. rewrite <- Hms. apply matchAll_Scan.
Qed.

(** C2 (as amended). Whatever texts the resolver returns, after the later
    regions [ms2] were spliced in descending order the buffer still holds
    every earlier region [m] of [ms1] at [m.index]; and when no resolved
    text holds an ours marker, the script's result is the result of the
    oracle that parses the buffer again after every splice. *)
Theorem descending_splice_law content :
  (∀ ms1 ms2 resolved,
     matchAll conflictRegex content = ms1 ++ ms2 →
     Forall (λ m,
       take (length (capture m 0))
            (drop (index m) (splice_all (reverse ms2) resolved content))
       = capture m 0) ms1)
  ∧ (∀ resolved,
       length resolved = length (matchAll conflictRegex content) →
       Forall inert resolved →
       resolve_descending content resolved = reparse_oracle resolved content).
Proof.
  split.
  - intros ms1 ms2 rs Hms. apply Forall_forall. intros m Hm.
    pose proof (matchAll_Scan content) as HS. rewrite Hms in HS.
    destruct (Scan_block_at _ _ m HS) as [Hblk Hend].
    { apply elem_of_app. by left. }
    rewrite take_drop_commute, splice_all_take; [|  |done].
    + by rewrite <- take_drop_commute.
    + intros m' Hm'. rewrite elem_of_reverse in Hm'.
      pose proof (Scan_after _ _ _ _ m m' HS Hm Hm'). lia.
  - intros rs. revert content. induction rs as [|r rs IH]; intros content Hlen Hin.
    + unfold resolve_descending. by destruct (reverse _).
    + destruct (matchAll conflictRegex content) as [|m ms _] eqn:Hms using rev_ind;
        [done|].
      rewrite length_app in Hlen. simpl in Hlen.
      apply Forall_cons in Hin as [Hr Hin].
      pose proof (matchAll_splice_last _ _ _ r Hms Hr) as Hre.
      unfold resolve_descending. rewrite Hms, reverse_snoc. simpl.
      rewrite Hms, last_snoc.
      rewrite <- IH; [|rewrite Hre; lia|done].
      unfold resolve_descending. by rewrite Hre.
Qed.

(** ** Files without conflict *)

Lemma matchAll_nil_iff text :
  matchAll conflictRegex text = [] ↔ ¬ has_triple text.
Proof.
  pose proof (matchAll_Scan text) as HS. split.
  - intros Hnil (pre & label & ours & theirs & post & _ & Ht).
    rewrite Hnil in HS. inversion HS as [? ? Hn|]; subst.
    specialize (Hn (length pre)). rewrite drop_app_length in Hn.
    change ([NL] ++ ?t) with (NL :: t) in Hn.
    destruct (find_conflict_complete label ours theirs post) as [c Hc].
    congruence.
  - intros Hno. destruct (matchAll conflictRegex text) as [|m ms]; [done|].
    exfalso. apply Hno.
    inversion HS as [|? ? k c ms' Hlt Hc Hrest]; subst.
    pose proof (find_conflict_Some _ _ Hc) as (Hs & Hl & _).
    exists (take k text), (c_label c), (c_ours c), (c_theirs c),
      (c_label2 c ++ c_rest c).
    split; [done|].
    rewrite <- (take_drop k text) at 1. rewrite Hs. unfold c_block.
    by rewrite <- !app_assoc.
Qed.

(** ** Lines and marker triples *)

Lemma split_lines_cons c s :
  split_lines (c :: s) =
  match split_lines s with
  | l :: ls => if N.eqb c NL then [] :: l :: ls else (c :: l) :: ls
  | [] => [[c]]
  end.
Proof. done. Qed.

Lemma split_lines_not_nil s : split_lines s ≠ [].
Proof.
  induction s as [|c s IH]; [done|]. rewrite split_lines_cons.
  destruct (split_lines s); [done|]. by destruct (N.eqb c NL).
Qed.

Lemma split_lines_app_nl a b :
  split_lines (a ++ NL :: b) = split_lines a ++ split_lines b.
Proof.
  induction a as [|c a IH].
  - simpl. pose proof (split_lines_not_nil b).
    by destruct (split_lines b).
  - rewrite <- app_comm_cons, !split_lines_cons, IH.
    pose proof (split_lines_not_nil a).
    destruct (split_lines a) as [|l ls]; [done|]. simpl.
    by destruct (N.eqb c NL).
Qed.

Lemma split_lines_line b : NL ∉ b → split_lines b = [b].
Proof.
  induction b as [|c b IH]; [done|].
  intros [Hc Hb]%not_elem_of_cons. rewrite split_lines_cons, IH by done.
  by destruct (N.eqb_spec c NL).
Qed.

Lemma split_lines_app_line a b :
  NL ∉ b →
  ∃ ls l, split_lines a = ls ++ [l] ∧ split_lines (a ++ b) = ls ++ [l ++ b].
Proof.
  intros Hb. induction a as [|c a (ls & l & Ha & Hab)].
  - exists [], []. split; [done|]. simpl. by apply split_lines_line.
  - rewrite <- app_comm_cons, !split_lines_cons, Ha, Hab.
    destruct ls as [|l0 ls]; simpl.
    + destruct (N.eqb c NL).
      * by exists [[]], l.
      * by exists [], (c :: l).
    + destruct (N.eqb c NL).
      * by exists ([] :: l0 :: ls), l.
      * by exists ((c :: l0) :: ls), l.
Qed.

Lemma split_lines_prefix p s :
  NL ∉ p → ∃ l ls, split_lines (p ++ s) = (p ++ l) :: ls.
Proof.
  intros Hp. induction p as [|c p IH].
  - simpl. pose proof (split_lines_not_nil s).
    destruct (split_lines s) as [|l ls]; [done|]. by exists l, ls.
  - apply not_elem_of_cons in Hp as [Hc Hp].
    destruct (IH Hp) as (l & ls & Hl).
    rewrite <- app_comm_cons, split_lines_cons, Hl.
    destruct (N.eqb_spec c NL); [done|]. by exists l, ls.
Qed.

Lemma lookup_three {A} (X1 X2 X3 X4 : list A) a b c :
  (X1 ++ a :: X2 ++ b :: X3 ++ c :: X4) !! length X1 = Some a
  ∧ (X1 ++ a :: X2 ++ b :: X3 ++ c :: X4) !! (length X1 + 1 + length X2)
    = Some b
  ∧ (X1 ++ a :: X2 ++ b :: X3 ++ c :: X4)
      !! (length X1 + 1 + length X2 + 1 + length X3) = Some c.
Proof.
  split; [by apply list_lookup_middle|]. split.
  - rewrite lookup_app_r by lia.
    replace (length X1 + 1 + length X2 - length X1) with (S (length X2)) by lia.
    change ((?x :: ?l) !! S ?n) with (l !! n). by apply list_lookup_middle.
  - rewrite lookup_app_r by lia.
    replace (length X1 + 1 + length X2 + 1 + length X3 - length X1)
      with (S (length X2 + 1 + length X3)) by lia.
    change ((?x :: ?l) !! S ?n) with (l !! n). rewrite lookup_app_r by lia.
    replace (length X2 + 1 + length X3 - length X2) with (S (length X3)) by lia.
    change ((?x :: ?l) !! S ?n) with (l !! n). by apply list_lookup_middle.
Qed.

(** Where the pattern is found and the ours marker stands at the start of
    its line, there is a triple. *)
Lemma has_triple_marker_triple text :
  has_triple text → markers_at_line_start text → marker_triple text.
Proof.
  intros (pre & label & ours & theirs & post & Hlabel & ->) Hstart.
  assert (NL ∉ OPEN ++ label) as Hnl.
  { rewrite elem_of_app. intros [H|H]; [|done]. vm_compute in H.
    apply list_elem_of_In in H. simpl in H. intuition discriminate. }
  destruct (split_lines_app_line pre (OPEN ++ label) Hnl) as (ls & l & Hpre & Hl1).
  destruct (split_lines_prefix (js ">>>>>>>") post) as (l3 & ls3 & Hl3).
  { intros H. vm_compute in H.
    apply list_elem_of_In in H. simpl in H. intuition discriminate. }
  assert (split_lines (pre ++ OPEN ++ label ++ [NL] ++ ours ++ SEP ++ theirs
                       ++ CLOSE ++ post)
          = ls ++ (l ++ OPEN ++ label) :: (split_lines ours)
            ++ js "=======" :: split_lines theirs
            ++ (js ">>>>>>>" ++ l3) :: ls3) as Hlines.
  { assert (pre ++ OPEN ++ label ++ [NL] ++ ours ++ SEP ++ theirs
                ++ CLOSE ++ post
            = (pre ++ OPEN ++ label) ++ NL :: ours ++ NL :: js "=======" ++ NL
              :: theirs ++ NL :: js ">>>>>>>" ++ post) as ->.
    { change SEP with ([NL] ++ js "=======" ++ [NL]).
      change CLOSE with ([NL] ++ js ">>>>>>>").
      rewrite <- !app_assoc. reflexivity. }
    rewrite !split_lines_app_nl, Hl1, Hl3.
    rewrite (split_lines_line (js "=======")).
    2:{ intros H. vm_compute in H.
        apply list_elem_of_In in H. simpl in H. intuition discriminate. }
    rewrite <- !app_assoc. reflexivity. }
  exists (length ls), (length ls + 1 + length (split_lines ours)),
    (length ls + 1 + length (split_lines ours) + 1 + length (split_lines theirs)),
    (l ++ OPEN ++ label), (js ">>>>>>>" ++ l3).
  split; [lia|]. split; [lia|]. rewrite Hlines.
  destruct (lookup_three ls (split_lines ours) (split_lines theirs) ls3
              (l ++ OPEN ++ label) (js "=======") (js ">>>>>>>" ++ l3))
    as (H1 & H2 & H3).
  split; [done|]. split.
  { apply (Hstart _ l label); [|done]. rewrite Hlines.
    apply elem_of_app. right. by left. }
  split; [done|]. split; [done|]. by eexists.
Qed.

Lemma no_start_no_triple text :
  Forall (λ l, ¬ js "<<<<<<<" `prefix_of` l) (split_lines text) →
  ¬ marker_triple text.
Proof.
  intros Hall (i & j & k & l1 & l3 & _ & _ & H1 & Hp & _).
  by apply (proj1 (Forall_lookup _ _) Hall i l1 H1).
Qed.

Lemma no_end_no_triple text :
  Forall (λ l, ¬ js ">>>>>>>" `prefix_of` l) (split_lines text) →
  ¬ marker_triple text.
Proof.
  intros Hall (i & j & k & l1 & l3 & _ & _ & _ & _ & _ & H3 & Hp).
  by apply (proj1 (Forall_lookup _ _) Hall k l3 H3).
Qed.

(** ** Scenarios *)

Section NoConflict.
Variable env : Env.

(** C1 (as amended). For a plain file whose text holds no marker triple
    and the ours marker at the start of lines only, the parser returns no
    region and [resolveConflictsInFile] returns after the read, with no
    request and no write; the loop of [main] then goes on to stage the
    file with [git add]. *)
Theorem no_conflict_file file rest content flag w :
  ¬ marker_triple content →
  markers_at_line_start content →
  files w !! file = Some (File content) →
  let w_read := log (EvRead file) (log (EvStat file) w) in
  let w_staged := log (EvExec (js "git add " ++ file)) w_read in
  matchAll conflictRegex content = []
  ∧ resolveConflictsInFile env file (log (EvStat file) w) = (Return (), w_read)
  ∧ main_loop env (file :: rest) flag w =
      match execSync env (js "git add " ++ file) with
      | Some _ => main_loop env rest flag w_staged
      | None => (Throw (ErrCommand (js "git add " ++ file)), w_staged)
      end.
Proof.
  intros Hno Hstart Hfile w_read w_staged.
  assert (matchAll conflictRegex content = []) as Hnil.
  { apply matchAll_nil_iff. intros Ht. apply Hno.
    by apply has_triple_marker_triple. }
  assert (Hres : resolveConflictsInFile env file (log (EvStat file) w)
                 = (Return (), w_read)).
  { unfold resolveConflictsInFile.
    erewrite bind_return by (by apply readFile_file). by rewrite Hnil. }
  split; [done|]. split; [done|].
  cbn [main_loop]. erewrite bind_return by (by eapply stat_file).
  cbv beta iota. erewrite bind_return by exact Hres.
  cbv beta. rewrite bind_run. unfold runCommand. rewrite bind_run.
  unfold emit. by destruct (execSync env (js "git add " ++ file)).
Qed.
End NoConflict.


(** ** The scenarios of the specification *)

(** C7. The scenario text parses to one region with ours [foo] and theirs
    [bar]; splicing [baz] gives the expected text, and so does a whole run
    against a service that answers [baz]: the file is rewritten once and
    staged. *)
Theorem scenario_single_region :
  (∃ m, matchAll conflictRegex scenario_text = [m]
        ∧ capture m 1 = js "foo"
        ∧ capture m 2 = js "bar"
        ∧ splice scenario_text m (js "baz") = js "a\nbaz\nb\n")
  ∧ resolve_descending scenario_text [js "baz"] = js "a\nbaz\nb\n"
  ∧ ∃ w, run env_ok [js "file.txt"] (world_of demo_files) = (ExitSuccess, w)
         ∧ files w !! js "file.txt" = Some (File (js "a\nbaz\nb\n"))
         ∧ filter (λ e, net_event e = false) (trace w) =
             [EvStat (js "file.txt"); EvRead (js "file.txt");
              EvWrite (js "file.txt") (js "a\nbaz\nb\n");
              EvExec (js "git add file.txt")].
Proof.
  split; [|split].
  - eexists. split; [vm_compute; reflexivity|]. by vm_compute.
  - by vm_compute.
  - eexists. split; [vm_compute; reflexivity|]. by vm_compute.
Qed.

(** C1, as stated, fails twice.  A plain file without any marker is
    staged.  And a text without a triple, where no line starts with the
    ours marker, has a region for the parser when the marker stands inside
    a line: the file is then rewritten. *)
Lemma zero_triples_staged_or_parsed :
  (¬ marker_triple (js "hello\n")
   ∧ files (world_of demo_files) !! js "plain.txt" = Some (File (js "hello\n"))
   ∧ EvExec (js "git add plain.txt")
       ∈ trace (run env_ok [js "plain.txt"] (world_of demo_files)).2)
  ∧ (¬ marker_triple (js "see <<<<<<< below\nfoo\n=======\nbar\n>>>>>>> b\n")
     ∧ ∃ m, matchAll conflictRegex
              (js "see <<<<<<< below\nfoo\n=======\nbar\n>>>>>>> b\n") = [m]
            ∧ splice (js "see <<<<<<< below\nfoo\n=======\nbar\n>>>>>>> b\n")
                m (js "baz") = js "see baz\n").
Proof.
  split; [split; [|split]|split].
  - apply no_start_no_triple. apply (bool_decide_unpack _). by vm_compute.
  - by vm_compute.
  - vm_compute. apply list_elem_of_In. simpl. tauto.
  - apply no_start_no_triple. apply (bool_decide_unpack _). by vm_compute.
  - eexists. split; [vm_compute; reflexivity|]. by vm_compute.
Qed.

Lemma no_conflict_file_witness :
  matchAll conflictRegex truncated_text = []
  ∧ resolveConflictsInFile env_ok (js "cut.txt")
      (log (EvStat (js "cut.txt"))
         (world_of {[ js "cut.txt" := File truncated_text ]}))
    = (Return (),
       log (EvRead (js "cut.txt"))
         (log (EvStat (js "cut.txt"))
            (world_of {[ js "cut.txt" := File truncated_text ]}))).
Proof.
  pose proof (no_conflict_file env_ok (js "cut.txt") [] truncated_text false
    (world_of {[ js "cut.txt" := File truncated_text ]})) as H.
  destruct H as (H1 & H2 & _).
  - apply no_end_no_triple. apply (bool_decide_unpack _). vm_compute. reflexivity.
  - intros l a b Hl Heq.
    assert (l = js "<<<<<<< HEAD") as ->; [|by eexists].
    vm_compute in Hl. apply list_elem_of_In in Hl. simpl in Hl.
    assert (LESS ∈ l) as Hless.
    { rewrite Heq. apply elem_of_app. right. apply elem_of_app. left. by left. }
    destruct Hl as [<-|[<-|[<-|[<-|[<-|[]]]]]]; try reflexivity;
      exfalso; apply list_elem_of_In in Hless; simpl in Hless;
      unfold LESS in Hless; intuition discriminate.
  - vm_compute. reflexivity.
  - split; [exact H1|exact H2].
Defined.

(** C2, as stated, fails: a resolved text that is itself a conflict block
    is found by the oracle when it parses again, and not by the script. *)
Lemma oracle_differs :
  let resolved := [js "<<<<<<< A\nx\n=======\ny\n>>>>>>> B"; js "z"] in
  length resolved = length (matchAll conflictRegex two_regions)
  ∧ resolve_descending two_regions resolved
    = js "z\nmid\n<<<<<<< A\nx\n=======\ny\n>>>>>>> B\n"
  ∧ reparse_oracle resolved two_regions
    = js "<<<<<<< A\none\n=======\nuno\n>>>>>>> B\nmid\nz\n"
  ∧ resolve_descending two_regions resolved ≠ reparse_oracle resolved two_regions.
Proof.
  split; [by vm_compute|]. split; [by vm_compute|]. split; [by vm_compute|].
  by vm_compute.
Qed.

Lemma descending_splice_law_witness :
  resolve_descending two_regions [js "<div>dos</div>"; js "<<<<<< one"]
  = reparse_oracle [js "<div>dos</div>"; js "<<<<<< one"] two_regions.
Proof.
  apply (proj2 (descending_splice_law two_regions)).
  - vm_compute. reflexivity.
  - repeat constructor; vm_compute; reflexivity.
Defined.

Lemma callGeminiAPI_retry_law_witness :
  callGeminiAPI env_retry (request_payload (js "p")) (world_of demo_files)
  = (Return (answer (js "baz")),
     {| files := demo_files; requests := 3;
        trace := [EvRequest (request_payload (js "p")); EvDelay 1000;
                  EvRequest (request_payload (js "p")); EvDelay 2000;
                  EvRequest (request_payload (js "p"))] |})
  ∧ callGeminiAPI env_down (request_payload (js "p")) (world_of demo_files)
  = (Throw (ErrStatus 503 (js "busy")),
     {| files := demo_files; requests := 3;
        trace := [EvRequest (request_payload (js "p")); EvDelay 1000;
                  EvRequest (request_payload (js "p")); EvDelay 2000;
                  EvRequest (request_payload (js "p"))] |}).
Proof.
  split.
  - apply (proj1 (proj2 (callGeminiAPI_retry_law env_retry
             (request_payload (js "p")) (world_of demo_files))
             (ErrStatus 503 (js "busy")) (ErrStatus 503 (js "busy"))
             eq_refl eq_refl)
           200%Z (json_answer (js "baz")) (answer (js "baz"))).
    + vm_compute. reflexivity.
    + lia.
    + vm_compute. reflexivity.
  - apply (proj1 (proj2 (proj2 (callGeminiAPI_retry_law env_down
             (request_payload (js "p")) (world_of demo_files))
             (ErrStatus 503 (js "busy")) (ErrStatus 503 (js "busy"))
             eq_refl eq_refl))
           (ErrStatus 503 (js "busy"))).
    vm_compute. reflexivity.
Defined.

Lemma getGeminiResolution_response_witness :
  getGeminiResolution env_partial (js "two") (js "dos") (js "two.txt")
    {| files := demo_files; requests := 1; trace := [] |}
  = (Throw ErrExtract,
     {| files := demo_files; requests := 2;
        trace := [EvRequest (request_payload
                    (prompt (js "two") (js "dos") (js "two.txt")))] |})
  ∧ getGeminiResolution env_ok (js "two") (js "dos") (js "two.txt")
      (world_of demo_files)
  = (Return (js "baz"),
     {| files := demo_files; requests := 1;
        trace := [EvRequest (request_payload
                    (prompt (js "two") (js "dos") (js "two.txt")))] |}).
Proof.
  split.
  - apply (getGeminiResolution_response env_partial (js "two") (js "dos")
             (js "two.txt") {| files := demo_files; requests := 1; trace := [] |}
             (VObject [])).
    + vm_compute. reflexivity.
    + intros s. vm_compute. discriminate.
  - apply (proj2 (proj2 (getGeminiResolution_response env_ok (js "two") (js "dos")
             (js "two.txt") (world_of demo_files) (answer (js "baz")) _
             ltac:(vm_compute; reflexivity))) (js "baz")).
    vm_compute. reflexivity.
Defined.

Lemma unparsable_answer_escapes_witness :
  getGeminiResolution env_garbled (js "two") (js "dos") (js "two.txt")
    (world_of demo_files)
  = (Fatal (ErrSyntax (js "<html>")),
     {| files := demo_files; requests := 1;
        trace := [EvRequest (request_payload
                    (prompt (js "two") (js "dos") (js "two.txt")))] |}).
Proof.
  apply (unparsable_answer_escapes env_garbled (js "two") (js "dos")
           (js "two.txt") (world_of demo_files) 200%Z (js "<html>")).
  - vm_compute. reflexivity.
  - lia.
  - vm_compute. reflexivity.
Defined.

Lemma region_failure_aborts_witness :
  ∃ w2,
    run env_partial [js "two.txt"; js "file.txt"] (world_of demo_files)
      = (ExitFailure, w2)
    ∧ files w2 = demo_files
    ∧ trace w2 =
        [EvStat (js "two.txt"); EvRead (js "two.txt");
         EvRequest (request_payload (prompt (js "two") (js "dos") (js "two.txt")));
         EvRequest (request_payload (prompt (js "one") (js "uno") (js "two.txt")))].
Proof.
  edestruct (region_failure_aborts env_partial [] (js "two.txt") [js "file.txt"]
    two_regions [region two_regions 1] (region two_regions 0) []
    (world_of demo_files) false (world_of demo_files))
    as (_ & Hrun & Hfiles & _).
  - reflexivity.
  - vm_compute. reflexivity.
  - vm_compute. reflexivity.
  - match goal with |- ?l = _ => let v := eval vm_compute in l in change l with v end.
    reflexivity.
  - match goal with |- ?l = _ => let v := eval vm_compute in l in change l with v end.
    reflexivity.
  - eexists. split; [exact Hrun|]. split; [exact Hfiles|]. vm_compute. reflexivity.
Defined.



(** The scenario [dirA, file.txt]: the directory is warned about, the file
    is resolved, written and staged, and the run still fails. *)
Example scenario_directory_and_file :
  ∃ w, run env_ok [js "dirA"; js "file.txt"] (world_of demo_files)
         = (ExitFailure, w)
       ∧ files w !! js "file.txt" = Some (File (js "a\nbaz\nb\n"))
       ∧ filter (λ e, net_event e = false) (trace w) =
           [EvStat (js "dirA"); EvWarnSubmodule (js "dirA");
            EvStat (js "file.txt"); EvRead (js "file.txt");
            EvWrite (js "file.txt") (js "a\nbaz\nb\n");
            EvExec (js "git add file.txt")].
Proof.
  eexists. split; [vm_compute; reflexivity|]. by vm_compute.
Qed.

Lemma missing_path_aborts_witness :
  run env_ok [js "gone.txt"; js "file.txt"] (world_of demo_files)
  = (ExitFailure, log (EvStat (js "gone.txt")) (world_of demo_files)).
Proof.
  apply (proj2 (missing_path_aborts env_ok [] (js "gone.txt") [js "file.txt"]
           (world_of demo_files) false (world_of demo_files) eq_refl
           ltac:(vm_compute; reflexivity))).
Defined.

(** C4. A block whose ours variant has no line is not recognised: the
    parser returns no region for a text that holds one block; and when
    another block follows, one region swallows both. *)
Theorem empty_variant_not_parsed :
  matchAll conflictRegex (marker_block (js " HEAD") [] [js "bar"] (js " b")) = []
  ∧ matchAll conflictRegex (marker_block (js " HEAD") [js "foo"] [] (js " b")) = []
  ∧ ∃ m, matchAll conflictRegex
           (marker_block (js " A") [] [js "x"] (js " B")
            ++ marker_block (js " A") [js "y"] [js "z"] (js " B")) = [m]
         ∧ capture m 1 = js "=======\nx\n>>>>>>> B\n<<<<<<< A\ny"
         ∧ capture m 2 = js "z".
Proof.
  split; [by vm_compute|]. split; [by vm_compute|].
  eexists. split; [vm_compute; reflexivity|]. by vm_compute.
Qed.

(** C9. The ours marker is looked for anywhere in a line: here the region
    starts at index 4, after a blank, and takes the real marker line into
    the ours variant. *)
Theorem region_starts_inside_line :
  let text := js "see <<<<<<< below\n<<<<<<< HEAD\nfoo\n=======\nbar\n>>>>>>> b\n" in
  ∃ m, matchAll conflictRegex text = [m]
       ∧ index m = 4
       ∧ text !! 3 = Some 32%N
       ∧ capture m 1 = js "<<<<<<< HEAD\nfoo"
       ∧ splice text m (js "baz") = js "see baz\n".
Proof.
  eexists. split; [vm_compute; reflexivity|]. by vm_compute.
Qed.

(** The text that follows the ours marker on its line is a label: it
    changes neither whether a block is read nor what the variants are. *)
Lemma label_ignored l1 l2 rest :
  NL ∉ l1 → NL ∉ l2 →
  (λ c, (c_ours c, c_theirs c, c_label2 c, c_rest c))
    <$> find_conflict (OPEN ++ l1 ++ NL :: rest)
  = (λ c, (c_ours c, c_theirs c, c_label2 c, c_rest c))
    <$> find_conflict (OPEN ++ l2 ++ NL :: rest).
Proof.
  intros H1 H2. unfold find_conflict. rewrite !lit_m_app. osimpl.
  rewrite !line_rest_app by done. osimpl.
  destruct (lit_m [NL] (NL :: rest)) as [s3|]; osimpl; [|done].
  destruct (split_at SEP s3) as [[o b]|]; osimpl; [|done].
  by destruct (split_at CLOSE b) as [[t b2]|].
Qed.

(** * Further properties *)

(** ** The listing of conflicted paths *)

Lemma is_space_NL : is_space NL = true.
Proof. reflexivity. Qed.

Lemma trim_start_id s :
  (∀ c, head s = Some c → is_space c = false) → trim_start s = s.
Proof.
  destruct s as [|c s]; [done|]. simpl. intros H. by rewrite (H c eq_refl).
Qed.

Lemma trim_start_blank s :
  Forall (λ c, is_space c = true) s → trim_start s = [].
Proof. induction 1 as [|c s Hc _ IH]; simpl; [done|]. by rewrite Hc. Qed.

Lemma trim_blank s : Forall (λ c, is_space c = true) s → trim s = [].
Proof. intros H. unfold trim. by rewrite (trim_start_blank s H). Qed.


Lemma trim_final_newline s :
  s ≠ [] →
  (∀ c, head s = Some c → is_space c = false) →
  (∀ c, last s = Some c → is_space c = false) →
  trim (s ++ [NL]) = s.
Proof.
  intros Hne Hh Hl. unfold trim.
  rewrite (trim_start_id (s ++ [NL])).
  2:{ intros c Hc. destruct s as [|x s]; [done|]. apply Hh. exact Hc. }
  rewrite reverse_snoc. cbn [trim_start]. rewrite is_space_NL.
  rewrite (trim_start_id (reverse s)); [by rewrite reverse_involutive|].
  intros c. rewrite head_reverse. apply Hl.
Qed.

Lemma filter_all {A} (P : A → Prop) `{∀ x, Decision (P x)} (l : list A) :
  Forall P l → filter P l = l.
Proof.
  induction 1 as [|x l Hx _ IH]; [done|].
  by rewrite filter_cons_True, IH.
Qed.

Lemma trim_not_blank s :
  ¬ Forall (λ c, is_space c = true) s →
  ∃ c t, trim s = c :: t ∧ is_space c = false.
Proof.
  intros Hnb. destruct (trim_spec s) as (pre & post & Hs & Hpre & Hpost & Hh & _).
  destruct (trim s) as [|c t] eqn:Ht.
  - exfalso. apply Hnb. rewrite Hs. simpl. by apply Forall_app.
  - exists c, t. split; [done|]. by apply Hh.
Qed.

Lemma split_lines_no_newline s : Forall (λ l, NL ∉ l) (split_lines s).
Proof.
  induction s as [|c s IH]; simpl.
  - repeat constructor. apply not_elem_of_nil.
  - pose proof (split_lines_not_nil s).
    destruct (split_lines s) as [|l ls]; [done|].
    apply Forall_cons in IH as [Hl Hls].
    destruct (N.eqb_spec c NL) as [->|Hne].
    + repeat constructor; [apply not_elem_of_nil|done..].
    + constructor; [|done]. rewrite not_elem_of_cons. split; [congruence|done].
Qed.

(** The first line of a text that starts with a character other than a
    line feed is not empty. *)
Lemma split_lines_head c s :
  c ≠ NL → ∃ l ls, split_lines (c :: s) = (c :: l) :: ls.
Proof.
  intros Hc. rewrite split_lines_cons.
  pose proof (split_lines_not_nil s).
  destruct (split_lines s) as [|l ls]; [done|].
  destruct (N.eqb_spec c NL); [done|]. by eexists _, _.
Qed.

Lemma split_join ps :
  ps ≠ [] → Forall (λ p, NL ∉ p) ps → split_lines (join_lines ps) = ps.
Proof.
  induction ps as [|p ps IH]; [done|]. intros _ Hall.
  apply Forall_cons in Hall as [Hp Hps].
  destruct ps as [|p' ps].
  - simpl. clear IH Hps. induction p as [|c p IHp]; [done|].
    apply not_elem_of_cons in Hp as [Hc Hp].
    rewrite split_lines_cons, (IHp Hp).
    by destruct (N.eqb_spec c NL).
  - specialize (IH ltac:(done) Hps).
    change (join_lines (p :: p' :: ps)) with (p ++ NL :: join_lines (p' :: ps)).
    induction p as [|c p IHp].
    + cbn [app]. rewrite split_lines_cons, IH.
      by rewrite N.eqb_refl.
    + apply not_elem_of_cons in Hp as [Hc Hp].
      cbn [app]. rewrite split_lines_cons, (IHp Hp).
      by destruct (N.eqb_spec c NL).
Qed.

Section Listing.
Variable env : Env.

(** X1. With the key set and [git diff] printing [out]: when [out] is
    blank, [main] ends with success after that one command; otherwise it
    runs the loop on a list of paths that is not empty and whose paths are
    not empty and hold no line feed. *)
Theorem main_listing key out w :
  key ≠ [] →
  execSync env (js "git diff --name-only --diff-filter=U") = Some out →
  let w1 := log (EvExec (js "git diff --name-only --diff-filter=U")) w in
  (Forall (λ c, is_space c = true) out →
   main env (Some key) w = (ExitSuccess, w1))
  ∧ (¬ Forall (λ c, is_space c = true) out →
     ∃ conflictedFiles,
       conflictedFiles ≠ []
       ∧ Forall (λ p, p ≠ [] ∧ NL ∉ p) conflictedFiles
       ∧ main env (Some key) w = run env conflictedFiles w1).
Proof.
  intros Hkey Hexec w1.
  assert (Hcmd : runCommand env (js "git diff --name-only --diff-filter=U") w
                 = (Return (trim out), w1)).
  { unfold runCommand. rewrite bind_run. unfold emit. by rewrite Hexec. }
  split.
  - intros Hblank. unfold main. destruct key; [done|].
    rewrite Hcmd, (trim_blank out Hblank). reflexivity.
  - intros Hnb. destruct (trim_not_blank out Hnb) as (c & t & Ht & Hc).
    assert (c ≠ NL) as HcNL by (intros ->; by rewrite is_space_NL in Hc).
    destruct (split_lines_head c t HcNL) as (l & ls & Hsplit).
    exists (filter (λ l, l ≠ []) (split_lines (trim out))).
    assert (filter (λ l, l ≠ []) (split_lines (trim out)) ≠ []) as Hne.
    { rewrite Ht, Hsplit. by rewrite filter_cons_True. }
    split; [done|]. split.
    + apply Forall_forall. intros p [Hp Hin]%list_elem_of_filter.
      split; [done|].
      by eapply (proj1 (Forall_forall _ _) (split_lines_no_newline (trim out))).
    + unfold main. destruct key; [done|]. rewrite Hcmd. cbv zeta.
      case_decide as Hlen; [|done].
      destruct (filter _ _); [done|]. done.
Qed.

(** X2. When [git diff] prints the paths [ps], one per line, [main] runs
    the loop on exactly [ps], provided the first path does not begin and
    the last path does not end with white space (which [trim] strips). *)
Theorem main_runs_listed_paths key ps w :
  key ≠ [] →
  ps ≠ [] →
  Forall (λ p, p ≠ [] ∧ NL ∉ p) ps →
  (∀ c, head (join_lines ps) = Some c → is_space c = false) →
  (∀ c, last (join_lines ps) = Some c → is_space c = false) →
  execSync env (js "git diff --name-only --diff-filter=U")
    = Some (join_lines ps ++ [NL]) →
  main env (Some key) w
  = run env ps (log (EvExec (js "git diff --name-only --diff-filter=U")) w).
Proof.
  intros Hkey Hps Hall Hh Hl Hexec.
  assert (join_lines ps ≠ []) as Hj.
  { destruct ps as [|p [|p' ps]]; [done| |].
    - apply Forall_cons in Hall as [[? _] _]. done.
    - apply Forall_cons in Hall as [[? _] _]. simpl. by destruct p. }
  assert (Hcmd : runCommand env (js "git diff --name-only --diff-filter=U") w
                 = (Return (trim (join_lines ps ++ [NL])),
                    log (EvExec (js "git diff --name-only --diff-filter=U")) w)).
  { unfold runCommand. rewrite bind_run. unfold emit. by rewrite Hexec. }
  unfold main. destruct key; [done|]. rewrite Hcmd. cbv zeta.
  rewrite (trim_final_newline _ Hj Hh Hl).
  rewrite split_join; [|done|by eapply Forall_impl; [exact Hall|intros ? []]].
  rewrite filter_all by (by eapply Forall_impl; [exact Hall|intros ? []]).
  case_decide as Hlen; [by destruct ps|done].
Qed.
End Listing.

(** ** More on the retry loop *)

Lemma delays_of_app t1 t2 : delays_of (t1 ++ t2) = delays_of t1 ++ delays_of t2.
Proof. apply omap_app. Qed.

Lemma requests_of_app t1 t2 :
  requests_of (t1 ++ t2) = requests_of t1 ++ requests_of t2.
Proof. apply omap_app. Qed.

Lemma after_rejections_spec payload i k w :
  files (after_rejections payload i k w) = files w
  ∧ requests (after_rejections payload i k w) = requests w + k
  ∧ ∃ t, trace (after_rejections payload i k w) = trace w ++ t
         ∧ delays_of t = (λ j, 1000 * 2 ^ Z.of_nat j)%Z <$> seq i k
         ∧ requests_of t = replicate k payload.
Proof.
  revert i w. induction k as [|k IH]; intros i w; simpl.
  - split; [done|]. split; [lia|]. exists []. by rewrite app_nil_r.
  - destruct (IH (S i) (log (EvDelay (1000 * 2 ^ Z.of_nat i))
        {| files := files w; requests := S (requests w);
           trace := trace w ++ [EvRequest payload] |}))
      as (Hf & Hr & t & Ht & Hd & Hq).
    split; [done|]. split; [simpl in Hr; lia|].
    exists ([EvRequest payload; EvDelay (1000 * 2 ^ Z.of_nat i)] ++ t).
    split; [|split].
    + rewrite Ht. simpl. by rewrite <- !app_assoc.
    + rewrite delays_of_app, Hd. done.
    + rewrite requests_of_app, Hq. done.
Qed.

Section RetryMore.
Variable env : Env.

Lemma callGeminiAPI_loop_skip left i k payload w :
  i + left = MAX_RETRIES → k < left →
  (∀ j, j < k →
     is_Some (rejection (https_request env (requests w + j) payload))) →
  callGeminiAPI_loop env left i payload w
  = callGeminiAPI_loop env (left - k) (i + k) payload
      (after_rejections payload i k w).
Proof.
  revert left i w. induction k as [|k IH]; intros left i w Hi Hk Hrej.
  - simpl. by rewrite Nat.sub_0_r, Nat.add_0_r.
  - destruct left as [|left]; [lia|].
    destruct (Hrej 0 ltac:(lia)) as [e He]. rewrite Nat.add_0_r in He.
    cbn [callGeminiAPI_loop after_rejections].
    erewrite try_catch_throw by (by apply https_post_reject).
    case_decide as Hlast; [unfold MAX_RETRIES in *; lia|].
    rewrite bind_run. unfold sleep, emit.
    rewrite (IH left (S i)); [|lia|lia|].
    + f_equal; lia.
    + intros j Hj. specialize (Hrej (S j) ltac:(lia)).
      cbn [log requests]. by replace (S (requests w) + j) with (requests w + S j) by lia.
Qed.

(** X3. An attempt answered with a 2xx status and a body that parses,
    after [k < 3] rejected attempts, makes [callGeminiAPI] return the
    parsed body: [k + 1] requests were sent, all with the same payload, and
    the delays waited are [1000 * 2^j] for [j < k], none when the first
    attempt succeeds. *)
Theorem callGeminiAPI_succeeds_after payload w k sc data v :
  k < MAX_RETRIES →
  (∀ j, j < k →
     is_Some (rejection (https_request env (requests w + j) payload))) →
  https_request env (requests w + k) payload = Response sc data →
  (200 ≤ sc ∧ sc < 300)%Z →
  JSON_parse env data = Some v →
  ∃ t,
    callGeminiAPI env payload w
    = (Return v, {| files := files w; requests := requests w + k + 1;
                    trace := trace w ++ t |})
    ∧ delays_of t = (λ j, 1000 * 2 ^ Z.of_nat j)%Z <$> seq 0 k
    ∧ requests_of t = replicate (S k) payload.
Proof.
  intros Hk Hrej Ho Hsc Hp. unfold callGeminiAPI.
  rewrite (callGeminiAPI_loop_skip MAX_RETRIES 0 k) by done.
  destruct (after_rejections_spec payload 0 k w) as (Hf & Hr & t & Ht & Hd & Hq).
  destruct (MAX_RETRIES - k) as [|left] eqn:Hleft; [lia|].
  cbn [callGeminiAPI_loop].
  erewrite try_catch_return.
  2:{ eapply https_post_resolve; [|done..]. by rewrite Hr. }
  exists (t ++ [EvRequest payload]). split; [|split].
  - f_equal. rewrite Hf, Hr, Ht. f_equal; [lia|]. by rewrite app_assoc.
  - rewrite delays_of_app, Hd. simpl. by rewrite app_nil_r.
  - rewrite requests_of_app, Hq. simpl.
    by rewrite <- replicate_cons_app.
Qed.

(** X4. A 2xx answer whose body [JSON.parse] rejects is neither retried
    nor caught, although attempts are left: the exception leaves the
    ['end'] listener and ends the process, after [k + 1] requests. *)
Theorem callGeminiAPI_unparsable_body payload w k sc data :
  k < MAX_RETRIES →
  (∀ j, j < k →
     is_Some (rejection (https_request env (requests w + j) payload))) →
  https_request env (requests w + k) payload = Response sc data →
  (200 ≤ sc ∧ sc < 300)%Z →
  JSON_parse env data = None →
  ∃ t,
    callGeminiAPI env payload w
    = (Fatal (ErrSyntax data),
       {| files := files w; requests := requests w + k + 1;
          trace := trace w ++ t |})
    ∧ delays_of t = (λ j, 1000 * 2 ^ Z.of_nat j)%Z <$> seq 0 k
    ∧ requests_of t = replicate (S k) payload.
Proof.
  intros Hk Hrej Ho Hsc Hp. unfold callGeminiAPI.
  rewrite (callGeminiAPI_loop_skip MAX_RETRIES 0 k) by done.
  destruct (after_rejections_spec payload 0 k w) as (Hf & Hr & t & Ht & Hd & Hq).
  destruct (MAX_RETRIES - k) as [|left] eqn:Hleft; [lia|].
  cbn [callGeminiAPI_loop]. unfold try_catch, https_post.
  rewrite Hr, Ho. case_decide; [|done]. rewrite Hp.
  exists (t ++ [EvRequest payload]). split; [|split].
  - f_equal. rewrite Hf, Ht. f_equal; [lia|]. by rewrite app_assoc.
  - rewrite delays_of_app, Hd. simpl. by rewrite app_nil_r.
  - rewrite requests_of_app, Hq. simpl.
    by rewrite <- replicate_cons_app.
Qed.
(** X22. An attempt that is never answered is not retried, whatever
    attempts are left: [callGeminiAPI] stays on its [await], after [k + 1]
    requests and the delays of the [k] rejected attempts before it. *)
Theorem callGeminiAPI_unanswered payload w k :
  k < MAX_RETRIES →
  (∀ j, j < k →
     is_Some (rejection (https_request env (requests w + j) payload))) →
  https_request env (requests w + k) payload = Unsettled →
  ∃ t,
    callGeminiAPI env payload w
    = (Pending,
       {| files := files w; requests := requests w + k + 1;
          trace := trace w ++ t |})
    ∧ delays_of t = (λ j, 1000 * 2 ^ Z.of_nat j)%Z <$> seq 0 k
    ∧ requests_of t = replicate (S k) payload.
Proof.
  intros Hk Hrej Ho. unfold callGeminiAPI.
  rewrite (callGeminiAPI_loop_skip MAX_RETRIES 0 k) by done.
  destruct (after_rejections_spec payload 0 k w) as (Hf & Hr & t & Ht & Hd & Hq).
  destruct (MAX_RETRIES - k) as [|left] eqn:Hleft; [lia|].
  cbn [callGeminiAPI_loop]. unfold try_catch, https_post.
  rewrite Hr, Ho.
  exists (t ++ [EvRequest payload]). split; [|split].
  - f_equal. rewrite Hf, Ht. f_equal; [lia|]. by rewrite app_assoc.
  - rewrite delays_of_app, Hd. simpl. by rewrite app_nil_r.
  - rewrite requests_of_app, Hq. simpl.
    by rewrite <- replicate_cons_app.
Qed.
End RetryMore.

(** ** More on the resolver client *)

Section ResolverMore.
Variable env : Env.

Lemma callGeminiAPI_loop_requests_mono left i payload w :
  requests w ≤ requests (callGeminiAPI_loop env left i payload w).2.
Proof.
  revert i w. induction left as [|left IH]; intros i w; simpl; [done|].
  unfold try_catch, https_post.
  destruct (https_request env (requests w) payload) as [msg|sc data|].
  - case_decide; simpl; [lia|]. rewrite bind_run. unfold sleep, emit.
    etrans; [|apply IH]. simpl. lia.
  - case_decide.
    + destruct (JSON_parse env data); simpl; lia.
    + case_decide; simpl; [lia|]. rewrite bind_run. unfold sleep, emit.
      etrans; [|apply IH]. simpl. lia.
  - simpl. lia.
Qed.

Lemma callGeminiAPI_loop_requests_pos left i payload w :
  requests w < requests (callGeminiAPI_loop env (S left) i payload w).2.
Proof.
  simpl. unfold try_catch, https_post.
  destruct (https_request env (requests w) payload) as [msg|sc data|].
  - case_decide; simpl; [lia|]. rewrite bind_run. unfold sleep, emit.
    eapply Nat.lt_le_trans; [|apply callGeminiAPI_loop_requests_mono]. simpl. lia.
  - case_decide.
    + destruct (JSON_parse env data); simpl; lia.
    + case_decide; simpl; [lia|]. rewrite bind_run. unfold sleep, emit.
      eapply Nat.lt_le_trans; [|apply callGeminiAPI_loop_requests_mono].
      simpl. lia.
  - simpl. lia.
Qed.

(** X5. Whatever the service answers, [getGeminiResolution] leaves every
    file as it is, sends at least one and at most three requests, and adds
    nothing but requests and delays to the trace. *)
Theorem getGeminiResolution_frame ourCode theirCode filePath w :
  let w' := (getGeminiResolution env ourCode theirCode filePath w).2 in
  files w' = files w
  ∧ requests w < requests w' ∧ requests w' ≤ requests w + 3
  ∧ ∃ t, trace w' = trace w ++ t ∧ Forall (λ ev, net_event ev = true) t.
Proof.
  pose proof (getGeminiResolution_net_only env ourCode theirCode filePath w)
    as [Hf Ht].
  split; [done|]. split; [|split; [|done]].
  - unfold getGeminiResolution. rewrite bind_run.
    pose proof (callGeminiAPI_loop_requests_pos 2 0
      (request_payload (prompt ourCode theirCode filePath)) w) as Hlt.
    change (requests w < requests (callGeminiAPI env
      (request_payload (prompt ourCode theirCode filePath)) w).2) in Hlt.
    destruct (callGeminiAPI env _ w) as [[v|e|e|] w1]; simpl in *;
      [destruct (extract_text v)|..]; simpl; lia.
  - unfold getGeminiResolution. rewrite bind_run.
    pose proof (callGeminiAPI_loop_requests env MAX_RETRIES 0
      (request_payload (prompt ourCode theirCode filePath)) w) as Hle.
    fold (callGeminiAPI env (request_payload (prompt ourCode theirCode filePath))) in Hle.
    destruct (callGeminiAPI env _ w) as [[v|e|e|] w1]; simpl in *;
      [destruct (extract_text v)|..]; simpl; unfold MAX_RETRIES in Hle; lia.
Qed.

(** X6. A text that [getGeminiResolution] returns neither begins nor ends
    with white space: in particular it never ends with a line feed. *)
Theorem getGeminiResolution_trimmed ourCode theirCode filePath w resolved w' :
  getGeminiResolution env ourCode theirCode filePath w = (Return resolved, w') →
  (∀ c, head resolved = Some c → is_space c = false)
  ∧ (∀ c, last resolved = Some c → is_space c = false)
  ∧ last resolved ≠ Some NL.
Proof.
  unfold getGeminiResolution. rewrite bind_run.
  destruct (callGeminiAPI env _ w) as [[v|e|e|] w1]; [|done..].
  unfold extract_text. destruct (text_field v) as [[| | | |s| |]|]; simpl; try done.
  intros [= <- <-].
  destruct (trim_spec s) as (_ & _ & _ & _ & _ & Hh & Hl).
  split; [done|]. split; [done|].
  intros HNL. apply Hl in HNL. by rewrite is_space_NL in HNL.
Qed.

(** X7. An answer whose text is blank is not an error: the resolution is
    the empty string, so that the splice removes the block and puts
    nothing in its place. *)
Theorem getGeminiResolution_blank ourCode theirCode filePath w response w' s :
  callGeminiAPI env (request_payload (prompt ourCode theirCode filePath)) w
    = (Return response, w') →
  text_field response = Some (VString s) →
  Forall (λ c, is_space c = true) s →
  getGeminiResolution env ourCode theirCode filePath w = (Return [], w').
Proof.
  intros Hcall Hs Hblank.
  unfold getGeminiResolution. erewrite bind_return by done.
  unfold extract_text. rewrite Hs. simpl. by rewrite trim_blank.
Qed.

End ResolverMore.

(** ** More on the regions *)

(** X8. Every region the parser returns has the shape of the pattern:
    [m[0]] is the ours marker, a label, a line feed, [m[1]], the separator
    line, [m[2]], the theirs marker at a line start and a label; it is the
    text found at [m.index], and it ends at the end of a line. *)
Theorem region_shape content m :
  m ∈ matchAll conflictRegex content →
  ∃ label label2,
    capture m 0 = js "<<<<<<<" ++ label ++ js "\n" ++ capture m 1
                  ++ js "\n=======\n" ++ capture m 2 ++ js "\n>>>>>>>" ++ label2
    ∧ (NL ∉ label) ∧ (NL ∉ label2)
    ∧ content = take (index m) content ++ capture m 0
                ++ drop (index m + length (capture m 0)) content
    ∧ (drop (index m + length (capture m 0)) content = []
       ∨ ∃ r, drop (index m + length (capture m 0)) content = NL :: r).
Proof.
  intros Hm.
  destruct (Scan_index _ _ _ m (matchAll_Scan content) Hm)
    as (j & c & Hi & Hf & Hcap).
  simpl in Hi. subst j.
  pose proof (find_conflict_Some _ _ Hf) as (Hs & Hl & Hl2 & Hshape & _).
  assert (capture m 0 = c_block c) as H0 by (unfold capture; by rewrite Hcap).
  assert (capture m 1 = c_ours c) as H1 by (unfold capture; by rewrite Hcap).
  assert (capture m 2 = c_theirs c) as H2 by (unfold capture; by rewrite Hcap).
  assert (drop (index m + length (capture m 0)) content = c_rest c) as Hrest.
  { rewrite <- drop_drop, Hs, H0. by rewrite drop_app_length. }
  exists (c_label c), (c_label2 c). rewrite Hrest, H0, H1, H2.
  split; [done|]. split; [done|]. split; [done|]. split; [|done].
  rewrite <- Hs. by rewrite take_drop.
Qed.

(** X9. The variants are the shortest ones: ours holds no separator line
    inside, theirs holds no line feed followed by the theirs marker. *)
Theorem region_variants_minimal content m :
  m ∈ matchAll conflictRegex content →
  (∀ a b, capture m 1 ≠ a ++ js "\n=======\n" ++ b)
  ∧ (∀ a b, capture m 2 ≠ a ++ js "\n>>>>>>>" ++ b).
Proof.
  intros Hm.
  destruct (Scan_index _ _ _ m (matchAll_Scan content) Hm)
    as (j & c & Hi & Hf & Hcap).
  pose proof (find_conflict_Some _ _ Hf) as (_ & _ & _ & _ & Hsep & Hclose).
  assert (capture m 1 = c_ours c) as -> by (unfold capture; by rewrite Hcap).
  assert (capture m 2 = c_theirs c) as -> by (unfold capture; by rewrite Hcap).
  split.
  - intros a b Heq. change (js "\n=======\n") with SEP in Heq.
    assert (c_ours c ++ SEP ++ c_theirs c ++ CLOSE ++ c_label2 c ++ c_rest c
            = a ++ SEP ++ (b ++ SEP ++ c_theirs c ++ CLOSE ++ c_label2 c ++ c_rest c))
      as E by (rewrite Heq; by rewrite <- !app_assoc).
    pose proof (split_at_first _ _ _ _ _ _ Hsep E) as Hlen.
    rewrite Heq, !length_app in Hlen.
    change (length SEP) with 9 in Hlen. lia.
  - intros a b Heq. change (js "\n>>>>>>>") with CLOSE in Heq.
    assert (c_theirs c ++ CLOSE ++ c_label2 c ++ c_rest c
            = a ++ CLOSE ++ (b ++ CLOSE ++ c_label2 c ++ c_rest c))
      as E by (rewrite Heq; by rewrite <- !app_assoc).
    pose proof (split_at_first _ _ _ _ _ _ Hclose E) as Hlen.
    rewrite Heq, !length_app in Hlen.
    change (length CLOSE) with 8 in Hlen. lia.
Qed.

(** X10. Only the first ours marker of the text decides: if the pattern
    does not match there, the parser returns no region at all, whatever
    follows; if it does, the first region starts there. *)
Theorem first_marker_decides content j :
  (∀ i, i < j → lit_m (js "<<<<<<<") (drop i content) = None) →
  is_Some (lit_m (js "<<<<<<<") (drop j content)) →
  (match_here conflictRegex (drop j content) = None →
   matchAll conflictRegex content = [])
  ∧ (∀ caps, match_here conflictRegex (drop j content) = Some caps →
     ∃ ms, matchAll conflictRegex content
           = {| index := j; captures := caps |} :: ms).
Proof.
  intros Hbefore [q Hq]. pose proof (matchAll_Scan content) as HS.
  rewrite match_here_conflict.
  split.
  - destruct (find_conflict (drop j content)) as [c|] eqn:Hc; [done|]. intros _.
    destruct (matchAll conflictRegex content) as [|m ms]; [done|]. exfalso.
    inversion HS as [|? ? k c ms' Hlt Hk Hrest]; subst.
    destruct (decide (k < j)) as [Hkj|Hkj].
    + pose proof (Hbefore k Hkj) as Hno.
      apply find_conflict_no_OPEN in Hno. congruence.
    + destruct (find_conflict_earlier content j k c q Hq) as [c' Hc']; [lia|done|].
      congruence.
  - intros caps Hcaps.
    destruct (find_conflict (drop j content)) as [c|] eqn:Hc; [|done].
    simpl in Hcaps. injection Hcaps as <-.
    rewrite (conflict_captures_block _ _ Hc).
    inversion HS as [? ? Hn Hms|? ? k c' ms' Hlt Hk Hrest Hms]; subst.
    { rewrite Hn in Hc. done. }
    assert (k = j) as ->.
    { destruct (Nat.lt_total k j) as [Hkj|[?|Hjk]]; [|done|].
      - pose proof (Hbefore k Hkj) as Hno.
        apply find_conflict_no_OPEN in Hno. congruence.
      - rewrite (Hlt j Hjk) in Hc. done. }
    assert (c' = c) as -> by congruence.
    by eexists.
Qed.

(** X11. When every region was replaced by a text that holds no ours
    marker, the text the script hands to [fs.writeFile] holds no region
    any more. *)
Theorem resolved_text_has_no_region resolved content :
  length resolved = length (matchAll conflictRegex content) →
  Forall inert resolved →
  matchAll conflictRegex (resolve_descending content resolved) = [].
Proof.
  revert content. induction resolved as [|r rs IH]; intros content Hlen Hin.
  - unfold resolve_descending.
    destruct (matchAll conflictRegex content) eqn:Hms; [|done].
    by rewrite reverse_nil.
  - destruct (matchAll conflictRegex content) as [|m ms _] eqn:Hms using rev_ind;
      [done|].
    rewrite length_app in Hlen. simpl in Hlen.
    apply Forall_cons in Hin as [Hr Hin].
    pose proof (matchAll_splice_last _ _ _ r Hms Hr) as Hre.
    unfold resolve_descending. rewrite Hms, reverse_snoc. simpl.
    rewrite <- Hre. apply IH; [rewrite Hre; lia|done].
Qed.

(** ** Descending splices as one substitution *)

Lemma splice_all_from_0 ms rs s : splice_all ms rs s = splice_all_from 0 ms rs s.
Proof.
  revert rs s. induction ms as [|m ms IH]; intros [|r rs] s; simpl; try done.
  rewrite IH, splice_splice_at. by rewrite Nat.sub_0_r.
Qed.

Lemma splice_all_from_shift off x ms rs y :
  (∀ m, m ∈ ms → off + length x ≤ index m) →
  splice_all_from off ms rs (x ++ y)
  = x ++ splice_all_from (off + length x) ms rs y.
Proof.
  revert rs y. induction ms as [|m ms IH]; intros [|r rs] y Hms; simpl; try done.
  assert (off + length x ≤ index m) by (apply Hms; by left).
  rewrite splice_at_app by lia. rewrite IH.
  - do 3 f_equal. lia.
  - intros m' Hm'. apply Hms. by right.
Qed.

Lemma splice_all_from_snoc off ms m rs r s :
  length ms = length rs →
  splice_all_from off (ms ++ [m]) (rs ++ [r]) s
  = splice_at (splice_all_from off ms rs s) (index m - off)
      (length (capture m 0)) r.
Proof.
  revert rs s. induction ms as [|m' ms IH]; intros [|r' rs] s Hlen;
    simpl in *; try done.
  apply IH. lia.
Qed.

Lemma Scan_substitute s off ms rs :
  Scan s off ms → length rs = length ms →
  splice_all_from off (reverse ms) rs s = substitute off ms (reverse rs) s.
Proof.
  intros HS. revert rs.
  induction HS as [s off Hn|s off k c ms Hlt Hc Hrest IH]; intros rs Hlen.
  - destruct rs; [|done]. done.
  - destruct rs as [|r rs _] using rev_ind; [done|].
    rewrite length_app in Hlen. simpl in Hlen.
    rewrite reverse_cons, reverse_snoc.
    rewrite splice_all_from_snoc by (rewrite length_reverse; lia).
    pose proof (find_conflict_Some _ _ Hc) as (Hs & _).
    pose proof (find_conflict_length _ _ Hc) as Hl.
    pose proof (c_block_length c) as Hpos. rewrite length_drop in Hl.
    assert (Hk : length (take k s) = k) by (rewrite length_take; lia).
    assert (Hsplit : s = (take k s ++ c_block c) ++ c_rest c).
    { rewrite <- app_assoc, <- Hs. by rewrite take_drop. }
    rewrite Hsplit at 1.
    rewrite (splice_all_from_shift off (take k s ++ c_block c)).
    2:{ intros m' Hm'. rewrite elem_of_reverse in Hm'.
        destruct (Scan_index _ _ _ m' Hrest Hm') as (j & _ & Hi & _).
        rewrite length_app, Hk. lia. }
    rewrite length_app, Hk, Nat.add_assoc.
    rewrite IH by lia.
    cbn [substitute index]. change (capture _ 0) with (c_block c).
    replace (off + k - off) with k by lia.
    unfold splice_at. rewrite <- app_assoc.
    rewrite (take_app_length' (take k s)) by done.
    rewrite (app_assoc (take k s) (c_block c)).
    rewrite (drop_app_length' (take k s ++ c_block c))
      by (rewrite length_app; lia).
    do 3 f_equal.
    rewrite <- drop_drop, Hs. by rewrite drop_app_length.
Qed.

(** X12. Splicing the regions from the last to the first gives the text
    one gets by reading the original from left to right and putting, for
    each region, the resolved text in place of the block: everything
    outside the regions is kept as it was, in its order. *)
Theorem resolve_descending_substitute content resolved :
  length resolved = length (matchAll conflictRegex content) →
  resolve_descending content resolved
  = substitute 0 (matchAll conflictRegex content) (reverse resolved) content.
Proof.
  intros Hlen. unfold resolve_descending.
  rewrite splice_all_from_0.
  by apply Scan_substitute; [apply matchAll_Scan|].
Qed.

(** ** What a file resolution and a run do to the world *)

Lemma same_kinds_refl w : same_kinds w w.
Proof. done. Qed.

Lemma same_kinds_trans w1 w2 w3 :
  same_kinds w1 w2 → same_kinds w2 w3 → same_kinds w1 w3.
Proof.
  intros H1 H2 p. destruct (H1 p) as [? ?], (H2 p) as [? ?].
  split; congruence.
Qed.

Lemma same_kinds_files w w' : files w' = files w → same_kinds w w'.
Proof. intros H p. unfold is_dir, is_plain. by rewrite H. Qed.

Lemma execs_of_app t1 t2 : execs_of (t1 ++ t2) = execs_of t1 ++ execs_of t2.
Proof. apply omap_app. Qed.

Lemma warnings_of_app t1 t2 :
  warnings_of (t1 ++ t2) = warnings_of t1 ++ warnings_of t2.
Proof. apply omap_app. Qed.

Lemma execs_of_net t : Forall (λ ev, net_event ev = true) t → execs_of t = [].
Proof. induction 1 as [|[] t Hx _ IH]; simpl in *; done. Qed.

Lemma warnings_of_net t :
  Forall (λ ev, net_event ev = true) t → warnings_of t = [].
Proof. induction 1 as [|[] t Hx _ IH]; simpl in *; done. Qed.

Section FileMore.
Variable env : Env.




Lemma resolveConflictsInFile_trace_shape filePath w :
  ∃ t,
    trace (resolveConflictsInFile env filePath w).2
      = trace w ++ EvRead filePath :: t
    ∧ ((Forall (λ ev, net_event ev = true) t
        ∧ files (resolveConflictsInFile env filePath w).2 = files w)
       ∨ (∃ t0 content content',
            t = t0 ++ [EvWrite filePath content']
            ∧ Forall (λ ev, net_event ev = true) t0
            ∧ files w !! filePath = Some (File content)
            ∧ (((resolveConflictsInFile env filePath w).1 = Return ()
                ∧ files (resolveConflictsInFile env filePath w).2
                  = <[filePath := File (toWellFormed content')]> (files w))
               ∨ ((resolveConflictsInFile env filePath w).1
                    = Throw (ErrWrite filePath)
                  ∧ (files (resolveConflictsInFile env filePath w).2 = files w
                     ∨ ∃ remains,
                         files (resolveConflictsInFile env filePath w).2
                         = <[filePath := File remains]> (files w)))))).
Proof.
  unfold resolveConflictsInFile. rewrite bind_run.
  replace (readFile filePath w) with
    (match files w !! filePath with
     | None => (Throw (ErrNoEnt filePath), log (EvRead filePath) w)
     | Some Dir => (Throw (ErrIsDir filePath), log (EvRead filePath) w)
     | Some (File content) => (Return content, log (EvRead filePath) w)
     end) by done.
  destruct (files w !! filePath) as [[content|]|] eqn:Hf;
    try (exists []; split; [done|]; left; by split).
  case_decide; [exists []; split; [done|]; left; by split|].
  rewrite bind_run.
  pose proof (resolve_loop_net_only env filePath
    (reverse (matchAll conflictRegex content)) content
    (log (EvRead filePath) w)) as [Hfiles (t0 & Ht0 & Hnet)].
  destruct (resolve_loop env filePath _ content _) as [[c'|e|e|] w1];
    simpl in Hfiles, Ht0;
    try (exists t0; cbn [fst snd]; split;
         [by rewrite Ht0, <- app_assoc|]; left; by split).
  exists (t0 ++ [EvWrite filePath c']). unfold writeFile. rewrite bind_run.
  unfold emit. cbn [log files]. rewrite Hfiles, Hf.
  destruct (fs_writeFile env _ filePath c') as [|[remains|]];
    cbn [fst snd trace files log set_file]; rewrite ?Hfiles.
  - split; [rewrite Ht0; cbn [log trace]; by rewrite <- !app_assoc|].
    right. exists t0, content, c'. split; [done|]. split; [done|].
    split; [done|]. by left.
  - split; [rewrite Ht0; cbn [log trace]; by rewrite <- !app_assoc|].
    right. exists t0, content, c'. split; [done|]. split; [done|].
    split; [done|]. right. split; [done|]. right. by exists remains.
  - split; [rewrite Ht0; cbn [log trace]; by rewrite <- !app_assoc|].
    right. exists t0, content, c'. split; [done|]. split; [done|].
    split; [done|]. right. split; [done|]. by left.
Qed.

Lemma resolveConflictsInFile_same_kinds filePath w :
  same_kinds w (resolveConflictsInFile env filePath w).2
  ∧ ∀ p, p ≠ filePath →
      files (resolveConflictsInFile env filePath w).2 !! p = files w !! p.
Proof.
  assert (∀ fs l content,
    files w !! filePath = Some (File content) →
    fs = <[filePath := File l]> (files w) →
    (∀ p, match fs !! p with Some Dir => true | _ => false end = is_dir w p
          ∧ match fs !! p with Some (File _) => true | _ => false end
            = is_plain w p)
    ∧ ∀ p, p ≠ filePath → fs !! p = files w !! p) as Hins.
  { intros fs l content Hfile ->. split.
    - intros p. unfold is_dir, is_plain.
      destruct (decide (p = filePath)) as [->|Hne].
      + by rewrite lookup_insert_eq, Hfile.
      + by rewrite lookup_insert_ne.
    - intros p Hne. by rewrite lookup_insert_ne. }
  destruct (resolveConflictsInFile_trace_shape filePath w)
    as (t & _ & [[_ Hf]|(t0 & c & c' & _ & _ & Hfile &
                         [[_ Hf]|[_ [Hf|[l Hf]]]])]).
  - split; [by apply same_kinds_files|]. intros p _. by rewrite Hf.
  - destruct (Hins _ _ _ Hfile Hf) as [Hk Hout]. by split.
  - split; [by apply same_kinds_files|]. intros p _. by rewrite Hf.
  - destruct (Hins _ _ _ Hfile Hf) as [Hk Hout]. by split.
Qed.

Lemma resolveConflictsInFile_no_exec filePath w :
  ∃ t, trace (resolveConflictsInFile env filePath w).2 = trace w ++ t
       ∧ execs_of t = [] ∧ warnings_of t = [].
Proof.
  destruct (resolveConflictsInFile_trace_shape filePath w)
    as (t & Ht & [[Hnet _]|(t0 & c & c' & -> & Hnet & _)]).
  - exists (EvRead filePath :: t). split; [done|]. simpl.
    by rewrite execs_of_net, warnings_of_net.
  - exists (EvRead filePath :: t0 ++ [EvWrite filePath c']). split; [done|].
    simpl. rewrite execs_of_app, warnings_of_app.
    by rewrite execs_of_net, warnings_of_net.
Qed.

(** X13. Whatever happens, [resolveConflictsInFile] reads the file once,
    first; what follows is requests and delays only, closed by at most one
    call of [fs.writeFile], for the same path.  No other path is changed,
    nothing is created or removed, and the function returns after a write
    only when the file reads as the text written, a lone surrogate
    replaced; a write that fails is thrown. *)
Theorem resolveConflictsInFile_io filePath w :
  let r := resolveConflictsInFile env filePath w in
  (∀ p, p ≠ filePath → files r.2 !! p = files w !! p)
  ∧ same_kinds w r.2
  ∧ ∃ t,
      trace r.2 = trace w ++ EvRead filePath :: t
      ∧ ((Forall (λ ev, net_event ev = true) t ∧ files r.2 = files w)
         ∨ (∃ t0 content',
              t = t0 ++ [EvWrite filePath content']
              ∧ Forall (λ ev, net_event ev = true) t0
              ∧ (r.1 = Return () ∨ r.1 = Throw (ErrWrite filePath))
              ∧ (r.1 = Return () →
                 files r.2
                 = <[filePath := File (toWellFormed content')]> (files w)))).
Proof.
  cbv zeta.
  destruct (resolveConflictsInFile_same_kinds filePath w) as [Hk Hout].
  split; [done|]. split; [done|].
  destruct (resolveConflictsInFile_trace_shape filePath w)
    as (t & Ht & [H|(t0 & c & c' & -> & Hnet & _ & [[Hr Hf]|[Hr _]])]).
  - exists t. split; [done|]. by left.
  - eexists. split; [done|]. right. exists t0, c'.
    split; [done|]. split; [done|]. split; [by left|done].
  - eexists. split; [done|]. right. exists t0, c'.
    split; [done|]. split; [done|]. split; [by right|].
    rewrite Hr. done.
Qed.


End FileMore.

Section RunMore.
Variable env : Env.

Lemma runCommand_run command w :
  runCommand env command w =
  match execSync env command with
  | Some out => (Return (trim out), log (EvExec command) w)
  | None => (Throw (ErrCommand command), log (EvExec command) w)
  end.
Proof.
  unfold runCommand. rewrite bind_run. unfold emit.
  by destruct (execSync env command).
Qed.

Lemma filter_same_kinds_dir w w' (l : list (list N)) :
  same_kinds w w' →
  filter (λ f, is_dir w' f = true) l = filter (λ f, is_dir w f = true) l.
Proof.
  intros H. apply list_filter_iff. intros f. by rewrite (proj1 (H f)).
Qed.

Lemma filter_same_kinds_plain w w' (l : list (list N)) :
  same_kinds w w' →
  filter (λ f, is_plain w' f = true) l = filter (λ f, is_plain w f = true) l.
Proof.
  intros H. apply list_filter_iff. intros f. by rewrite (proj2 (H f)).
Qed.

Lemma main_loop_completed l flag w b w' :
  main_loop env l flag w = (Return b, w') →
  Forall (λ f, is_Some (files w !! f)) l
  ∧ same_kinds w w'
  ∧ ∃ t, trace w' = trace w ++ t
         ∧ execs_of t
           = (λ f, js "git add " ++ f) <$> filter (λ f, is_plain w f = true) l
         ∧ warnings_of t = filter (λ f, is_dir w f = true) l.
Proof.
  revert flag w. induction l as [|file rest IH]; intros flag w.
  - simpl. intros [= <- <-]. split; [done|]. split; [done|].
    exists []. by rewrite app_nil_r.
  - cbn [main_loop]. rewrite bind_run.
    replace (stat_isDirectory file w) with
      (match files w !! file with
       | None => (Throw (ErrNoEnt file), log (EvStat file) w)
       | Some Dir => (Return true, log (EvStat file) w)
       | Some (File _) => (Return false, log (EvStat file) w)
       end) by done.
    destruct (files w !! file) as [[content|]|] eqn:Hf; [| |done].
    + rewrite bind_run.
      destruct (resolveConflictsInFile_same_kinds env file (log (EvStat file) w))
        as [Hk _].
      destruct (resolveConflictsInFile_no_exec env file (log (EvStat file) w))
        as (t1 & Ht1 & He1 & Hw1).
      destruct (resolveConflictsInFile env file (log (EvStat file) w))
        as [[[]|e|e|] w1]; [|done..].
      rewrite bind_run, runCommand_run.
      destruct (execSync env (js "git add " ++ file)); [|done].
      intros (Hall & Hk2 & t2 & Ht2 & He2 & Hw2)%IH.
      cbn [fst snd] in *.
      assert (same_kinds w (log (EvExec (js "git add " ++ file)) w1)) as Hk1.
      { intros p. destruct (Hk p) as [? ?]. done. }
      split; [|split].
      * constructor; [by rewrite Hf|].
        eapply Forall_impl; [exact Hall|]. intros f Hsome. cbn [log files] in Hsome.
        destruct (Hk1 f) as [Hd Hp]. unfold is_dir, is_plain in Hd, Hp.
        cbn [log files] in Hd, Hp.
        destruct (files w1 !! f) as [[|]|], (files w !! f) as [[|]|];
          try done; by destruct Hsome.
      * by eapply same_kinds_trans.
      * exists ([EvStat file] ++ t1 ++ [EvExec (js "git add " ++ file)] ++ t2).
        split; [|split].
        -- rewrite Ht2. cbn [log trace]. rewrite Ht1. cbn [log trace].
           by rewrite <- !app_assoc.
        -- rewrite !execs_of_app, He1, He2. cbn [execs_of omap app].
           rewrite filter_cons_True by (unfold is_plain; by rewrite Hf).
           by rewrite (filter_same_kinds_plain w _ rest Hk1).
        -- rewrite !warnings_of_app, Hw1, Hw2. cbn [warnings_of omap app].
           rewrite filter_cons_False by (unfold is_dir; by rewrite Hf).
           by rewrite (filter_same_kinds_dir w _ rest Hk1).
    + rewrite bind_run. unfold emit.
      intros (Hall & Hk2 & t2 & Ht2 & He2 & Hw2)%IH.
      split; [|split].
      * constructor; [by rewrite Hf|done].
      * done.
      * exists ([EvStat file; EvWarnSubmodule file] ++ t2). split; [|split].
        -- rewrite Ht2. cbn [log trace]. by rewrite <- !app_assoc.
        -- rewrite execs_of_app, He2. cbn [execs_of omap app].
           rewrite filter_cons_False by (unfold is_plain; by rewrite Hf). done.
        -- rewrite warnings_of_app, Hw2. cbn [warnings_of omap app].
           rewrite filter_cons_True by (unfold is_dir; by rewrite Hf). done.
Qed.

(** X15. When the loop of [main] runs to its end, every listed path
    exists; [git add] was run once for each plain file, in the order of
    the list, and for nothing else; the warning was given once for each
    directory; and a run that ends with success had no directory in its
    list and staged every path. *)
Theorem run_completed conflictedFiles flag w b w' :
  main_loop env conflictedFiles flag w = (Return b, w') →
  Forall (λ f, is_Some (files w !! f)) conflictedFiles
  ∧ (∃ t, trace w' = trace w ++ t
          ∧ execs_of t = (λ f, js "git add " ++ f)
                         <$> filter (λ f, is_plain w f = true) conflictedFiles
          ∧ warnings_of t = filter (λ f, is_dir w f = true) conflictedFiles)
  ∧ (run env conflictedFiles w = (ExitSuccess, w') →
     Forall (λ f, is_plain w f = true) conflictedFiles
     ∧ ∃ t, trace w' = trace w ++ t
            ∧ execs_of t = (λ f, js "git add " ++ f) <$> conflictedFiles).
Proof.
  intros Hloop.
  destruct (main_loop_completed _ _ _ _ _ Hloop) as (Hall & _ & t & Ht & He & Hw).
  split; [done|]. split; [by exists t|].
  unfold run. intros Hrun.
  pose proof (main_loop_raise env conflictedFiles flag w) as Hr1.
  pose proof (main_loop_raise env conflictedFiles false w) as Hr2.
  rewrite Hloop in Hr1. rewrite Hr1 in Hr2.
  destruct (main_loop env conflictedFiles false w) as [[[]|e|e|] w2] eqn:Hl2;
    simpl in Hr2; try done.
  injection Hrun as ->.
  assert (Forall (λ f, is_plain w f = true) conflictedFiles) as Hplain.
  { apply Forall_forall. intros f Hin.
    destruct (is_dir w f) eqn:Hd.
    - exfalso. assert (false = true); [|done].
      eapply (main_loop_flag env conflictedFiles false w); [exact Hl2|].
      right. exists f. split; [done|]. unfold is_dir in Hd.
      by destruct (files w !! f) as [[|]|].
    - pose proof (proj1 (Forall_forall _ _) Hall f Hin) as [n Hn].
      unfold is_dir in Hd. unfold is_plain. rewrite Hn in *. by destruct n. }
  split; [done|].
  destruct (main_loop_completed _ _ _ _ _ Hl2) as (_ & _ & t' & Ht' & He' & _).
  exists t'. split; [done|]. by rewrite He', filter_all.
Qed.



End RunMore.

(** X17. Every region lies inside the text, and the regions come in the
    order of the text without overlap: a region ends at or before the
    start of every later one. *)
Theorem regions_in_order content i m :
  matchAll conflictRegex content !! i = Some m →
  index m + length (capture m 0) ≤ length content
  ∧ ∀ j m',
      i < j → matchAll conflictRegex content !! j = Some m' →
      index m + length (capture m 0) ≤ index m'.
Proof.
  intros Hi. split.
  - apply (Scan_block_at content (matchAll conflictRegex content)).
    + apply matchAll_Scan.
    + apply list_elem_of_lookup. by exists i.
  - intros j m' Hlt Hj.
    apply (matchAll_disjoint content
             (take (S i) (matchAll conflictRegex content))
             (drop (S i) (matchAll conflictRegex content))).
    + by rewrite take_drop.
    + apply list_elem_of_lookup. exists i. rewrite lookup_take_lt by lia. done.
    + apply list_elem_of_lookup. exists (j - S i). rewrite lookup_drop.
      by replace (S i + (j - S i)) with j by lia.
Qed.

(** ** Further examples *)

Lemma main_listing_witness :
  main env_ok (Some (js "key")) (world_of demo_files)
  = (ExitSuccess,
     log (EvExec (js "git diff --name-only --diff-filter=U")) (world_of demo_files)).
Proof.
  apply (proj1 (main_listing env_ok (js "key") [] (world_of demo_files)
           ltac:(vm_compute; discriminate) eq_refl)).
  constructor.
Defined.

Lemma main_runs_listed_paths_witness :
  main env_listing (Some (js "key")) (world_of demo_files)
  = run env_listing [js "file.txt"; js "plain.txt"]
      (log (EvExec (js "git diff --name-only --diff-filter=U")) (world_of demo_files)).
Proof.
  apply (main_runs_listed_paths env_listing (js "key")
           [js "file.txt"; js "plain.txt"] (world_of demo_files)).
  - vm_compute. discriminate.
  - discriminate.
  - repeat constructor; try (vm_compute; discriminate);
      (intros H; vm_compute in H; apply list_elem_of_In in H; simpl in H;
       repeat (destruct H as [H|H]; [discriminate H|]); exact H).
  - intros c H. vm_compute in H. injection H as <-. reflexivity.
  - intros c H. vm_compute in H. injection H as <-. reflexivity.
  - vm_compute. reflexivity.
Defined.

Lemma callGeminiAPI_succeeds_after_witness :
  ∃ t,
    callGeminiAPI env_retry (request_payload (js "p")) (world_of demo_files)
    = (Return (answer (js "baz")),
       {| files := demo_files; requests := 3; trace := t |})
    ∧ delays_of t = [1000; 2000]%Z.
Proof.
  destruct (callGeminiAPI_succeeds_after env_retry (request_payload (js "p"))
    (world_of demo_files) 2 200%Z (json_answer (js "baz")) (answer (js "baz")))
    as (t & Hcall & Hd & _).
  - unfold MAX_RETRIES. lia.
  - intros j Hj. destruct j as [|[|j]]; [by eexists..|lia].
  - vm_compute. reflexivity.
  - lia.
  - vm_compute. reflexivity.
  - exists ([] ++ t). split; [exact Hcall|exact Hd].
Defined.

Lemma callGeminiAPI_unparsable_body_witness :
  ∃ t,
    callGeminiAPI env_garbled (request_payload (js "p")) (world_of demo_files)
    = (Fatal (ErrSyntax (js "<html>")),
       {| files := demo_files; requests := 1; trace := t |})
    ∧ delays_of t = [].
Proof.
  destruct (callGeminiAPI_unparsable_body env_garbled (request_payload (js "p"))
    (world_of demo_files) 0 200%Z (js "<html>"))
    as (t & Hcall & Hd & _).
  - unfold MAX_RETRIES. lia.
  - intros j Hj. lia.
  - vm_compute. reflexivity.
  - lia.
  - vm_compute. reflexivity.
  - exists ([] ++ t). split; [exact Hcall|exact Hd].
Defined.

Lemma getGeminiResolution_trimmed_witness :
  last (js "baz") ≠ Some NL.
Proof.
  apply (getGeminiResolution_trimmed env_ok (js "two") (js "dos") (js "two.txt")
           (world_of demo_files) (js "baz")
           {| files := demo_files; requests := 1;
              trace := [EvRequest (request_payload
                          (prompt (js "two") (js "dos") (js "two.txt")))] |}).
  vm_compute. reflexivity.
Defined.

Lemma getGeminiResolution_blank_witness :
  getGeminiResolution env_blank (js "two") (js "dos") (js "two.txt")
    (world_of demo_files)
  = (Return [],
     {| files := demo_files; requests := 1;
        trace := [EvRequest (request_payload
                    (prompt (js "two") (js "dos") (js "two.txt")))] |}).
Proof.
  apply (getGeminiResolution_blank env_blank (js "two") (js "dos") (js "two.txt")
           (world_of demo_files) (answer (js "  ")) _ (js "  ")).
  - vm_compute. reflexivity.
  - vm_compute. reflexivity.
  - repeat constructor.
Defined.

Lemma region_shape_witness :
  ∃ label label2,
    capture (region scenario_text 0) 0
    = js "<<<<<<<" ++ label ++ js "\n" ++ capture (region scenario_text 0) 1
      ++ js "\n=======\n" ++ capture (region scenario_text 0) 2
      ++ js "\n>>>>>>>" ++ label2.
Proof.
  destruct (region_shape scenario_text (region scenario_text 0))
    as (label & label2 & H & _).
  - vm_compute. apply list_elem_of_In. left. reflexivity.
  - by exists label, label2.
Defined.

Lemma region_variants_minimal_witness :
  capture (region scenario_text 0) 1 ≠ js "a" ++ js "\n=======\n" ++ js "b".
Proof.
  apply (proj1 (region_variants_minimal scenario_text (region scenario_text 0)
    ltac:(vm_compute; apply list_elem_of_In; left; reflexivity))
    (js "a") (js "b")).
Defined.

Lemma first_marker_decides_witness :
  matchAll conflictRegex (js "<<<<<<< HEAD\nfoo\n=======\nbar\n") = [].
Proof.
  apply (proj1 (first_marker_decides (js "<<<<<<< HEAD\nfoo\n=======\nbar\n") 0
    ltac:(intros i Hi; lia) ltac:(vm_compute; by eexists))).
  vm_compute. reflexivity.
Defined.

Lemma resolved_text_has_no_region_witness :
  matchAll conflictRegex (resolve_descending two_regions [js "dos < 2"; js "one"])
  = [].
Proof.
  apply (resolved_text_has_no_region [js "dos < 2"; js "one"] two_regions).
  - vm_compute. reflexivity.
  - repeat constructor; vm_compute; (reflexivity || discriminate).
Defined.

Lemma resolve_descending_substitute_witness :
  resolve_descending two_regions [js "dos"; js "one"]
  = substitute 0 (matchAll conflictRegex two_regions) [js "one"; js "dos"]
      two_regions.
Proof.
  apply (resolve_descending_substitute two_regions [js "dos"; js "one"]).
  vm_compute. reflexivity.
Defined.


Lemma callGeminiAPI_unanswered_witness :
  ∃ t,
    callGeminiAPI env_stalled (request_payload (js "p")) (world_of demo_files)
    = (Pending, {| files := demo_files; requests := 1; trace := t |})
    ∧ delays_of t = [].
Proof.
  destruct (callGeminiAPI_unanswered env_stalled (request_payload (js "p"))
    (world_of demo_files) 0) as (t & Hcall & Hd & _).
  - unfold MAX_RETRIES. lia.
  - intros j Hj. lia.
  - reflexivity.
  - exists ([] ++ t). split; [exact Hcall|exact Hd].
Defined.


(** A lone surrogate in the answer is handed to [fs.writeFile] as it is
    and reads back as U+FFFD. *)
Example lone_surrogate_is_replaced :
  ∃ w, run env_surrogate [js "file.txt"] (world_of demo_files) = (ExitSuccess, w)
       ∧ files w !! js "file.txt"
         = Some (File (js "a\n" ++ [65533%N] ++ js "\nb\n"))
       ∧ EvWrite (js "file.txt") (js "a\n" ++ [55357%N] ++ js "\nb\n")
           ∈ trace w.
Proof.
  eexists. split; [vm_compute; reflexivity|]. split; [by vm_compute|].
  vm_compute. apply list_elem_of_In. simpl. tauto.
Qed.

(** A write that fails is thrown: the run ends with the failure signal and
    the file is not staged. *)
Example write_failure_aborts :
  ∃ w, run env_readonly [js "file.txt"; js "plain.txt"] (world_of demo_files)
         = (ExitFailure, w)
       ∧ files w = demo_files
       ∧ execs_of (trace w) = []
       ∧ last (trace w) = Some (EvWrite (js "file.txt") (js "a\nbaz\nb\n")).
Proof.
  eexists. split; [vm_compute; reflexivity|]. by vm_compute.
Qed.

Lemma run_completed_witness :
  ∃ w' t,
    main_loop env_ok [js "dirA"; js "file.txt"] false (world_of demo_files)
      = (Return true, w')
    ∧ trace w' = trace (world_of demo_files) ++ t
    ∧ execs_of t = [js "git add file.txt"]
    ∧ warnings_of t = [js "dirA"].
Proof.
  edestruct (run_completed env_ok [js "dirA"; js "file.txt"] false
    (world_of demo_files) true) as (_ & (t & Ht & He & Hw) & _).
  - match goal with
    | |- ?l = _ => let v := eval vm_compute in l in change l with v
    end.
    reflexivity.
  - eexists _, t. split; [|split; [exact Ht|split]].
    + vm_compute. reflexivity.
    + rewrite He. vm_compute. reflexivity.
    + rewrite Hw. vm_compute. reflexivity.
Defined.

Lemma regions_in_order_witness :
  index (region scenario_text 0) + length (capture (region scenario_text 0) 0)
  ≤ length scenario_text
  ∧ index (region two_regions 0) + length (capture (region two_regions 0) 0)
    ≤ index (region two_regions 1).
Proof.
  split.
  - apply (regions_in_order scenario_text 0 (region scenario_text 0)).
    vm_compute. reflexivity.
  - apply (proj2 (regions_in_order two_regions 0 (region two_regions 0)
                    ltac:(vm_compute; reflexivity)) 1).
    + lia.
    + vm_compute. reflexivity.
Defined.

(** ** [cgroup::switch_cgroup] *)

Lemma digits_length_le fuel : ∀ k n,
  1 ≤ k → k ≤ fuel → (0 ≤ n < 10 ^ Z.of_nat k)%Z →
  length (cgroup.digits fuel n) ≤ k.
Proof.
  induction fuel as [|fuel IH]; intros k n Hk Hf Hn; [lia|].
  cbn [cgroup.digits]. destruct (Z.ltb_spec n 10) as [Hlt|Hge].
  - simpl. lia.
  - rewrite length_app. simpl.
    destruct k as [|[|k]]; [lia| simpl in Hn; lia |].
    assert (length (cgroup.digits fuel (n / 10)) ≤ S k); [|lia].
    apply IH; [lia|lia|].
    replace (Z.of_nat (S (S k))) with (Z.succ (Z.of_nat (S k))) in Hn by lia.
    rewrite Z.pow_succ_r in Hn by lia.
    split; [apply Z.div_pos; lia|].
    apply Z.div_lt_upper_bound; lia.
Qed.

Lemma digits_length_ge fuel : ∀ k n,
  k < fuel → (10 ^ Z.of_nat k ≤ n)%Z →
  S k ≤ length (cgroup.digits fuel n).
Proof.
  induction fuel as [|fuel IH]; intros k n Hf Hn; [lia|].
  cbn [cgroup.digits]. destruct (Z.ltb_spec n 10) as [Hlt|Hge].
  - destruct k as [|k]; [simpl; lia|].
    exfalso.
    replace (Z.of_nat (S k)) with (Z.succ (Z.of_nat k)) in Hn by lia.
    rewrite Z.pow_succ_r in Hn by lia.
    assert (0 < 10 ^ Z.of_nat k)%Z by (apply Z.pow_pos_nonneg; lia). lia.
  - rewrite length_app. simpl.
    destruct k as [|k]; [lia|].
    assert (S k ≤ length (cgroup.digits fuel (n / 10))); [|lia].
    apply IH; [lia|].
    replace (Z.of_nat (S k)) with (Z.succ (Z.of_nat k)) in Hn by lia.
    rewrite Z.pow_succ_r in Hn by lia.
    apply Z.div_le_lower_bound; lia.
Qed.

Lemma digits_fuel fuel : ∀ n,
  1 ≤ fuel → (0 ≤ n < 10 ^ Z.of_nat fuel)%Z →
  cgroup.digits (S fuel) n = cgroup.digits fuel n.
Proof.
  induction fuel as [|fuel IH]; intros n Hf Hn; [lia|].
  cbn [cgroup.digits]. destruct (Z.ltb_spec n 10) as [Hlt|Hge]; [done|].
  f_equal.
  destruct fuel as [|fuel]; [simpl in Hn; lia|].
  change (cgroup.digits (S (S fuel)) (n / 10) = cgroup.digits (S fuel) (n / 10)).
  apply IH; [lia|].
  replace (Z.of_nat (S (S fuel))) with (Z.succ (Z.of_nat (S fuel))) in Hn by lia.
  rewrite Z.pow_succ_r in Hn by lia.
  split; [apply Z.div_pos; lia|].
  apply Z.div_lt_upper_bound; lia.
Qed.

Lemma digits_are_digits fuel : ∀ n,
  (0 ≤ n)%Z → Forall cgroup.is_digit (cgroup.digits fuel n).
Proof.
  induction fuel as [|fuel IH]; intros n Hn; [constructor|].
  cbn [cgroup.digits]. destruct (Z.ltb_spec n 10) as [Hlt|Hge].
  - repeat constructor; unfold cgroup.is_digit; lia.
  - apply Forall_app. split.
    + apply IH. apply Z.div_pos; lia.
    + pose proof (Z.mod_pos_bound n 10).
      repeat constructor; unfold cgroup.is_digit; lia.
Qed.

Lemma decimal_value_snoc s c :
  cgroup.decimal_value (s ++ [c])
  = (10 * cgroup.decimal_value s + (Z.of_N c - 48))%Z.
Proof. unfold cgroup.decimal_value. by rewrite foldl_app. Qed.

Lemma decimal_value_digits fuel : ∀ n,
  (0 ≤ n < 10 ^ Z.of_nat fuel)%Z →
  cgroup.decimal_value (cgroup.digits fuel n) = n.
Proof.
  induction fuel as [|fuel IH]; intros n Hn.
  { change (10 ^ Z.of_nat 0)%Z with 1%Z in Hn.
    unfold cgroup.decimal_value. simpl. lia. }
  cbn [cgroup.digits]. destruct (Z.ltb_spec n 10) as [Hlt|Hge].
  - unfold cgroup.decimal_value. simpl. lia.
  - rewrite decimal_value_snoc, IH.
    + pose proof (Z.mod_pos_bound n 10 ltac:(lia)).
      pose proof (Z.div_mod n 10 ltac:(lia)).
      rewrite Z2N.id by lia. lia.
    + replace (Z.of_nat (S fuel)) with (Z.succ (Z.of_nat fuel)) in Hn by lia.
      rewrite Z.pow_succ_r in Hn by lia.
      split; [apply Z.div_pos; lia|].
      apply Z.div_lt_upper_bound; lia.
Qed.

(** The digits are those of the usual numeral: there is one at least, and
    the first is [0] for the number 0 only. *)
Lemma digits_canonical fuel : ∀ n,
  1 ≤ fuel → (0 ≤ n < 10 ^ Z.of_nat fuel)%Z →
  cgroup.digits fuel n ≠ []
  ∧ (head (cgroup.digits fuel n) = Some 48%N → cgroup.digits fuel n = [48%N]).
Proof.
  induction fuel as [|fuel IH]; intros n Hf Hn; [lia|].
  cbn [cgroup.digits]. destruct (Z.ltb_spec n 10) as [Hlt|Hge].
  - split; [done|]. simpl. by intros [= ->].
  - assert (1 ≤ n / 10)%Z as Hq by (apply Z.div_le_lower_bound; lia).
    assert (n / 10 < 10 ^ Z.of_nat fuel)%Z as Hq2.
    { replace (Z.of_nat (S fuel)) with (Z.succ (Z.of_nat fuel)) in Hn by lia.
      rewrite Z.pow_succ_r in Hn by lia.
      apply Z.div_lt_upper_bound; lia. }
    assert (1 ≤ fuel) as Hf'.
    { destruct fuel; [|lia]. change (10 ^ Z.of_nat 0)%Z with 1%Z in Hq2. lia. }
    destruct (IH (n / 10)%Z Hf' ltac:(lia)) as [Hne Hhd].
    split; [by destruct (cgroup.digits fuel (n / 10))|].
    intros H. exfalso.
    assert (head (cgroup.digits fuel (n / 10)) = Some 48%N) as H0.
    { by destruct (cgroup.digits fuel (n / 10)). }
    apply Hhd in H0.
    pose proof (decimal_value_digits fuel (n / 10) ltac:(lia)) as Hv.
    rewrite H0 in Hv. change (cgroup.decimal_value [48%N]) with 0%Z in Hv. lia.
Qed.

Lemma digits_step n :
  (10 ≤ n < 10 ^ 10)%Z →
  cgroup.digits 10 n = cgroup.digits 10 (n / 10) ++ [Z.to_N (48 + n mod 10)].
Proof.
  intros Hn.
  change (cgroup.digits 10 n) with
    (if (n <? 10)%Z then [Z.to_N (48 + n)]
     else cgroup.digits 9 (n / 10) ++ [Z.to_N (48 + n mod 10)]).
  destruct (Z.ltb_spec n 10) as [Hlt|Hge]; [lia|].
  f_equal. symmetry. apply (digits_fuel 9); [lia|].
  split; [apply Z.div_pos; lia|].
  apply Z.div_lt_upper_bound; lia.
Qed.

Lemma take_digits j : ∀ n rest,
  (10 ^ 6 * 10 ^ Z.of_nat j ≤ n < 10 ^ 7 * 10 ^ Z.of_nat j)%Z →
  (n < 10 ^ 10)%Z →
  take 7 (cgroup.digits 10 n ++ rest) = cgroup.digits 10 (n / 10 ^ Z.of_nat j).
Proof.
  induction j as [|j IH]; intros n rest Hn Hlt.
  - change (10 ^ Z.of_nat 0)%Z with 1%Z in *. rewrite Z.div_1_r.
    assert (length (cgroup.digits 10 n) = 7) as Hlen.
    { pose proof (digits_length_le 10 7 n). pose proof (digits_length_ge 10 6 n).
      lia. }
    by rewrite take_app_length'.
  - replace (Z.of_nat (S j)) with (Z.succ (Z.of_nat j)) in * by lia.
    rewrite Z.pow_succ_r in * by lia.
    assert (0 < 10 ^ Z.of_nat j)%Z by (apply Z.pow_pos_nonneg; lia).
    rewrite digits_step by lia.
    rewrite <- app_assoc. rewrite IH.
    + by rewrite Z.div_div by lia.
    + split.
      * apply Z.div_le_lower_bound; lia.
      * apply Z.div_lt_upper_bound; lia.
    + apply Z.div_lt_upper_bound; lia.
Qed.

Lemma write_procs_calls k path buf t :
  ∃ ev, (cgroup.write_procs k path buf t).2 = t ++ ev
    ∧ cgroup.opened ev = cgroup.closed ev
    ∧ cgroup.paths ev = [path]
    ∧ (∀ fd b r, (fd, b, r) ∈ cgroup.written ev →
         b = buf ∧ cgroup.opened ev = [fd])
    ∧ ((cgroup.write_procs k path buf t).1 = true
       ↔ ∃ fd r, cgroup.written ev = [(fd, buf, r)] ∧ r ≠ (-1)%Z)
    ∧ length (cgroup.written ev) ≤ 1.
Proof.
  unfold cgroup.write_procs.
  set (fd := cgroup.sys_open k t path).
  set (t1 := t ++ [cgroup.SysOpen path fd]).
  set (r := cgroup.sys_write k t1 fd buf).
  destruct (Z.ltb_spec fd 0) as [Hfd|Hfd].
  - exists [cgroup.SysOpen path fd]. cbn.
    destruct (Z.ltb_spec fd 0); [|lia].
    split; [done|]. split; [done|]. split; [done|].
    split; [intros ? ? ? Hin; by apply elem_of_nil in Hin|].
    split; [|simpl; lia].
    split; [done|]. by intros (? & ? & ? & _).
  - exists [cgroup.SysOpen path fd; cgroup.SysWrite fd buf r; cgroup.SysClose fd].
    assert (cgroup.opened [cgroup.SysOpen path fd; cgroup.SysWrite fd buf r;
                           cgroup.SysClose fd] = [fd]) as Hop.
    { cbn. by destruct (Z.ltb_spec fd 0); [lia|]. }
    split.
    { destruct (r =? -1)%Z; cbn [snd]; subst t1; by rewrite <- !app_assoc. }
    split; [by rewrite Hop|]. split; [done|].
    split.
    { intros fd' b r' Hin. cbn in Hin. apply list_elem_of_singleton in Hin.
      injection Hin as -> -> ->. by rewrite Hop. }
    split; [|simpl; lia].
    destruct (Z.eqb_spec r (-1)) as [Hr|Hr]; cbn [fst].
    + split; [done|]. intros (fd' & r' & Hw & Hne). cbn in Hw.
      injection Hw as _ <-. done.
    + split; [|done]. intros _. by exists fd, r.
Qed.

Lemma switch_cgroup_events k cg pid t :
  let path := cgroup.snprintf 1024 (cg ++ js "/uid_0/cgroup.procs") in
  let buf := cgroup.snprintf 8 (cgroup.format_d pid ++ js "\n") in
  ∃ acc ev,
    cgroup.calls k cg pid t = acc ++ ev
    ∧ (cgroup.switch_cgroup k cg pid t).2 = t ++ acc ++ ev
    ∧ ((∃ r1, acc = [cgroup.SysAccess path r1] ∧ r1 = 0%Z
              ∧ cgroup.paths ev = [path])
       ∨ ∃ r1 r2, acc = [cgroup.SysAccess path r1; cgroup.SysAccess path r2]
                  ∧ r1 ≠ 0%Z
                  ∧ (r2 = 0%Z ∧ cgroup.paths ev = [path]
                     ∨ r2 ≠ 0%Z ∧ ev = []))
    ∧ cgroup.opened ev = cgroup.closed ev
    ∧ (cgroup.paths ev = [path] ∨ ev = [])
    ∧ (∀ fd b r, (fd, b, r) ∈ cgroup.written ev →
         b = buf ∧ cgroup.opened ev = [fd])
    ∧ ((cgroup.switch_cgroup k cg pid t).1 = true
       ↔ ∃ fd r, cgroup.written ev = [(fd, buf, r)] ∧ r ≠ (-1)%Z)
    ∧ length (cgroup.written ev) ≤ 1.
Proof.
  intros path buf. unfold cgroup.calls, cgroup.switch_cgroup.
  fold path. fold buf.
  set (r1 := cgroup.sys_access k t path).
  set (t1 := t ++ [cgroup.SysAccess path r1]).
  set (r2 := cgroup.sys_access k t1 path).
  destruct (Z.eqb_spec r1 0) as [Hr1|Hr1]; cbn [negb].
  - destruct (write_procs_calls k path buf t1)
      as (ev & Ht & Hoc & Hp & Hw & Hres & Hlen).
    exists [cgroup.SysAccess path r1], ev.
    rewrite Ht. subst t1. rewrite <- !app_assoc.
    rewrite drop_app_length. split; [done|]. split; [done|].
    split; [left; by exists r1|].
    split; [done|]. split; [by left|]. done.
  - destruct (Z.eqb_spec r2 0) as [Hr2|Hr2]; cbn [negb].
    + destruct (write_procs_calls k path buf
                  (t1 ++ [cgroup.SysAccess path r2]))
        as (ev & Ht & Hoc & Hp & Hw & Hres & Hlen).
      exists [cgroup.SysAccess path r1; cgroup.SysAccess path r2], ev.
      rewrite Ht. subst t1.
      split; [by rewrite <- !app_assoc, drop_app_length|].
      split; [by rewrite <- !app_assoc|].
      split; [right; exists r1, r2; by split; [|split; [|left]]|].
      split; [done|]. split; [by left|]. done.
    + exists [cgroup.SysAccess path r1; cgroup.SysAccess path r2], [].
      cbn [snd fst]. subst t1. rewrite <- !app_assoc.
      rewrite drop_app_length. split; [done|]. split; [done|].
      split; [right; exists r1, r2; by split; [|split; [|right]]|].
      split; [done|]. split; [by right|].
      split; [intros ? ? ? Hin; by apply elem_of_nil in Hin|].
      split; [|simpl; lia].
      split; [done|]. by intros (? & ? & ? & _).
Qed.

Lemma accesses_only acc path :
  ((∃ r1, acc = [cgroup.SysAccess path r1])
   ∨ ∃ r1 r2, acc = [cgroup.SysAccess path r1; cgroup.SysAccess path r2]) →
  cgroup.opened acc = [] ∧ cgroup.closed acc = [] ∧ cgroup.written acc = []
  ∧ Forall (λ p, p = path) (cgroup.paths acc).
Proof.
  intros [(r1 & ->)|(r1 & r2 & ->)]; cbn; repeat split; repeat constructor.
Qed.

(** X18. Every descriptor that [switch_cgroup] opens is closed, once, and
    nothing else is closed; there is at most one write, to the descriptor
    just opened; and the result is [true] exactly when that write was made
    and did not return -1, however many bytes it reports. *)
Theorem switch_cgroup_descriptors k cg pid t :
  (cgroup.switch_cgroup k cg pid t).2 = t ++ cgroup.calls k cg pid t
  ∧ cgroup.opened (cgroup.calls k cg pid t)
    = cgroup.closed (cgroup.calls k cg pid t)
  ∧ length (cgroup.written (cgroup.calls k cg pid t)) ≤ 1
  ∧ (∀ fd b r, (fd, b, r) ∈ cgroup.written (cgroup.calls k cg pid t) →
       cgroup.opened (cgroup.calls k cg pid t) = [fd])
  ∧ ((cgroup.switch_cgroup k cg pid t).1 = true
     ↔ ∃ fd b r, cgroup.written (cgroup.calls k cg pid t) = [(fd, b, r)]
                 ∧ r ≠ (-1)%Z).
Proof.
  destruct (switch_cgroup_events k cg pid t)
    as (acc & ev & Hc & Ht & Hacc & Hoc & Hp & Hw & Hres & Hlen).
  destruct (accesses_only acc
    (cgroup.snprintf 1024 (cg ++ js "/uid_0/cgroup.procs")))
    as (Ho & Hcl & Hwr & _).
  { destruct Hacc as [(r1 & -> & _)|(r1 & r2 & -> & _)];
      [left; by exists r1|right; by exists r1, r2]. }
  rewrite Hc, Ht.
  unfold cgroup.opened, cgroup.closed, cgroup.written in *.
  rewrite !omap_app, Ho, Hcl, Hwr. cbn [app].
  split; [done|]. split; [done|]. split; [done|].
  split; [intros fd b r Hin; by apply (Hw fd b r)|].
  rewrite Hres. split.
  - intros (fd & r & H1 & H2). by eexists fd, _, r.
  - intros (fd & b & r & H1 & H2). exists fd, r. split; [|done].
    destruct (Hw fd b r) as [-> _]; [|done].
    rewrite H1. apply list_elem_of_singleton. done.
Qed.

(** X19. When the name of the group has at most 1004 bytes, every path
    that [switch_cgroup] gives to [access] or [open] is
    [<cgroup>/uid_0/cgroup.procs]: the path [<cgroup>/cgroup.procs] that
    line 13 computes is never used.  The file is looked for once, and a
    second time when the first call fails; when both fail nothing is
    opened and the result is [false]. *)
Theorem switch_cgroup_paths k cg pid t :
  length cg ≤ 1004 →
  Forall (λ p, p = cg ++ js "/uid_0/cgroup.procs"
               ∧ p ≠ cg ++ js "/cgroup.procs")
         (cgroup.paths (cgroup.calls k cg pid t))
  ∧ (∃ r1 rest,
       cgroup.calls k cg pid t
       = cgroup.SysAccess (cg ++ js "/uid_0/cgroup.procs") r1 :: rest
       ∧ (r1 = 0%Z → cgroup.paths rest = [cg ++ js "/uid_0/cgroup.procs"])
       ∧ (r1 ≠ 0%Z →
          ∃ r2 rest',
            rest = cgroup.SysAccess (cg ++ js "/uid_0/cgroup.procs") r2 :: rest'
            ∧ (r2 = 0%Z →
               cgroup.paths rest' = [cg ++ js "/uid_0/cgroup.procs"])
            ∧ (r2 ≠ 0%Z →
               rest' = [] ∧ (cgroup.switch_cgroup k cg pid t).1 = false))).
Proof.
  intros Hlen.
  assert (cgroup.snprintf 1024 (cg ++ js "/uid_0/cgroup.procs")
          = cg ++ js "/uid_0/cgroup.procs") as Hpath.
  { unfold cgroup.snprintf. apply take_ge. rewrite length_app.
    change (length (js "/uid_0/cgroup.procs")) with 19. lia. }
  destruct (switch_cgroup_events k cg pid t)
    as (acc & ev & Hc & Ht & Hacc & Hoc & Hp & Hw & Hres & Hl).
  rewrite Hpath in *. rewrite Hc.
  assert (∀ p, p = cg ++ js "/uid_0/cgroup.procs" →
               p = cg ++ js "/uid_0/cgroup.procs"
               ∧ p ≠ cg ++ js "/cgroup.procs") as Hne.
  { intros p ->. split; [done|]. intros Heq. apply app_inv_head in Heq.
    vm_compute in Heq. discriminate Heq. }
  assert (ev = [] → (cgroup.switch_cgroup k cg pid t).1 = false) as Hfalse.
  { intros ->. destruct ((cgroup.switch_cgroup k cg pid t).1); [|done].
    destruct (proj1 Hres eq_refl) as (? & ? & H1 & _). discriminate H1. }
  split.
  - unfold cgroup.paths. rewrite omap_app. apply Forall_app. split.
    + destruct Hacc as [(r1 & -> & _)|(r1 & r2 & -> & _)]; cbn;
        repeat constructor; by apply Hne.
    + destruct Hp as [Hp| ->]; [|constructor].
      unfold cgroup.paths in Hp. rewrite Hp. repeat constructor; by apply Hne.
  - destruct Hacc as [(r1 & -> & Hr & Hev)|(r1 & r2 & -> & Hr1 & Hr)].
    + exists r1, ev. split; [done|]. split; [done|]. by intros.
    + exists r1, ([cgroup.SysAccess (cg ++ js "/uid_0/cgroup.procs") r2] ++ ev).
      split; [done|]. split; [done|]. intros _.
      exists r2, ev. split; [done|].
      destruct Hr as [[Hr2 Hev]|[Hr2 Hev]].
      * split; [done|]. by intros.
      * split; [done|]. intros _. split; [done|]. by apply Hfalse.
Qed.

Lemma switch_cgroup_written k cg pid t fd b r :
  (fd, b, r) ∈ cgroup.written (cgroup.calls k cg pid t) →
  b = take 7 (cgroup.format_d pid ++ js "\n").
Proof.
  destruct (switch_cgroup_events k cg pid t)
    as (acc & ev & Hc & _ & Hacc & _ & _ & Hw & _).
  destruct (accesses_only acc
    (cgroup.snprintf 1024 (cg ++ js "/uid_0/cgroup.procs")))
    as (_ & _ & Hwr & _).
  { destruct Hacc as [(r1 & -> & _)|(r1 & r2 & -> & _)];
      [left; by exists r1|right; by exists r1, r2]. }
  rewrite Hc. unfold cgroup.written in *. rewrite omap_app, Hwr. cbn [app].
  intros Hin. by destruct (Hw fd b r Hin) as [-> _].
Qed.

(** X20. For a process id of at most six digits (and a negative one of at
    most five) the text that [switch_cgroup] writes is the whole line:
    the sign if there is one, the decimal numeral of the id without
    leading zero, and the line feed. *)
Theorem switch_cgroup_pid_line k cg pid t fd b r :
  (-10 ^ 5 < pid < 10 ^ 6)%Z →
  (fd, b, r) ∈ cgroup.written (cgroup.calls k cg pid t) →
  ∃ ds, ds ≠ []
        ∧ Forall cgroup.is_digit ds
        ∧ (head ds = Some 48%N → ds = [48%N])
        ∧ cgroup.decimal_value ds = Z.abs pid
        ∧ b = (if (pid <? 0)%Z then [45%N] else []) ++ ds ++ js "\n".
Proof.
  intros Hpid Hin. apply switch_cgroup_written in Hin. subst b.
  unfold cgroup.format_d. destruct (Z.ltb_spec pid 0) as [Hneg|Hpos].
  - exists (cgroup.digits 10 (- pid)).
    destruct (digits_canonical 10 (- pid)) as [Hne Hhd]; [lia|lia|].
    split; [done|].
    split; [apply digits_are_digits; lia|]. split; [done|].
    split; [rewrite decimal_value_digits; lia|].
    apply take_ge. cbn [app length]. rewrite length_app.
    pose proof (digits_length_le 10 5 (- pid)).
    change (length (js "\n")) with 1. lia.
  - exists (cgroup.digits 10 pid).
    destruct (digits_canonical 10 pid) as [Hne Hhd]; [lia|lia|].
    split; [done|].
    split; [apply digits_are_digits; lia|]. split; [done|].
    split; [rewrite decimal_value_digits; lia|].
    cbn [app]. apply take_ge. rewrite length_app.
    pose proof (digits_length_le 10 6 pid).
    change (length (js "\n")) with 1. lia.
Qed.

(** X21. For a process id of seven digits or more the buffer of eight
    bytes is too small: the text written has seven digits and no line
    feed, and it is the id without its last digits, so that it denotes
    the id exactly when the id has seven digits. *)
Theorem switch_cgroup_pid_truncated k cg pid t fd b r :
  (10 ^ 6 ≤ pid < 2 ^ 31)%Z →
  (fd, b, r) ∈ cgroup.written (cgroup.calls k cg pid t) →
  length b = 7
  ∧ Forall cgroup.is_digit b
  ∧ (∃ j, (10 ^ 6 ≤ pid / 10 ^ Z.of_nat j < 10 ^ 7)%Z
          ∧ cgroup.decimal_value b = (pid / 10 ^ Z.of_nat j)%Z)
  ∧ (cgroup.decimal_value b = pid ↔ (pid < 10 ^ 7)%Z).
Proof.
  intros Hpid Hin. apply switch_cgroup_written in Hin. subst b.
  unfold cgroup.format_d. destruct (Z.ltb_spec pid 0) as [Hneg|_]; [lia|].
  assert (∃ j, (10 ^ 6 * 10 ^ Z.of_nat j ≤ pid < 10 ^ 7 * 10 ^ Z.of_nat j)%Z)
    as [j Hj].
  { destruct (Z.lt_ge_cases pid (10 ^ 7)); [exists 0; simpl; lia|].
    destruct (Z.lt_ge_cases pid (10 ^ 8)); [exists 1; simpl; lia|].
    destruct (Z.lt_ge_cases pid (10 ^ 9)); [exists 2; simpl; lia|].
    exists 3. simpl. lia. }
  rewrite (take_digits j) by lia.
  assert (0 < 10 ^ Z.of_nat j)%Z as Hp by (apply Z.pow_pos_nonneg; lia).
  assert (10 ^ 6 ≤ pid / 10 ^ Z.of_nat j < 10 ^ 7)%Z as Hq.
  { split.
    - apply Z.div_le_lower_bound; lia.
    - apply Z.div_lt_upper_bound; lia. }
  assert (cgroup.decimal_value (cgroup.digits 10 (pid / 10 ^ Z.of_nat j))
          = (pid / 10 ^ Z.of_nat j)%Z) as Hval
    by (apply decimal_value_digits; lia).
  split.
  { pose proof (digits_length_le 10 7 (pid / 10 ^ Z.of_nat j)).
    pose proof (digits_length_ge 10 6 (pid / 10 ^ Z.of_nat j)). lia. }
  split; [apply digits_are_digits; lia|].
  split; [by exists j|].
  rewrite Hval. split; [lia|].
  intros Hlt. destruct j as [|j]; [simpl; apply Z.div_1_r|].
  exfalso.
  replace (Z.of_nat (S j)) with (Z.succ (Z.of_nat j)) in Hj by lia.
  rewrite Z.pow_succ_r in Hj by lia.
  assert (0 < 10 ^ Z.of_nat j)%Z by (apply Z.pow_pos_nonneg; lia). nia.
Qed.

(** ** [switch_cgroup] on examples *)

Lemma switch_cgroup_paths_witness :
  Forall (λ p, p = js "/acct/uid_0/cgroup.procs" ∧ p ≠ js "/acct/cgroup.procs")
    (cgroup.paths (cgroup.calls cgroup.kernel_late (js "/acct") 1234 [])).
Proof.
  apply (proj1 (switch_cgroup_paths cgroup.kernel_late (js "/acct") 1234 []
                  ltac:(vm_compute; lia))).
Defined.

Lemma switch_cgroup_pid_line_witness :
  ∃ ds, ds ≠ []
        ∧ Forall cgroup.is_digit ds
        ∧ (head ds = Some 48%N → ds = [48%N])
        ∧ cgroup.decimal_value ds = 1234%Z
        ∧ js "1234\n" = [] ++ ds ++ js "\n".
Proof.
  apply (switch_cgroup_pid_line cgroup.kernel_ok (js "/acct") 1234 []
           5%Z (js "1234\n") 5%Z).
  - lia.
  - vm_compute. apply list_elem_of_In. left. reflexivity.
Defined.

Lemma switch_cgroup_pid_truncated_witness :
  length (js "1234567") = 7
  ∧ (cgroup.decimal_value (js "1234567") = 12345678%Z
     ↔ (12345678 < 10 ^ 7)%Z).
Proof.
  destruct (switch_cgroup_pid_truncated cgroup.kernel_ok (js "/acct") 12345678
              [] 5%Z (js "1234567") 7%Z) as (Hlen & _ & _ & Hval).
  - lia.
  - vm_compute. apply list_elem_of_In. left. reflexivity.
  - split; [exact Hlen|exact Hval].
Defined.
